(** * HMM-EM ON/OFF state detection: a shallow embedding of
      [on_off_detection/methods/hmmem.py] and of parts of
      [on_off_detection/on_off.py]

    The development follows the Python modules top to bottom:
    - [Num]       the number model of [hmmem.py] (exact rationals extended
                  with the IEEE non-finite values that numpy produces on
                  division by zero);
    - [History]   the trailing-window history count of [run_hmmem];
    - [Tables]    2-vectors, 2x2 matrices and 2xn tables;
    - [Hmmem]     [newton_ralphson] and the pieces of [_run_hmmem]: emission
                  model, E-step, M-step, EM loop, Viterbi decoder;
    - [Params]    the parameter dictionaries of [OnOffModel.__init__];
    - [Detection] the loop of [_run_detection] that recovers the times of
                  the recording, on binary64 numbers.

    Numbers.  numpy computes in binary64.  In [Hmmem] rounding, underflow
    and overflow are not modelled: finite values are exact rationals, kept
    in lowest terms by every operation ([Qred]).  What is modelled is the
    part of IEEE arithmetic that decides control flow in that module: a
    division by zero does not raise, it yields [inf] or [nan], and every
    comparison with [nan] is false.  Signed zeros are not modelled (a
    zero divisor is taken as [+0]).  [np.exp] and [np.log] are parameters
    of the development.  In [Detection], where the result depends on how
    sums of times are rounded, times are the binary64 numbers of the
    kernel. *)

From Stdlib Require Import String.
From Stdlib Require Import ZArith QArith Qpower Qround List Bool Arith Lia Lqa.
From Stdlib Require PrimFloat FloatAxioms SpecFloat FloatOps.
Import ListNotations.

(* ===================================================================== *)
(** ** Numbers *)
(* ===================================================================== *)

Module Num.

Inductive fl : Type :=
| Fin (q : Q)
| PInf
| NInf
| NaN.

Definition signed_inf (c : comparison) : fl :=
  match c with Gt => PInf | Lt => NInf | Eq => NaN end.

Definition fl_opp (x : fl) : fl :=
  match x with
  | Fin a => Fin (- a)
  | PInf => NInf
  | NInf => PInf
  | NaN => NaN
  end.

Definition fl_add (x y : fl) : fl :=
  match x, y with
  | NaN, _ | _, NaN => NaN
  | Fin a, Fin b => Fin (Qred (a + b))
  | PInf, NInf | NInf, PInf => NaN
  | PInf, _ | _, PInf => PInf
  | NInf, _ | _, NInf => NInf
  end.

Definition fl_sub (x y : fl) : fl := fl_add x (fl_opp y).

Definition fl_mul (x y : fl) : fl :=
  match x, y with
  | NaN, _ | _, NaN => NaN
  | Fin a, Fin b => Fin (Qred (a * b))
  | Fin a, PInf | PInf, Fin a => signed_inf (a ?= 0)
  | Fin a, NInf | NInf, Fin a => signed_inf (CompOpp (a ?= 0))
  | PInf, PInf | NInf, NInf => PInf
  | PInf, NInf | NInf, PInf => NInf
  end.

(** [x / y] as numpy computes it: no exception, [0/0 = nan],
    [a/0 = +-inf]. *)
Definition fl_div (x y : fl) : fl :=
  match x, y with
  | NaN, _ | _, NaN => NaN
  | Fin a, Fin b =>
      match b ?= 0 with
      | Eq => signed_inf (a ?= 0)
      | _ => Fin (Qred (a / b))
      end
  | Fin _, PInf | Fin _, NInf => Fin 0
  | PInf, Fin b => match b ?= 0 with Lt => NInf | _ => PInf end
  | NInf, Fin b => match b ?= 0 with Lt => PInf | _ => NInf end
  | PInf, PInf | PInf, NInf | NInf, PInf | NInf, NInf => NaN
  end.

(** [x > y]; false as soon as one side is [nan]. *)
Definition fl_gtb (x y : fl) : bool :=
  match x, y with
  | Fin a, Fin b => match a ?= b with Gt => true | _ => false end
  | PInf, Fin _ | PInf, NInf | Fin _, NInf => true
  | _, _ => false
  end.

Definition fl_isnan (x : fl) : bool :=
  match x with NaN => true | _ => false end.

Definition of_Z (z : Z) : fl := Fin (inject_Z z).

Definition fl0 : fl := Fin 0.
Definition fl1 : fl := Fin 1.

(** [np.power(x, c)] for an integer exponent. *)
Definition fl_pow (x : fl) (c : Z) : fl :=
  match c with
  | Z0 => fl1
  | Zpos _ =>
      match x with
      | Fin a => Fin (Qred (a ^ c))
      | PInf => PInf
      | NInf => if Z.even c then PInf else NInf
      | NaN => NaN
      end
  | Zneg p =>
      fl_div fl1
        match x with
        | Fin a => Fin (Qred (a ^ Zpos p))
        | PInf => PInf
        | NInf => if Z.even c then PInf else NInf
        | NaN => NaN
        end
  end.

Fixpoint zfact (n : nat) : Z :=
  match n with
  | O => 1
  | S m => Z.of_nat n * zfact m
  end.

(** [scipy.special.factorial], which computes in floating point: 0 for
    a negative argument, [c!] up to [170!], the largest factorial below
    the largest binary64 number, and [inf] from 171 on. *)
Definition factorial (c : Z) : fl :=
  if (c <? 0)%Z then fl0
  else if (170 <? c)%Z then PInf
  else of_Z (zfact (Z.to_nat c)).

(** [EPS = np.spacing(1)], the gap between 1.0 and the next binary64. *)
Definition EPS : fl := Fin (1 # 4503599627370496).

(** Sum of a list, left to right ([np.sum]). *)
Definition fl_sum (xs : list fl) : fl := fold_left fl_add xs fl0.

(** Finite values and their sign. *)
Definition finite (x : fl) : Prop := exists q, x = Fin q.
Definition nonneg (x : fl) : Prop := exists q, x = Fin q /\ 0 <= q.
Definition positive (x : fl) : Prop := exists q, x = Fin q /\ 0 < q.
(** [x] is the finite value [q], up to equality of fractions. *)
Definition is_val (x : fl) (q : Q) : Prop := exists p, x = Fin p /\ p == q.

End Num.
Export Num.

Declare Scope fl_scope.
Delimit Scope fl_scope with fl.
Infix "+" := fl_add : fl_scope.
Infix "-" := fl_sub : fl_scope.
Infix "*" := fl_mul : fl_scope.
Infix "/" := fl_div : fl_scope.
Infix ">?" := fl_gtb (at level 70, no associativity) : fl_scope.

(* ===================================================================== *)
(** ** The history sequence of [run_hmmem] *)
(* ===================================================================== *)

Module History.

Definition zsum (xs : list Z) : Z := fold_right Z.add 0%Z xs.

(** [xs[lo:hi]]. *)
Definition slice (lo hi : nat) (xs : list Z) : list Z :=
  firstn (hi - lo) (skipn lo xs).

(** [pd.Series(xs).rolling(w, center=False, min_periods=1).sum()]:
    entry [k] sums the window of [w] samples that ends at [k], cut at the
    start of the series. *)
Definition rolling_sum (w : nat) (xs : list Z) : list Z :=
  map (fun k => zsum (slice (k + 1 - w) (k + 1) xs)) (seq 0 (length xs)).

Fixpoint zip_with {A B C} (f : A -> B -> C) (xs : list A) (ys : list B)
  : list C :=
  match xs, ys with
  | x :: xs', y :: ys' => f x y :: zip_with f xs' ys'
  | _, _ => []
  end.

(** Lines 56-60: a rolling sum over [W + 1] bins, minus the current bin. *)
Definition bin_history_spike_count (W : nat) (bin_spike_count : list Z)
  : list Z :=
  zip_with Z.sub (rolling_sum (W + 1) bin_spike_count) bin_spike_count.

End History.

(* ===================================================================== *)
(** ** Errors *)
(* ===================================================================== *)

Module Res.

(** The exceptions [_run_hmmem] can raise. *)
Inductive error : Type :=
| AlphaScalingError (t k : nat)
    (** [ValueError("Numerical error when scaling alpha[k] (EM step t, bin index k)")] *)
| ZetaScalingError (t k : nat)
    (** [ValueError("Numerical error when scaling zeta_i_j[k] (EM step t, bin index k)")] *)
| BroadcastError
    (** [ValueError("operands could not be broadcast together ...")] *)
| AssertionError
| IndexError.

Inductive result (A : Type) : Type :=
| Ok (a : A)
| Err (e : error).
Arguments Ok {A} a.
Arguments Err {A} e.

Definition bind {A B} (r : result A) (f : A -> result B) : result B :=
  match r with
  | Ok a => f a
  | Err e => Err e
  end.

End Res.
Export Res.

Notation "x <- c ;; k" := (bind c (fun x => k))
  (at level 61, c at next level, right associativity).
Notation "' pat <- c ;; k" := (bind c (fun x => match x with pat => k end))
  (at level 61, pat pattern, c at next level, right associativity).

(* ===================================================================== *)
(** ** 2-vectors, 2x2 matrices, 2xn tables *)
(* ===================================================================== *)

Module Tables.
Import History.
Local Open Scope fl_scope.

(** A length-2 array, index = state. *)
Record vec2 : Type := V2 { v_0 : fl; v_1 : fl }.

(** A 2x2 array [m[i,j]]. *)
Record mat2 : Type := M2 { m_00 : fl; m_01 : fl; m_10 : fl; m_11 : fl }.

(** A [2 x nbins] array, stored by columns: column [k] is [tbl[:, k]]. *)
Definition table : Type := list vec2.

Definition vzero : vec2 := V2 fl0 fl0.
Definition mzero : mat2 := M2 fl0 fl0 fl0 fl0.

Definition vmap (f : fl -> fl) (v : vec2) : vec2 := V2 (f (v_0 v)) (f (v_1 v)).
Definition mmap (f : fl -> fl) (m : mat2) : mat2 :=
  M2 (f (m_00 m)) (f (m_01 m)) (f (m_10 m)) (f (m_11 m)).

(** Elementwise operations. *)
Definition vadd (v w : vec2) : vec2 := V2 (v_0 v + v_0 w) (v_1 v + v_1 w).
Definition vmul (v w : vec2) : vec2 := V2 (v_0 v * v_0 w) (v_1 v * v_1 w).
Definition vdiv (v : vec2) (c : fl) : vec2 := V2 (v_0 v / c) (v_1 v / c).
Definition madd (m n : mat2) : mat2 :=
  M2 (m_00 m + m_00 n) (m_01 m + m_01 n) (m_10 m + m_10 n) (m_11 m + m_11 n).
Definition mmul (m n : mat2) : mat2 :=
  M2 (m_00 m * m_00 n) (m_01 m * m_01 n) (m_10 m * m_10 n) (m_11 m * m_11 n).
Definition mdiv (m : mat2) (c : fl) : mat2 :=
  M2 (m_00 m / c) (m_01 m / c) (m_10 m / c) (m_11 m / c).

(** [np.sum(v, axis=None)] and [np.sum(m, axis=None)]. *)
Definition vsum (v : vec2) : fl := v_0 v + v_1 v.
Definition msum (m : mat2) : fl := m_00 m + m_01 m + m_10 m + m_11 m.

(** [np.sum(m, axis=1)]: the sum of each row. *)
Definition row_sums (m : mat2) : vec2 := V2 (m_00 m + m_01 m) (m_10 m + m_11 m).

(** [np.matmul(v, A)] for a 1-d [v]: [out[j] = sum_i v[i] * A[i,j]]. *)
Definition vec_mat (v : vec2) (A : mat2) : vec2 :=
  V2 (v_0 v * m_00 A + v_1 v * m_10 A) (v_0 v * m_01 A + v_1 v * m_11 A).

(** [np.matmul(A, w)] for a column [w]: [out[i] = sum_j A[i,j] * w[j]]. *)
Definition mat_vec (A : mat2) (w : vec2) : vec2 :=
  V2 (m_00 A * v_0 w + m_01 A * v_1 w) (m_10 A * v_0 w + m_11 A * v_1 w).

(** [np.matmul(a, w.transpose())] for columns [a], [w]: [out[i,j] = a[i] * w[j]]. *)
Definition outer (a w : vec2) : mat2 :=
  M2 (v_0 a * v_0 w) (v_0 a * v_1 w) (v_1 a * v_0 w) (v_1 a * v_1 w).

(** [np.sum(tbl, axis=1)] and [np.sum(zeta, axis=2)]: sums over the bins. *)
Definition table_sum (tbl : table) : vec2 := fold_right vadd vzero tbl.
Definition blocks_sum (zs : list mat2) : mat2 := fold_right madd mzero zs.

(** [v[i]] for a state [i]; state 0 is index 0, any other index reads state 1
    (the code only ever indexes with 0 or 1). *)
Definition vget (v : vec2) (i : nat) : fl :=
  match i with O => v_0 v | S _ => v_1 v end.

End Tables.
Export Tables.

(* ===================================================================== *)
(** ** The engine: [newton_ralphson] and [_run_hmmem] *)
(* ===================================================================== *)

(** [np.exp] and [np.log]. *)
Class Elementary : Type := {
  np_exp : fl -> fl;
  np_log : fl -> fl
}.

Module Hmmem.
Import History.
Local Open Scope fl_scope.

Section Engine.
Context {elem : Elementary}.

(** *** Emission model (lines 128-142 and 247-259) *)

(** [STATES = [0, 1]]. *)
Definition STATES : list Z := [0%Z; 1%Z].

(** Eq 2.3: [np.exp(mu + alphaa * STATES[state_i] + betaa * history[k])]. *)
Definition bin_lambda (mu alphaa betaa : fl) (state : Z) (h : Z) : fl :=
  np_exp (mu + alphaa * of_Z state + betaa * of_Z h).

(** Eq 2.2: [np.exp(-l) * np.power(l, count) / factorial(count)]. *)
Definition poisson (l : fl) (count : Z) : fl :=
  np_exp (fl_opp l) * fl_pow l count / factorial count.

Definition emission (mu alphaa betaa : fl)
    (bin_spike_count bin_history_spike_count : list Z) : table :=
  zip_with
    (fun c h =>
       V2 (poisson (bin_lambda mu alphaa betaa 0 h) c)
          (poisson (bin_lambda mu alphaa betaa 1 h) c))
    bin_spike_count bin_history_spike_count.

(** *** [newton_ralphson] (lines 311-430) *)

(** [for _ in range(n_iter): update = update - g / gprime; param = update].
    Returns the parameter after the loop; [param] is its value before. *)
Fixpoint newton_for (n_iter : nat) (g gprime : fl -> fl) (update param : fl)
  : fl :=
  match n_iter with
  | O => param
  | S n =>
      let update' := update - g update / gprime update in
      newton_for n g gprime update' update'
  end.

(** The linear predictor [m + a * Z + b * history], one entry per bin
    ([Zs] is the array the code calls [Z]). *)
Definition predictor (m a b : fl) (Zs : list fl) (hist : list Z) : list fl :=
  zip_with (fun z h => m + a * z + b * of_Z h) Zs hist.

Definition weighted_sum (w : list fl) (xs : list fl) : fl :=
  fl_sum (zip_with fl_mul w xs).

(** The functions [g] and [gprime] of the three loops, as functions of
    the loop variable [update]. *)

(** Lines 338-359: [m_a], [m_b] are [init_alphaa], [init_betaa]. *)
Definition g_mu (bin_spike_count : list Z) (Zs : list fl) (hist : list Z)
    (m_a m_b : fl) (update : fl) : fl :=
  fl_sum (map np_exp (predictor update m_a m_b Zs hist))
  - of_Z (zsum bin_spike_count).

Definition gprime_mu (Zs : list fl) (hist : list Z)
    (m_a m_b : fl) (update : fl) : fl :=
  fl_sum (map np_exp (predictor update m_a m_b Zs hist)).

(** Lines 365-390: [mu] is the value just computed, [m_b] is [init_betaa]. *)
Definition g_alphaa (bin_spike_count : list Z) (Zs : list fl) (hist : list Z)
    (mu m_b : fl) (update : fl) : fl :=
  weighted_sum Zs (map np_exp (predictor mu update m_b Zs hist))
  - fl_sum (zip_with (fun c z => of_Z c * z) bin_spike_count Zs).

Definition gprime_alphaa (Zs : list fl) (hist : list Z)
    (mu m_b : fl) (update : fl) : fl :=
  weighted_sum (zip_with fl_mul Zs Zs)
    (map np_exp (predictor mu update m_b Zs hist)).

(** Lines 398-411: [mu] and [alphaa] are the values just computed. *)
Definition g_betaa (bin_spike_count : list Z) (Zs : list fl) (hist : list Z)
    (mu alphaa : fl) (update : fl) : fl :=
  weighted_sum (map of_Z hist)
    (map np_exp (predictor mu alphaa update Zs hist))
  - of_Z (zsum (zip_with Z.mul bin_spike_count hist)).

Definition gprime_betaa (Zs : list fl) (hist : list Z)
    (mu alphaa : fl) (update : fl) : fl :=
  weighted_sum (map of_Z (zip_with Z.mul hist hist))
    (map np_exp (predictor mu alphaa update Zs hist)).

Definition newton_ralphson
    (bin_spike_count : list Z) (Zs : list fl) (bin_history_spike_count : list Z)
    (init_alphaa init_betaa init_mu : fl) (n_iter : nat)
  : result (fl * fl * fl) :=
  (* assert shape[1] > shape[0], for both (1, nbins) arrays *)
  if negb ((1 <? length bin_spike_count)%nat
           && (1 <? length bin_history_spike_count)%nat)
  then Err AssertionError
  else if negb ((length Zs =? length bin_spike_count)%nat
                && (length bin_history_spike_count =? length bin_spike_count)%nat)
  then Err BroadcastError
  else
    let mu := fl0 in
    let alphaa := fl0 in
    let betaa := fl0 in
    (* Update mu *)
    let update := init_mu + Fin (1 # 100) * Fin (1 # 10) in
    let mu :=
      newton_for n_iter
        (g_mu bin_spike_count Zs bin_history_spike_count init_alphaa init_betaa)
        (gprime_mu Zs bin_history_spike_count init_alphaa init_betaa)
        update mu in
    (* Update alphaa *)
    let update := init_alphaa + Fin (1 # 100) * Fin (2 # 10) in
    let alphaa :=
      newton_for n_iter
        (g_alphaa bin_spike_count Zs bin_history_spike_count mu init_betaa)
        (gprime_alphaa Zs bin_history_spike_count mu init_betaa)
        update alphaa in
    (* Update betaa (d == 1) *)
    let update := init_betaa + Fin (1 # 100) * Fin (3 # 10) in
    let betaa :=
      newton_for n_iter
        (g_betaa bin_spike_count Zs bin_history_spike_count mu alphaa)
        (gprime_betaa Zs bin_history_spike_count mu alphaa)
        update betaa in
    Ok (alphaa, betaa, mu).

(** *** E-step (lines 161-221) *)

(** The forward loop [for k in range(1, nbins)]: [prev] is [alpha[:, k-1]],
    [Bs] holds the columns [B[:, k:]].  Returns [alpha[:, k:]] and [C[k:]]. *)
Fixpoint forward_loop (t k : nat) (A : mat2) (prev : vec2) (Bs : table)
  : result (table * list fl) :=
  match Bs with
  | [] => Ok ([], [])
  | Bk :: Bs' =>
      let a := vmul (vec_mat prev A) Bk in
      let Ck := vsum a in
      if Ck >? fl0 then
        let ak := vdiv a Ck in
        ' (al, Cs) <- forward_loop t (S k) A ak Bs' ;;
        Ok (ak :: al, Ck :: Cs)
      else Err (AlphaScalingError t k)
  end.

(** Lines 164-184: the scaled forward messages [alpha] and the scaling
    vector [C].  Column 0 is scaled without a test. *)
Definition forward (t : nat) (p0 : vec2) (A : mat2) (B : table)
  : result (table * list fl) :=
  match B with
  | [] => Err IndexError
  | B0 :: Bs =>
      let a := vmul p0 B0 in
      let C0 := vsum a in
      let a0 := vdiv a C0 in
      ' (al, Cs) <- forward_loop t 1 A a0 Bs ;;
      Ok (a0 :: al, C0 :: Cs)
  end.

(** Line 186: [np.sum(np.log(C[0:nbins] + EPS))]. *)
Definition log_likelihood (C : list fl) : fl :=
  fl_sum (map (fun c => np_log (c + EPS)) C).

(** Lines 191-201: the scaled backward messages; [B] and [C] are the
    columns from some bin [k] on, the result is [beta[:, k:]]. *)
Fixpoint backward (A : mat2) (B : table) (C : list fl) : table :=
  match B, C with
  | _ :: B', Ck :: C' =>
      match B' with
      | [] => [vdiv (V2 fl1 fl1) Ck]
      | Bnext :: _ =>
          let bs := backward A B' C' in
          vdiv (mat_vec A (vmul (hd vzero bs) Bnext)) Ck :: bs
      end
  | _, _ => []
  end.

(** Lines 203-221, [for k in range(0, nbins - 1)]: [alpha] holds the
    columns [alpha[:, k:]], [beta] and [B] the columns from [k+1] on.
    Returns the blocks [zeta[:, :, k:nbins-1]]. *)
Fixpoint pairwise (t k : nat) (A : mat2) (alpha beta B : table)
  : result (list mat2) :=
  match alpha, beta, B with
  | ak :: alpha', b1 :: beta', B1 :: B' =>
      let temp := mmul (outer ak (vmul b1 B1)) A in
      if msum temp >? fl0 then
        zs <- pairwise t (S k) A alpha' beta' B' ;;
        Ok (mdiv temp (msum temp) :: zs)
      else Err (ZetaScalingError t k)
  | _, _, _ => Ok []
  end.

(** What one E-step computes.  [es_zeta] and [es_gamma] are the [nbins - 1]
    entries the E-step writes; entry [nbins - 1] of both arrays is not
    written. *)
Record estep : Type := {
  es_alpha : table;
  es_C : list fl;
  es_logP : fl;
  es_beta : table;
  es_zeta : list mat2;
  es_gamma : table
}.

(** Lines 186-221: what follows the forward pass. *)
Definition e_step_rest (t : nat) (A : mat2) (B alpha : table) (C : list fl)
  : result estep :=
  let beta := backward A B C in
  zs <- pairwise t 0 A alpha (tl beta) (tl B) ;;
  Ok {| es_alpha := alpha; es_C := C; es_logP := log_likelihood C;
        es_beta := beta; es_zeta := zs; es_gamma := map row_sums zs |}.

Definition e_step (t : nat) (p0 : vec2) (A : mat2) (B : table)
  : result estep :=
  ' (alpha, C) <- forward t p0 A B ;;
  e_step_rest t A B alpha C.

(** Writing the first entries of an array in place: the entries
    beyond [length new] keep their old value. *)
Definition overwrite {T} (new old : list T) : list T :=
  new ++ skipn (length new) old.

(** *** M-step (lines 223-234) *)

(** Line 225: [Z = STATES[0] * gamma[0, :] + STATES[1] * gamma[1, :]]. *)
Definition expected_state (gamma : table) : list fl :=
  map (fun g => of_Z 0 * v_0 g + of_Z 1 * v_1 g) gamma.

(** Lines 232-234: [A = np.sum(zeta, axis=2) / np.tile(np.sum(gamma, axis=1), (1, 2))]. *)
Definition update_A (zeta : list mat2) (gamma : table) : mat2 :=
  let temp1 := blocks_sum zeta in
  let temp2 := table_sum gamma in
  M2 (m_00 temp1 / v_0 temp2) (m_01 temp1 / v_0 temp2)
     (m_10 temp1 / v_1 temp2) (m_11 temp1 / v_1 temp2).

(** *** Viterbi decoder (lines 274-302) *)

(** [np.argmax] and [np.max] over two values: the first maximum wins, and
    a [nan] counts as the maximum. *)
Definition argmax2 (a b : fl) : nat :=
  if fl_isnan a then 0%nat
  else if fl_isnan b then 1%nat
  else if b >? a then 1%nat else 0%nat.

Definition max2 (a b : fl) : fl :=
  if fl_isnan a then a
  else if fl_isnan b then b
  else if b >? a then b else a.

(** Lines 289-296 for one bin: row [j] of [temp] is
    [delta[:, t-1] + logA[:, j]]; returns [(delta[:, t], psi[:, t])]. *)
Definition viterbi_step (logA : mat2) (prev logBt : vec2) : vec2 * (nat * nat) :=
  let t00 := v_0 prev + m_00 logA in
  let t01 := v_1 prev + m_10 logA in
  let t10 := v_0 prev + m_01 logA in
  let t11 := v_1 prev + m_11 logA in
  (V2 (max2 t00 t01 + v_0 logBt) (max2 t10 t11 + v_1 logBt),
   (argmax2 t00 t01, argmax2 t10 t11)).

(** [for t in range(1, nbins)]: [prev] is [delta[:, t-1]], [logBs] the
    columns [logB[:, t:]]. *)
Fixpoint viterbi_loop (logA : mat2) (prev : vec2) (logBs : table)
  : list (vec2 * (nat * nat)) :=
  match logBs with
  | [] => []
  | logBt :: rest =>
      let dp := viterbi_step logA prev logBt in
      dp :: viterbi_loop logA (fst dp) rest
  end.

(** [psi[s, t]]. *)
Definition psi_get (p : nat * nat) (s : nat) : nat :=
  match s with O => fst p | S _ => snd p end.

(** Lines 299-302: [psis] holds the columns [psi[:, t+1:]]; the result is
    [S[0, t:]] when the last state is [final]. *)
Fixpoint backtrack (psis : list (nat * nat)) (final : nat) : list nat :=
  match psis with
  | [] => [final]
  | p :: rest =>
      let path := backtrack rest final in
      psi_get p (hd 0%nat path) :: path
  end.

Record decoded : Type := {
  vt_delta : table;
  vt_psi : list (nat * nat);
  vt_S : list nat;
  vt_log_L : fl
}.

Definition viterbi (p0 : vec2) (A : mat2) (B : table) : result decoded :=
  let log_P0 := vmap (fun x => np_log (x + EPS)) p0 in
  let logA := mmap (fun x => np_log (x + EPS)) A in
  let logB := map (vmap (fun x => np_log (x + EPS))) B in
  match logB with
  | [] => Err IndexError
  | logB0 :: rest =>
      let delta0 := vadd log_P0 logB0 in
      let steps := viterbi_loop logA delta0 rest in
      let delta := delta0 :: map fst steps in
      let psi := (0%nat, 0%nat) :: map snd steps in
      let last := last delta vzero in
      let final := argmax2 (v_0 last) (v_1 last) in
      Ok {| vt_delta := delta;
            vt_psi := psi;
            vt_S := backtrack (map snd steps) final;
            vt_log_L := vget last final / of_Z (Z.of_nat (length B)) |}
  end.

(** *** The EM loop (lines 155-268) *)

(** The variables that live across iterations.  [alpha], [beta], [C] and
    [bin_lambda] are rewritten in full by every iteration before they are
    read, so they are not part of the state.  [st_log_P] is the
    [np.empty((n_iter_EM,))] array: [None] is a slot not written yet. *)
Record em_state : Type := {
  st_t : nat;
  st_diff_log_P : fl;
  st_log_P : list (option fl);
  st_p0 : vec2;
  st_A : mat2;
  st_alphaa : fl;
  st_betaa : fl;
  st_mu : fl;
  st_B : table;
  st_gamma : table;
  st_zeta : list mat2
}.

(** [l[i] = v]. *)
Definition write_at {T} (l : list T) (i : nat) (v : T) : result (list T) :=
  if (i <? length l)%nat
  then Ok (firstn i l ++ v :: skipn (S i) l)
  else Err IndexError.

(** [log_P[i]]; the loop only reads slots it has written, the value
    given for any other slot is arbitrary. *)
Definition read_log_P (l : list (option fl)) (i : nat) : fl :=
  match nth_error l i with
  | Some (Some v) => v
  | _ => NaN
  end.

(** The body of the [while] loop. *)
Definition em_iteration
    (bin_spike_count bin_history_spike_count : list Z)
    (n_iter_newton_ralphson : nat) (st : em_state) : result em_state :=
  let t := st_t st in
  (* E-step *)
  ' (alpha, C) <- forward t (st_p0 st) (st_A st) (st_B st) ;;
  log_P <- write_at (st_log_P st) t (Some (log_likelihood C)) ;;
  es <- e_step_rest t (st_A st) (st_B st) alpha C ;;
  let zeta := overwrite (es_zeta es) (st_zeta st) in
  let gamma := overwrite (es_gamma es) (st_gamma st) in
  let Zs := expected_state gamma in
  (* M-step *)
  let p0 := hd vzero gamma in
  let A := update_A zeta gamma in
  ' (alphaa, betaa, mu) <-
      newton_ralphson bin_spike_count Zs bin_history_spike_count
        (st_alphaa st) (st_betaa st) (st_mu st) n_iter_newton_ralphson ;;
  let B := emission mu alphaa betaa bin_spike_count bin_history_spike_count in
  let diff_log_P :=
    if (1 <? t)%nat
    then read_log_P log_P t - read_log_P log_P (t - 1)
    else st_diff_log_P st in
  Ok {| st_t := S t; st_diff_log_P := diff_log_P; st_log_P := log_P;
        st_p0 := p0; st_A := A;
        st_alphaa := alphaa; st_betaa := betaa; st_mu := mu;
        st_B := B; st_gamma := gamma; st_zeta := zeta |}.

(** [while t < (n_iter_EM - 1) and diff_log_P > 0].  [fuel] is
    [(n_iter_EM - 1) - t], the number of iterations the first test still
    allows: it is 0 exactly when [t < n_iter_EM - 1] fails. *)
Fixpoint em_loop
    (bin_spike_count bin_history_spike_count : list Z)
    (n_iter_newton_ralphson : nat) (fuel : nat) (st : em_state)
  : result em_state :=
  match fuel with
  | O => Ok st
  | S fuel' =>
      if st_diff_log_P st >? fl0 then
        st' <- em_iteration bin_spike_count bin_history_spike_count
                 n_iter_newton_ralphson st ;;
        em_loop bin_spike_count bin_history_spike_count
          n_iter_newton_ralphson fuel' st'
      else Ok st
  end.

(** *** [_run_hmmem] (lines 84-308) *)

(** The returned tuple [S, prob_S, alphaa, betaa, mu, A, B, p0, log_L, log_P].
    [out_n_iter] is not returned by the code: it is the value of [t] when
    the EM loop exits, the number of completed iterations. *)
Record output : Type := {
  out_S : list nat;
  out_prob_S : table;
  out_alphaa : fl;
  out_betaa : fl;
  out_mu : fl;
  out_A : mat2;
  out_B : table;
  out_p0 : vec2;
  out_log_L : fl;
  out_log_P : list (option fl);
  out_n_iter : nat
}.

Definition init_state
    (bin_spike_count bin_history_spike_count : list Z)
    (init_A : mat2) (init_alphaa init_betaa init_mu : fl) (n_iter_EM : nat)
  : em_state :=
  let nbins := length bin_spike_count in
  {| st_t := 0;
     st_diff_log_P := of_Z 10;
     st_log_P := repeat None n_iter_EM;
     st_p0 := V2 (Fin (1 # 2)) (Fin (1 # 2));
     st_A := init_A;
     st_alphaa := init_alphaa;
     st_betaa := init_betaa;
     st_mu := init_mu;
     st_B := emission init_mu init_alphaa init_betaa
               bin_spike_count bin_history_spike_count;
     st_gamma := repeat vzero nbins;
     st_zeta := repeat mzero nbins |}.

Definition _run_hmmem
    (bin_spike_count bin_history_spike_count : list Z)
    (init_A : mat2) (init_alphaa init_betaa init_mu : fl)
    (n_iter_EM n_iter_newton_ralphson : nat) : result output :=
  if negb (length bin_spike_count =? length bin_history_spike_count)%nat
  then Err AssertionError
  else
    st <- em_loop bin_spike_count bin_history_spike_count
            n_iter_newton_ralphson (n_iter_EM - 1)
            (init_state bin_spike_count bin_history_spike_count
               init_A init_alphaa init_betaa init_mu n_iter_EM) ;;
    let prob_S := st_gamma st in
    let p0 := hd vzero (st_gamma st) in
    dec <- viterbi p0 (st_A st) (st_B st) ;;
    Ok {| out_S := vt_S dec;
          out_prob_S := prob_S;
          out_alphaa := st_alphaa st;
          out_betaa := st_betaa st;
          out_mu := st_mu st;
          out_A := st_A st;
          out_B := st_B st;
          out_p0 := vmap np_exp p0;
          out_log_L := vt_log_L dec;
          out_log_P := st_log_P st;
          out_n_iter := st_t st |}.

End Engine.
End Hmmem.
Export Hmmem.

(* ===================================================================== *)
(** ** Parameter dictionaries: [OnOffModel.__init__] and [run_hmmem] *)
(* ===================================================================== *)

(** [on_off.py], lines 176-186, and [hmmem.py], line 41.  A Python
    dictionary is an association list with distinct keys, in insertion
    order; the values (floats, integers, an array) are of no concern. *)
Module Params.

Section Dict.
Variable V : Type.

Definition dict : Type := list (string * V).

Definition keys (d : dict) : list string := map fst d.

Definition has_key (d : dict) (k : string) : bool :=
  existsb (String.eqb k) (keys d).

(** [d[k]]. *)
Fixpoint lookup (d : dict) (k : string) : option V :=
  match d with
  | [] => None
  | (k', v) :: d' => if String.eqb k k' then Some v else lookup d' k
  end.

(** [d[k] = v]: the value of an existing key is replaced in place, a
    new key is appended. *)
Fixpoint dict_set (d : dict) (k : string) (v : V) : dict :=
  match d with
  | [] => [(k, v)]
  | (k', v') :: d' =>
      if String.eqb k k' then (k', v) :: d' else (k', v') :: dict_set d' k v
  end.

(** [d.update(other)]. *)
Definition update (d other : dict) : dict :=
  fold_left (fun acc kv => dict_set acc (fst kv) (snd kv)) other d.

(** [set(a.keys()) == set(b.keys())]. *)
Definition same_key_set (a b : dict) : bool :=
  forallb (has_key b) (keys a) && forallb (has_key a) (keys b).

(** [on_off.py], lines 176-186: [None] stands for the [ValueError]
    raised on unrecognized keys; [defaults] is [DF_PARAMS[method]]. *)
Definition init_params (defaults params : dict) : option dict :=
  let unrecognized_params :=
    filter (fun k => negb (has_key defaults k)) (keys params) in
  match unrecognized_params with
  | [] => Some (update defaults params)
  | _ :: _ => None
  end.

(** [hmmem.py], line 41: the assertion of [run_hmmem] on its [params];
    [defaults] is [HMMEM_PARAMS]. *)
Definition params_check (defaults params : dict) : bool :=
  same_key_set params defaults.

End Dict.

Arguments keys {V} d.
Arguments has_key {V} d k.
Arguments lookup {V} d k.
Arguments dict_set {V} d k v.
Arguments update {V} d other.
Arguments same_key_set {V} a b.
Arguments init_params {V} defaults params.
Arguments params_check {V} defaults params.

(** The keys of [HMMEM_PARAMS] (lines 20-29). *)
Definition HMMEM_KEYS : list string :=
  ["binsize"; "history_window_nbins"; "n_iter_EM"; "n_iter_newton_ralphson";
   "init_A"; "init_mu"; "init_alphaa"; "init_betaa"]%string.

End Params.

(* ===================================================================== *)
(** ** Recovering the original times: [_run_detection] *)
(* ===================================================================== *)

(** [on_off.py], lines 65-110.  The detected periods are in the time of
    the cut-and-concatenated bouts; the loop moves each period that lies
    strictly inside a bout back to the time of the recording and labels
    it with the state of the bout, and the periods left with the label
    ["interbout"] are dropped.  Times are binary64 numbers, as the float
    columns of the two data frames are: the type [float] with the IEEE
    operations of the kernel, so that every sum is rounded as numpy
    rounds it. *)
Module Detection.
Import History.
Import PrimFloat.

Section Frames.
(** The columns of [on_off_df] the loop does not touch. *)
Variable X : Type.

(** A row of [on_off_df]. *)
Record period : Type := {
  start_time : float;
  end_time : float;
  bout_state : string;
  other : X
}.

(** A row of [bouts_df]. *)
Record bout : Type := {
  b_start_time : float;
  b_duration : float;
  b_state : string
}.

(** The loop variable [bout_concat_start_time]: the integer [0] before
    the first bout, a float from then on. *)
Inductive concat_time : Type :=
| Int0
| Flt (f : float).

(** Its value when it is compared with a float or added to one. *)
Definition as_float (c : concat_time) : float :=
  match c with Int0 => 0%float | Flt f => f end.

(** [-bout_concat_start_time]; the opposite of the integer [0] is the
    integer [0]. *)
Definition neg (c : concat_time) : float :=
  match c with Int0 => 0%float | Flt f => (- f)%float end.

(** Lines 70-72: [(start_time > bout_concat_start_time) &
    (end_time < bout_concat_end_time)], on a row of [on_off_orig]. *)
Definition bout_on_off (bout_concat_start_time : concat_time)
    (bout_concat_end_time : float) (o : period) : bool :=
  (as_float bout_concat_start_time <? start_time o)%float
  && (end_time o <? bout_concat_end_time)%float.

(** Lines 85-93 on one selected row. *)
Definition move (bout_offset : float) (state : string) (r : period) : period :=
  {| start_time := (start_time r + bout_offset)%float;
     end_time := (end_time r + bout_offset)%float;
     bout_state := state;
     other := other r |}.

(** Lines 68-99: [for i, row in bouts_df.iterrows()]. *)
Fixpoint relabel (bouts : list bout) (bout_concat_start_time : concat_time)
    (on_off_orig on_off_df : list period) : list period :=
  match bouts with
  | [] => on_off_df
  | row :: rest =>
      let bout_concat_end_time :=
        (as_float bout_concat_start_time + b_duration row)%float in
      let bout_offset :=
        (neg bout_concat_start_time + b_start_time row)%float in
      let on_off_df' :=
        zip_with
          (fun o r =>
             if bout_on_off bout_concat_start_time bout_concat_end_time o
             then move bout_offset (b_state row) r
             else r)
          on_off_orig on_off_df in
      relabel rest (Flt bout_concat_end_time) on_off_orig on_off_df'
  end.

Definition set_state (state : string) (r : period) : period :=
  {| start_time := start_time r; end_time := end_time r;
     bout_state := state; other := other r |}.

(** Lines 65-110. *)
Definition recover_times (bouts : list bout) (on_off_df : list period)
  : list period :=
  let on_off_orig := on_off_df in
  let on_off_df := map (set_state "interbout") on_off_df in
  filter (fun r => negb (String.eqb (bout_state r) "interbout"))
    (relabel bouts Int0 on_off_orig on_off_df).

(** What the loop does to one row [r] of [on_off_df], [o] being the
    same row of [on_off_orig]. *)
Fixpoint relabel_row (bouts : list bout) (concat_start : concat_time)
    (o r : period) : period :=
  match bouts with
  | [] => r
  | b :: rest =>
      let concat_end := (as_float concat_start + b_duration b)%float in
      relabel_row rest (Flt concat_end) o
        (if bout_on_off concat_start concat_end o
         then move (neg concat_start + b_start_time b)%float (b_state b) r
         else r)
  end.

(** The same in one pass over the periods: the first bout whose stretch
    of concatenated time strictly contains the period, with the start of
    that stretch. *)
Fixpoint find_bout (bouts : list bout) (concat_start : concat_time) (o : period)
  : option (concat_time * bout) :=
  match bouts with
  | [] => None
  | b :: rest =>
      let concat_end := (as_float concat_start + b_duration b)%float in
      if bout_on_off concat_start concat_end o
      then Some (concat_start, b)
      else find_bout rest (Flt concat_end) o
  end.

Definition place (bouts : list bout) (o : period) : list period :=
  match find_bout bouts Int0 o with
  | Some (concat_start, b) =>
      if String.eqb (b_state b) "interbout" then []
      else [move (neg concat_start + b_start_time b)%float (b_state b) o]
  | None => []
  end.

(** The ends of the stretches, as the loop accumulates them, never
    decrease. *)
Fixpoint stretches_nondecreasing (bouts : list bout)
    (concat_start : concat_time) : bool :=
  match bouts with
  | [] => true
  | b :: rest =>
      let concat_end := (as_float concat_start + b_duration b)%float in
      (as_float concat_start <=? concat_end)%float
      && stretches_nondecreasing rest (Flt concat_end)
  end.

End Frames.

Arguments start_time {X} p.
Arguments end_time {X} p.
Arguments bout_state {X} p.
Arguments other {X} p.
Arguments bout_on_off {X} _ _ o.
Arguments move {X} _ _ r.
Arguments relabel {X} bouts _ _ _.
Arguments relabel_row {X} bouts _ o r.
Arguments set_state {X} _ r.
Arguments recover_times {X} bouts on_off_df.
Arguments find_bout {X} bouts _ o.
Arguments place {X} bouts o.

End Detection.

(** The order of binary64 numbers, read off [SFcompare]: the rank of a
    number that is not [nan], compared lexicographically. *)
Module FloatOrder.
Import SpecFloat.

Definition rank (x : spec_float) : Z * Z * Z :=
  match x with
  | S754_nan => (0, 0, 0)
  | S754_infinity true => (-2, 0, 0)
  | S754_infinity false => (2, 0, 0)
  | S754_zero _ => (0, 0, 0)
  | S754_finite true m e => (-1, - e, - Zpos m)
  | S754_finite false m e => (1, e, Zpos m)
  end%Z.

Definition is_nan (x : spec_float) : bool :=
  match x with S754_nan => true | _ => false end.

Definition rank_lt (a b : Z * Z * Z) : Prop :=
  let '(a1, a2, a3) := a in
  let '(b1, b2, b3) := b in
  (a1 < b1 \/ (a1 = b1 /\ (a2 < b2 \/ (a2 = b2 /\ a3 < b3))))%Z.

End FloatOrder.

(** An input of [_run_detection]. *)
Module DetectionInputs.
Import Detection.
Import PrimFloat.
Local Open Scope string_scope.

(** Two bouts, of 0.1 s from 100 s and of 0.7 s from 200 s, so that the
    second stretch ends at [(0 + 0.1) + 0.7], which rounds to
    [0.7999999999999999]; four periods: one inside the first stretch,
    one across the junction, one that ends on that rounded end, one
    inside the second stretch. *)
Definition ex_bouts : list bout :=
  [ {| b_start_time := 100; b_duration := 0x1.999999999999ap-4;
       b_state := "NREM" |};
    {| b_start_time := 200; b_duration := 0x1.6666666666666p-1;
       b_state := "Wake" |} ].

Definition ex_periods : list (period unit) :=
  [ {| start_time := 0x1p-5; end_time := 0x1p-4;
       bout_state := ""; other := tt |};
    {| start_time := 0x1p-4; end_time := 0x1p-3;
       bout_state := ""; other := tt |};
    {| start_time := 0x1p-2; end_time := 0x1.9999999999999p-1;
       bout_state := ""; other := tt |};
    {| start_time := 0x1p-2; end_time := 0x1p-1;
       bout_state := ""; other := tt |} ].

End DetectionInputs.

(* ===================================================================== *)
(** ** Predicates used in the statements *)
(* ===================================================================== *)

Module Predicates.
Import History.
Local Open Scope fl_scope.

Section WithElementary.
Context {elem : Elementary}.

(** The state after [s] completed EM iterations from [st0]: [s] runs of
    the loop body. *)
Fixpoint em_iterate (counts hist : list Z) (nr : nat) (s : nat)
    (st0 : em_state) : result em_state :=
  match s with
  | O => Ok st0
  | S s' =>
      st <- em_iterate counts hist nr s' st0 ;;
      em_iteration counts hist nr st
  end.

(** [v] is the log-likelihood [np.sum(np.log(C + EPS))] that iteration
    [s] of the run started in [st0] computed: the forward pass of that
    iteration, on the [p0], [A] and [B] that [s] completed iterations
    leave, ran to its end with scaling vector [C], and the iteration
    itself completed. *)
Definition written_by_iteration (counts hist : list Z) (nr : nat)
    (st0 : em_state) (s : nat) (v : fl) : Prop :=
  exists st alpha C st',
    em_iterate counts hist nr s st0 = Ok st
    /\ forward s (st_p0 st) (st_A st) (st_B st) = Ok (alpha, C)
    /\ v = log_likelihood C
    /\ em_iteration counts hist nr st = Ok st'.

(** Section 4.3 of the specification, in its words.  One Newton update
    is [theta <- theta - g(theta) / g'(theta)]. *)
Definition newton_update (g gprime : fl -> fl) (theta : fl) : fl :=
  theta - g theta / gprime theta.

(** The expected spike count of every bin under the model,
    [exp(mu + alphaa * Z[k] + betaa * history[k])]. *)
Definition intensity (mu alphaa betaa : fl) (Zs : list fl) (history : list Z)
  : list fl :=
  zip_with (fun z h => np_exp (mu + alphaa * z + betaa * of_Z h)) Zs history.

(** "Expected total spike count under the model equals observed total
    spike count", weighted by [w]: the function whose root is sought,
    [sum_k w[k] * lam[k] - sum_k count[k] * w[k]]. *)
Definition weighted_count_gap (w lam : list fl) (count : list Z) : fl :=
  fl_sum (zip_with fl_mul w lam)
  - fl_sum (zip_with (fun c wk => of_Z c * wk) count w).

(** Its derivative in the parameter that multiplies [w[k]] in the
    exponent, [sum_k w[k] * w[k] * lam[k]]. *)
Definition weighted_count_slope (w lam : list fl) : fl :=
  fl_sum (zip_with fl_mul (zip_with fl_mul w w) lam).

(** The weights of the three problems: 1, the expected state [Z[k]], the
    history count [history[k]]. *)
Definition unit_weights (count : list Z) : list fl := map (fun _ => fl1) count.
Definition state_weights (Zs : list fl) : list fl := Zs.
Definition history_weights (history : list Z) : list fl := map of_Z history.

(** [n_iter] Newton updates on the problem of weights [w], where [lam]
    gives the intensities as a function of the parameter solved for. *)
Definition solve_weighted (n_iter : nat) (w : list fl) (lam : fl -> list fl)
    (count : list Z) (start : fl) : fl :=
  Nat.iter n_iter
    (newton_update (fun theta => weighted_count_gap w (lam theta) count)
                   (fun theta => weighted_count_slope w (lam theta)))
    start.

(** The three parameters solved one after the other: [mu] with unit
    weights and the previous [alphaa], [betaa]; then [alphaa] with weights
    [Z[k]] and the new [mu]; then [betaa] with weights [history[k]] and
    the new [mu] and [alphaa]; each from the previous value plus a fixed
    offset. *)
Definition block_coordinate_newton
    (count : list Z) (Zs : list fl) (history : list Z)
    (prev_alphaa prev_betaa prev_mu : fl) (n_iter : nat) : fl * fl * fl :=
  let mu :=
    solve_weighted n_iter (unit_weights count)
      (fun theta => intensity theta prev_alphaa prev_betaa Zs history)
      count (prev_mu + Fin (1 # 1000)) in
  let alphaa :=
    solve_weighted n_iter (state_weights Zs)
      (fun theta => intensity mu theta prev_betaa Zs history)
      count (prev_alphaa + Fin (1 # 500)) in
  let betaa :=
    solve_weighted n_iter (history_weights history)
      (fun theta => intensity mu alphaa theta Zs history)
      count (prev_betaa + Fin (3 # 1000)) in
  (alphaa, betaa, mu).

(** [L] is the list of log-likelihoods written so far: the state of the
    trace [log_P] and of [diff_log_P] after [st_t st] iterations of a
    loop with cap [n_iter_EM]. *)
Record trace_inv (n_iter_EM : nat) (st : em_state) (L : list fl) : Prop := {
  ti_len : length L = st_t st;
  ti_log_P :
    st_log_P st = map Some L ++ repeat None (n_iter_EM - st_t st);
  ti_diff :
    st_diff_log_P st
    = if (st_t st <=? 2)%nat then of_Z 10
      else nth (st_t st - 1) L NaN - nth (st_t st - 2) L NaN;
  ti_cont :
    forall s, (2 <= s)%nat -> (s + 1 < st_t st)%nat ->
      (nth s L NaN - nth (s - 1) L NaN >? fl0) = true
}.

End WithElementary.

(** The arrays keep their shape, and entry [nbins - 1] of [gamma] and of
    [zeta] keeps the zero it was created with. *)
Definition shape_inv (nbins : nat) (st : em_state) : Prop :=
  length (st_B st) = nbins
  /\ length (st_gamma st) = nbins /\ length (st_zeta st) = nbins
  /\ nth (nbins - 1) (st_gamma st) vzero = vzero
  /\ nth (nbins - 1) (st_zeta st) mzero = mzero.

(** The value of a sum whose terms are all [0 * x]: zero, or [nan] when
    some [x] is not finite. *)
Definition zero_or_nan (x : fl) : Prop := x = fl0 \/ x = NaN.

(** A state label. *)
Definition is_state (s : nat) : Prop := s = 0%nat \/ s = 1%nat.

(** The argmax over the two candidates [c0] (index 0) and [c1] (index 1),
    in the words of the specification: [i] is the index of a maximum, no
    candidate being greater than candidate [i], and of the maxima it is
    the one of lowest index, so that a tie gives 0.  The last two parts
    are numpy's rule for [nan]: it counts as a maximum, and the first
    one wins. *)
Definition lowest_argmax (c0 c1 : fl) (i : nat) : Prop :=
  is_state i
  /\ (fl_isnan c0 = false -> fl_isnan c1 = false ->
        let ci := match i with O => c0 | S _ => c1 end in
        (c0 >? ci) = false /\ (c1 >? ci) = false
        /\ (i = 1%nat -> (c1 >? c0) = true))
  /\ (fl_isnan c0 = true -> i = 0%nat)
  /\ (fl_isnan c0 = false -> fl_isnan c1 = true -> i = 1%nat).

(** A column of probabilities: finite, non-negative entries. *)
Definition vnonneg (v : vec2) : Prop := nonneg (v_0 v) /\ nonneg (v_1 v).
Definition vpositive (v : vec2) : Prop := positive (v_0 v) /\ positive (v_1 v).
Definition mnonneg (m : mat2) : Prop :=
  nonneg (m_00 m) /\ nonneg (m_01 m) /\ nonneg (m_10 m) /\ nonneg (m_11 m).

(** The two entries of [v] are finite and sum to 1. *)
Definition sums_to_one (v : vec2) : Prop :=
  exists a b, is_val (v_0 v) a /\ is_val (v_1 v) b /\ (a + b == 1)%Q.

(** The entries of [v] are the numbers [a], [b]. *)
Definition vval (v : vec2) (a b : Q) : Prop :=
  is_val (v_0 v) a /\ is_val (v_1 v) b.

(** The entries of [m] are the numbers [a], [b], [c], [d]. *)
Definition mval (m : mat2) (a b c d : Q) : Prop :=
  is_val (m_00 m) a /\ is_val (m_01 m) b
  /\ is_val (m_10 m) c /\ is_val (m_11 m) d.

(** A probability distribution over the two states. *)
Definition distribution (v : vec2) : Prop :=
  exists a b, vval v a b /\ (0 <= a)%Q /\ (0 <= b)%Q /\ (a + b == 1)%Q.

(** [x] is a finite number in [[0, 1]]. *)
Definition in_unit (x : fl) : Prop :=
  exists a, is_val x a /\ (0 <= a)%Q /\ (a <= 1)%Q.

(** Each row of [A] sums to 1 and every entry lies in [[0, 1]]. *)
Definition row_stochastic (A : mat2) : Prop :=
  sums_to_one (V2 (m_00 A) (m_01 A)) /\ sums_to_one (V2 (m_10 A) (m_11 A))
  /\ in_unit (m_00 A) /\ in_unit (m_01 A)
  /\ in_unit (m_10 A) /\ in_unit (m_11 A).

(** A 2x2 block of probabilities that sums to 1. *)
Definition block_normalized (z : mat2) : Prop :=
  exists a b c d,
    is_val (m_00 z) a /\ is_val (m_01 z) b
    /\ is_val (m_10 z) c /\ is_val (m_11 z) d
    /\ (0 <= a)%Q /\ (0 <= b)%Q /\ (0 <= c)%Q /\ (0 <= d)%Q
    /\ (a + b + c + d == 1)%Q.

End Predicates.
Export Predicates.

(* ===================================================================== *)
(** ** Rational stand-ins for [np.exp] and [np.log] *)
(* ===================================================================== *)

(** Coarse, cheap approximations on a grid of step [2^-16], with the sign
    behaviour and the special values of [np.exp] and [np.log].  They are
    only used to run the model on concrete inputs. *)
Module Standin.

Definition grid (q : Q) : Q :=
  Qred (Qmake (Z.max 1 (Qfloor (q * (65536 # 1)))) 65536).

Definition exp_q (q : Q) : Q :=
  match q ?= 0 with
  | Lt => grid (/ (1 - q + q * q / 2))
  | _ => grid (1 + q + q * q / 2)
  end.

Definition exp_fl (x : fl) : fl :=
  match x with
  | Fin q => Fin (exp_q q)
  | PInf => PInf
  | NInf => fl0
  | NaN => NaN
  end.

Definition log_fl (x : fl) : fl :=
  match x with
  | Fin q =>
      match q ?= 0 with
      | Gt => Fin (Qred (q - 1))
      | Eq => NInf
      | Lt => NaN
      end
  | PInf => PInf
  | NInf | NaN => NaN
  end.

Definition approx : Elementary := {| np_exp := exp_fl; np_log := log_fl |}.

(** [HMMEM_PARAMS['init_A']]. *)
Definition init_A : mat2 :=
  M2 (Fin (1 # 10)) (Fin (9 # 10)) (Fin (1 # 20)) (Fin (19 # 20)).

(** A two-bin input: the counts, their history over a window of one bin,
    and the default initial parameters. *)
Definition ex_counts : list Z := [3; 0]%Z.
Definition ex_hist : list Z := History.bin_history_spike_count 1 ex_counts.
Definition ex_state (n_iter_EM : nat) : em_state :=
  @init_state approx ex_counts ex_hist init_A (Fin 1) (Fin 0) (Fin (-1 # 2))
    n_iter_EM.
Definition ex_run (n_iter_EM n_iter_newton_ralphson : nat) : result output :=
  @_run_hmmem approx ex_counts ex_hist init_A (Fin 1) (Fin 0) (Fin (-1 # 2))
    n_iter_EM n_iter_newton_ralphson.
Definition ex_loop (n_iter_EM n_iter_newton_ralphson : nat) : result em_state :=
  @em_loop approx ex_counts ex_hist n_iter_newton_ralphson (n_iter_EM - 1)
    (ex_state n_iter_EM).

(** A second input, on which the log-likelihood computed with the
    stand-ins goes down from the first iteration on. *)
Definition dec_counts : list Z := [1; 2]%Z.
Definition dec_hist : list Z := History.bin_history_spike_count 1 dec_counts.
Definition dec_run (n_iter_EM n_iter_newton_ralphson : nat) : result output :=
  @_run_hmmem approx dec_counts dec_hist init_A (Fin 1) (Fin 0) (Fin 1)
    n_iter_EM n_iter_newton_ralphson.

End Standin.

(* ===================================================================== *)
(** * Properties *)
(* ===================================================================== *)

(** ** The history sequence *)

Section HistoryFacts.
Import History.
Local Open Scope Z_scope.

Lemma zsum_app (a b : list Z) : zsum (a ++ b) = zsum a + zsum b.
Proof.
  unfold zsum. induction a as [|x a IH]; simpl; [reflexivity|].
  rewrite IH. ring.
Qed.

Lemma firstn_snoc_nth {T} (d : T) (l : list T) (m : nat) :
  (m < length l)%nat -> firstn (S m) l = firstn m l ++ [nth m l d].
Proof.
  revert m. induction l as [|x l IH]; intros m Hm; simpl in Hm; [lia|].
  destruct m as [|m]; [reflexivity|].
  change (firstn (S (S m)) (x :: l)) with (x :: firstn (S m) l).
  rewrite (IH m) by lia. reflexivity.
Qed.

Lemma zsum_slice_succ (lo k : nat) (xs : list Z) :
  (lo <= k)%nat -> (k < length xs)%nat ->
  zsum (slice lo (k + 1) xs) = zsum (slice lo k xs) + nth k xs 0.
Proof.
  intros Hlo Hk. unfold slice.
  replace (k + 1 - lo)%nat with (S (k - lo)) by lia.
  rewrite (firstn_snoc_nth 0) by (rewrite length_skipn; lia).
  rewrite zsum_app, nth_skipn.
  replace (lo + (k - lo))%nat with k by lia.
  unfold zsum at 2. simpl. ring.
Qed.

Lemma zip_with_length {A B C} (f : A -> B -> C) xs ys :
  length (zip_with f xs ys) = Nat.min (length xs) (length ys).
Proof.
  revert ys. induction xs as [|x xs IH]; intros [|y ys]; simpl; auto.
Qed.

Lemma zip_with_nth {A B C} (f : A -> B -> C) xs ys k da db dc :
  (k < length xs)%nat -> (k < length ys)%nat ->
  nth k (zip_with f xs ys) dc = f (nth k xs da) (nth k ys db).
Proof.
  revert ys k. induction xs as [|x xs IH]; intros [|y ys] k Hx Hy;
    simpl in *; try lia.
  destruct k as [|k]; [reflexivity|]. apply IH; lia.
Qed.

Lemma rolling_sum_length w xs : length (rolling_sum w xs) = length xs.
Proof. unfold rolling_sum. now rewrite length_map, length_seq. Qed.

Lemma map_nth_lt {A B} (f : A -> B) (l : list A) (k : nat) (da : A) (db : B) :
  (k < length l)%nat -> nth k (map f l) db = f (nth k l da).
Proof.
  revert k. induction l as [|x l IH]; intros k Hk; simpl in Hk; [lia|].
  destruct k as [|k]; [reflexivity|]. simpl. apply IH. lia.
Qed.

Lemma rolling_sum_nth w xs k :
  (k < length xs)%nat ->
  nth k (rolling_sum w xs) 0 = zsum (slice (k + 1 - w) (k + 1) xs).
Proof.
  intros Hk. unfold rolling_sum.
  rewrite (map_nth_lt _ _ _ O) by (now rewrite length_seq).
  rewrite seq_nth by assumption. reflexivity.
Qed.

Lemma history_length W xs :
  length (bin_history_spike_count W xs) = length xs.
Proof.
  unfold bin_history_spike_count.
  rewrite zip_with_length, rolling_sum_length. lia.
Qed.

Lemma history_nth W xs k :
  (k < length xs)%nat ->
  nth k (bin_history_spike_count W xs) 0
  = zsum (slice (k - Nat.min k W) k xs).
Proof.
  intros Hk. unfold bin_history_spike_count.
  rewrite (zip_with_nth _ _ _ _ 0 0)
    by (rewrite ?rolling_sum_length; assumption).
  rewrite rolling_sum_nth by assumption.
  replace (k + 1 - (W + 1))%nat with (k - Nat.min k W)%nat by lia.
  rewrite zsum_slice_succ by lia. ring.
Qed.

Lemma zsum_const c (l : list Z) :
  (forall x, In x l -> x = c) -> zsum l = Z.of_nat (length l) * c.
Proof.
  induction l as [|x l IH]; intros H; [simpl; ring|].
  change (zsum (x :: l)) with (x + zsum l).
  rewrite IH by (intros y Hy; apply H; now right).
  rewrite (H x) by now left.
  simpl length. rewrite Nat2Z.inj_succ. ring.
Qed.

Lemma in_slice lo hi (xs : list Z) x : In x (slice lo hi xs) -> In x xs.
Proof.
  unfold slice. generalize (hi - lo)%nat as m. intros m Hx.
  assert (Hs : In x (skipn lo xs)).
  { revert Hx. generalize (skipn lo xs) as l. revert m.
    induction m as [|m IH]; intros [|y l]; simpl; try tauto.
    intros [->|H]; [now left | right; now apply IH]. }
  clear Hx. revert lo Hs. induction xs as [|y xs IH]; intros [|lo]; simpl;
    try tauto.
  intros H. right. now apply (IH lo).
Qed.

Lemma slice_repeat_sum c n lo hi :
  (hi <= n)%nat ->
  zsum (slice lo hi (repeat c n)) = Z.of_nat (hi - lo) * c.
Proof.
  intros Hhi.
  rewrite (zsum_const c).
  - unfold slice. rewrite length_firstn, length_skipn, repeat_length.
    replace (Nat.min (hi - lo) (n - lo)) with (hi - lo)%nat by lia.
    reflexivity.
  - intros x Hx. apply in_slice in Hx. now apply repeat_spec in Hx.
Qed.

(** C7.  Entry [k] of the history sequence is the sum of the counts of the
    [min(k, W)] bins just before bin [k]; the history of an all-zero count
    sequence is all zero; for a constant count sequence [c] it is [W * c]
    at every index [k >= W] and [k * c] at every index [k < W]. *)
Theorem history_trailing_window (W : nat) (bin_spike_count : list Z) :
  length (bin_history_spike_count W bin_spike_count) = length bin_spike_count
  /\ (forall k, (k < length bin_spike_count)%nat ->
        nth k (bin_history_spike_count W bin_spike_count) 0
        = zsum (slice (k - Nat.min k W) k bin_spike_count))
  /\ (forall n, bin_spike_count = repeat 0 n ->
        bin_history_spike_count W bin_spike_count = repeat 0 n)
  /\ (forall c n, bin_spike_count = repeat c n ->
        forall k, (k < n)%nat ->
          ((W <= k)%nat ->
             nth k (bin_history_spike_count W bin_spike_count) 0
             = Z.of_nat W * c)
          /\ ((k < W)%nat ->
             nth k (bin_history_spike_count W bin_spike_count) 0
             = Z.of_nat k * c)).
Proof.
  split; [apply history_length|].
  split; [intros k Hk; now apply history_nth|].
  assert (Hconst : forall c n k, (k < n)%nat ->
            nth k (bin_history_spike_count W (repeat c n)) 0
            = Z.of_nat (Nat.min k W) * c).
  { intros c n k Hk.
    rewrite history_nth by (now rewrite repeat_length).
    rewrite slice_repeat_sum by lia. f_equal. lia. }
  split.
  - intros n ->.
    apply (nth_ext _ _ 0 0).
    + now rewrite history_length.
    + intros k Hk. rewrite history_length, repeat_length in Hk.
      rewrite Hconst by assumption. rewrite nth_repeat. ring.
  - intros c n -> k Hk. split; intros HW; rewrite Hconst by assumption;
      f_equal; lia.
Qed.

(** The history of the counts [2, 2, 2, 2, 2] with a window of 3 bins. *)
Lemma history_trailing_window_witness :
  nth 4 (bin_history_spike_count 3 (repeat 2 5)) 0 = 6
  /\ nth 1 (bin_history_spike_count 3 (repeat 2 5)) 0 = 2.
Proof.
  destruct (history_trailing_window 3 (repeat 2 5)) as (_ & _ & _ & H).
  destruct (H 2 5%nat eq_refl 4%nat ltac:(lia)) as [H4 _].
  destruct (H 2 5%nat eq_refl 1%nat ltac:(lia)) as [_ H1].
  split; [exact (H4 ltac:(lia)) | exact (H1 ltac:(lia))].
Defined.

End HistoryFacts.

(** ** Arithmetic of the number model *)

Section NumFacts.
Local Open Scope Q_scope.

Lemma is_val_Fin q : is_val (Fin q) q.
Proof. exists q. split; [reflexivity | apply Qeq_refl]. Qed.

Lemma is_val_eq x a b : is_val x a -> a == b -> is_val x b.
Proof. intros (p & -> & Hp) Hab. exists p. split; [reflexivity|]. now rewrite Hp. Qed.

Lemma is_val_finite x a : is_val x a -> finite x.
Proof. intros (p & -> & _). now exists p. Qed.

Lemma finite_is_val x : finite x -> exists a, is_val x a.
Proof. intros (q & ->). exists q. apply is_val_Fin. Qed.

Lemma is_val_unique x a b : is_val x a -> is_val x b -> a == b.
Proof.
  intros (p & -> & Hp) (p' & E & Hp'). injection E as <-.
  now rewrite <- Hp, <- Hp'.
Qed.

Lemma val_add x y a b :
  is_val x a -> is_val y b -> is_val (x + y)%fl (a + b).
Proof.
  intros (p & -> & Hp) (q & -> & Hq). exists (Qred (p + q)).
  split; [reflexivity|]. now rewrite Qred_correct, Hp, Hq.
Qed.

Lemma val_opp x a : is_val x a -> is_val (fl_opp x) (- a).
Proof.
  intros (p & -> & Hp). exists (- p). split; [reflexivity|]. now rewrite Hp.
Qed.

Lemma val_sub x y a b :
  is_val x a -> is_val y b -> is_val (x - y)%fl (a - b).
Proof. intros Hx Hy. unfold fl_sub. apply val_add; [assumption | now apply val_opp]. Qed.

Lemma val_mul x y a b :
  is_val x a -> is_val y b -> is_val (x * y)%fl (a * b).
Proof.
  intros (p & -> & Hp) (q & -> & Hq). exists (Qred (p * q)).
  split; [reflexivity|]. now rewrite Qred_correct, Hp, Hq.
Qed.

Lemma val_div x y a b :
  is_val x a -> is_val y b -> ~ b == 0 -> is_val (x / y)%fl (a / b).
Proof.
  intros (p & -> & Hp) (q & -> & Hq) Hb. simpl.
  destruct (Qcompare_spec q 0) as [E|E|E].
  - exfalso. apply Hb. now rewrite <- Hq.
  - exists (Qred (p / q)). split; [reflexivity|].
    now rewrite Qred_correct, Hp, Hq.
  - exists (Qred (p / q)). split; [reflexivity|].
    now rewrite Qred_correct, Hp, Hq.
Qed.

Lemma gtb_val x y a b :
  is_val x a -> is_val y b -> ((x >? y)%fl = true <-> b < a).
Proof.
  intros (p & -> & Hp) (q & -> & Hq). simpl.
  rewrite <- Hp, <- Hq.
  destruct (Qcompare_spec p q) as [E|E|E]; split; intros H;
    try discriminate; try reflexivity; try assumption.
  - rewrite E in H. now apply Qlt_irrefl in H.
  - exfalso. apply (Qlt_irrefl p). now apply Qlt_trans with q.
Qed.

(** A sum is finite only when both terms are. *)
Lemma add_finite_inv x y : finite (x + y)%fl -> finite x /\ finite y.
Proof.
  intros (q & H). destruct x, y; simpl in H; try discriminate;
    split; eexists; reflexivity.
Qed.

(** What passes the test [x > 0]: a positive number or [+inf]. *)
Lemma gtb_zero_inv x : (x >? fl0)%fl = true -> positive x \/ x = PInf.
Proof.
  destruct x as [q| | |]; simpl; try discriminate; [|now right].
  intros H. left. exists q. split; [reflexivity|].
  destruct (Qcompare_spec q 0); try discriminate. assumption.
Qed.

Lemma positive_is_val x : positive x -> exists a, is_val x a /\ 0 < a.
Proof. intros (q & -> & Hq). exists q. split; [apply is_val_Fin | assumption]. Qed.

Lemma nonneg_is_val x : nonneg x -> exists a, is_val x a /\ 0 <= a.
Proof. intros (q & -> & Hq). exists q. split; [apply is_val_Fin | assumption]. Qed.

Lemma is_val_nonneg x a : is_val x a -> 0 <= a -> nonneg x.
Proof. intros (p & -> & Hp) Ha. exists p. split; [reflexivity | now rewrite Hp]. Qed.

Lemma is_val_positive x a : is_val x a -> 0 < a -> positive x.
Proof. intros (p & -> & Hp) Ha. exists p. split; [reflexivity | now rewrite Hp]. Qed.

Lemma nan_add_l x : (NaN + x)%fl = NaN.
Proof. reflexivity. Qed.

Lemma nan_add_r x : (x + NaN)%fl = NaN.
Proof. now destruct x. Qed.

Lemma nan_mul_l x : (NaN * x)%fl = NaN.
Proof. reflexivity. Qed.

Lemma nan_mul_r x : (x * NaN)%fl = NaN.
Proof. now destruct x. Qed.

Lemma nan_gtb x : (NaN >? x)%fl = false.
Proof. reflexivity. Qed.

End NumFacts.

(** ** The EM loop and the returned tuple *)

Section DriverFacts.
Local Open Scope nat_scope.
Context {elem : Elementary}.
Variables (bin_spike_count bin_history_spike_count : list Z).
Variable n_iter_newton_ralphson : nat.

Notation iteration :=
  (em_iteration bin_spike_count bin_history_spike_count n_iter_newton_ralphson).
Notation loop :=
  (em_loop bin_spike_count bin_history_spike_count n_iter_newton_ralphson).

(** What a completed iteration did. *)
Lemma em_iteration_inv st st' :
  iteration st = Ok st' ->
  exists alpha C log_P es alphaa betaa mu,
    forward (st_t st) (st_p0 st) (st_A st) (st_B st) = Ok (alpha, C)
    /\ write_at (st_log_P st) (st_t st) (Some (log_likelihood C)) = Ok log_P
    /\ e_step_rest (st_t st) (st_A st) (st_B st) alpha C = Ok es
    /\ newton_ralphson bin_spike_count
         (expected_state (overwrite (es_gamma es) (st_gamma st)))
         bin_history_spike_count (st_alphaa st) (st_betaa st) (st_mu st)
         n_iter_newton_ralphson = Ok (alphaa, betaa, mu)
    /\ st' =
       {| st_t := S (st_t st);
          st_diff_log_P :=
            if (1 <? st_t st)%nat
            then (read_log_P log_P (st_t st)
                  - read_log_P log_P (st_t st - 1))%fl
            else st_diff_log_P st;
          st_log_P := log_P;
          st_p0 := hd vzero (overwrite (es_gamma es) (st_gamma st));
          st_A := update_A (overwrite (es_zeta es) (st_zeta st))
                    (overwrite (es_gamma es) (st_gamma st));
          st_alphaa := alphaa; st_betaa := betaa; st_mu := mu;
          st_B := emission mu alphaa betaa
                    bin_spike_count bin_history_spike_count;
          st_gamma := overwrite (es_gamma es) (st_gamma st);
          st_zeta := overwrite (es_zeta es) (st_zeta st) |}.
Proof.
  unfold em_iteration.
  destruct (forward _ _ _ _) as [[alpha C]|e] eqn:Hf; simpl; [|discriminate].
  destruct (write_at _ _ _) as [lp|e] eqn:Hw; simpl; [|discriminate].
  destruct (e_step_rest _ _ _ _ _) as [es|e] eqn:He; simpl; [|discriminate].
  destruct (newton_ralphson _ _ _ _ _ _ _) as [[[a b] m]|e] eqn:Hn; simpl;
    [|discriminate].
  intros [= <-]. exists alpha, C, lp, es, a, b, m. repeat split; assumption.
Qed.

Lemma em_iteration_t st st' : iteration st = Ok st' -> st_t st' = S (st_t st).
Proof.
  intros H. apply em_iteration_inv in H.
  destruct H as (? & ? & ? & ? & ? & ? & ? & _ & _ & _ & _ & ->). reflexivity.
Qed.

(** An invariant kept by every iteration that the loop test lets through
    holds when the loop exits; the loop exits at the cap or on a failed
    [diff_log_P > 0]. *)
Lemma em_loop_inv (P : em_state -> Prop) :
  (forall s s', P s -> (st_diff_log_P s >? fl0)%fl = true ->
                iteration s = Ok s' -> P s') ->
  forall fuel st st',
    P st -> loop fuel st = Ok st' ->
    P st'
    /\ st_t st' <= st_t st + fuel
    /\ (st_t st' < st_t st + fuel -> (st_diff_log_P st' >? fl0)%fl = false).
Proof.
  intros Hstep. induction fuel as [|fuel IH]; intros st st' HP Hl; simpl in Hl.
  - injection Hl as <-. repeat split; [assumption | lia | lia].
  - destruct (st_diff_log_P st >? fl0)%fl eqn:Hd.
    + destruct (iteration st) as [s1|e] eqn:Hi; simpl in Hl; [|discriminate].
      pose proof (em_iteration_t _ _ Hi) as Ht.
      destruct (IH s1 st' (Hstep _ _ HP Hd Hi) Hl) as (HP' & Hle & Hlt).
      repeat split; [assumption | lia |]. intros H. apply Hlt. lia.
    + injection Hl as <-. repeat split; [assumption | lia | auto].
Qed.

Lemma write_at_trace N (L : list fl) t v :
  length L = t -> t < N ->
  write_at (map Some L ++ repeat None (N - t)) t (Some v)
  = Ok (map Some (L ++ [v]) ++ repeat None (N - S t)).
Proof.
  intros HL Ht. unfold write_at.
  rewrite length_app, length_map, repeat_length, HL.
  destruct (Nat.ltb_spec t (t + (N - t))); [|lia].
  f_equal.
  rewrite firstn_app, length_map, HL, Nat.sub_diag.
  rewrite firstn_all2 by (rewrite length_map; lia). simpl firstn.
  rewrite skipn_app, length_map, HL.
  rewrite skipn_all2 by (rewrite length_map; lia).
  replace (S t - t) with 1 by lia.
  replace (N - t) with (S (N - S t)) by lia. simpl.
  rewrite map_app, app_nil_r, <- app_assoc. reflexivity.
Qed.

Lemma read_log_P_written (L : list fl) R i :
  i < length L -> read_log_P (map Some L ++ R) i = nth i L NaN.
Proof.
  intros Hi. unfold read_log_P.
  rewrite nth_error_app1 by (now rewrite length_map).
  rewrite nth_error_map, (nth_error_nth' L NaN Hi). reflexivity.
Qed.

Lemma trace_inv_init init_A init_alphaa init_betaa init_mu N :
  trace_inv N
    (init_state bin_spike_count bin_history_spike_count
       init_A init_alphaa init_betaa init_mu N) [].
Proof.
  constructor; simpl; try reflexivity.
  - now rewrite Nat.sub_0_r.
  - intros s _ H. lia.
Qed.

Lemma trace_inv_step N st st' L :
  trace_inv N st L -> st_t st < N ->
  (st_diff_log_P st >? fl0)%fl = true ->
  iteration st = Ok st' ->
  exists v, trace_inv N st' (L ++ [v]).
Proof.
  intros [Hlen HlogP Hdiff Hcont] HtN Htest Hi.
  apply em_iteration_inv in Hi.
  destruct Hi as (alpha & C & lp & es & a & b & m & Hf & Hw & _ & _ & ->).
  exists (log_likelihood C).
  rewrite HlogP, (write_at_trace N L _ _ Hlen HtN) in Hw.
  injection Hw as <-.
  set (t := st_t st) in *. set (v := log_likelihood C).
  assert (Hold : forall s, s < t -> nth s (L ++ [v]) NaN = nth s L NaN).
  { intros s Hs. apply app_nth1. lia. }
  assert (Hnew : nth t (L ++ [v]) NaN = v).
  { rewrite app_nth2 by lia. now rewrite Hlen, Nat.sub_diag. }
  constructor; cbn [st_t st_diff_log_P st_log_P].
  - rewrite length_app, Hlen. simpl. lia.
  - reflexivity.
  - destruct (Nat.ltb_spec 1 t) as [H1|H1].
    + destruct (Nat.leb_spec (S t) 2) as [H2|H2]; [lia|].
      rewrite !read_log_P_written by (rewrite length_app, Hlen; simpl; lia).
      replace (S t - 1) with t by lia.
      replace (S t - 2) with (t - 1) by lia. reflexivity.
    + destruct (Nat.leb_spec (S t) 2) as [H2|H2]; [|lia].
      rewrite Hdiff. destruct (Nat.leb_spec t 2); [reflexivity | lia].
  - intros s Hs2 Hs.
    rewrite !Hold by lia.
    destruct (Nat.eq_dec (s + 1) t) as [E|E].
    + rewrite Hdiff in Htest.
      destruct (Nat.leb_spec t 2) as [H2|H2]; [lia|].
      replace (t - 1) with s in Htest by lia.
      replace (t - 2) with (s - 1) in Htest by lia. exact Htest.
    + apply Hcont; lia.
Qed.

Lemma trace_inv_loop N fuel st st' L :
  trace_inv N st L -> st_t st + fuel <= N - 1 ->
  loop fuel st = Ok st' ->
  (exists L', trace_inv N st' L')
  /\ st_t st' <= st_t st + fuel
  /\ (st_t st' < st_t st + fuel -> (st_diff_log_P st' >? fl0)%fl = false).
Proof.
  intros Hinv Hfuel Hl.
  pose (P := fun s => (exists L', trace_inv N s L')
                      /\ st_t s + (st_t st + fuel - st_t s) <= N - 1
                      /\ st_t s <= st_t st + fuel
                      /\ (st_t s < st_t st + fuel -> st_t s < N)).
  assert (HP0 : P st).
  { repeat split; [now exists L | lia | lia | lia]. }
  assert (Hstep : forall s s', P s -> (st_diff_log_P s >? fl0)%fl = true ->
                    iteration s = Ok s' ->
                    st_t s < st_t st + fuel -> P s').
  { intros s s' ((Ls & HLs) & Hb & Hle & Hlt) Htest Hi Hroom.
    pose proof (em_iteration_t _ _ Hi) as Ht.
    destruct (trace_inv_step N s s' Ls HLs (Hlt Hroom) Htest Hi) as (v & Hv).
    repeat split; [now exists (Ls ++ [v]) | lia | lia | lia]. }
  (* the loop from [st] with [fuel] never goes past [st_t st + fuel] *)
  assert (Hgen : forall f s, P s -> st_t s + f = st_t st + fuel ->
            loop f s = Ok st' ->
            P st' /\ (st_t st' < st_t st + fuel ->
                      (st_diff_log_P st' >? fl0)%fl = false)).
  { induction f as [|f IH]; intros s HPs Hsum Hls; simpl in Hls.
    - injection Hls as <-. split; [assumption | lia].
    - destruct (st_diff_log_P s >? fl0)%fl eqn:Hd.
      + destruct (iteration s) as [s1|e] eqn:Hi; simpl in Hls; [|discriminate].
        pose proof (em_iteration_t _ _ Hi) as Ht.
        apply (IH s1); [apply (Hstep s s1 HPs Hd Hi); lia | lia | assumption].
      + injection Hls as <-. split; [assumption | auto]. }
  destruct (Hgen fuel st HP0 eq_refl Hl) as ((HL' & _ & Hle & _) & Hstop).
  repeat split; assumption.
Qed.

(** Writing slot [i] changes no other slot. *)
Lemma write_at_nth_error {T} (l l' : list T) i v :
  write_at l i v = Ok l' ->
  nth_error l' i = Some v
  /\ forall j, j <> i -> nth_error l' j = nth_error l j.
Proof.
  unfold write_at. destruct (Nat.ltb_spec i (length l)) as [Hi|Hi];
    [|discriminate].
  intros E. assert (E' : l' = firstn i l ++ v :: skipn (S i) l) by congruence.
  clear E. subst l'.
  assert (Hf : length (firstn i l) = i) by (rewrite length_firstn; lia).
  split.
  - rewrite nth_error_app2 by lia. now rewrite Hf, Nat.sub_diag.
  - intros j Hj. destruct (Nat.lt_ge_cases j i) as [Hlt|Hge].
    + rewrite nth_error_app1 by lia. rewrite nth_error_firstn.
      destruct (Nat.ltb_spec j i); [reflexivity | lia].
    + rewrite nth_error_app2 by lia. rewrite Hf.
      destruct (j - i) as [|d] eqn:Ed; [lia|]. cbn [nth_error].
      rewrite nth_error_skipn. f_equal. lia.
Qed.

(** The state of the loop after [st_t] iterations is the one that
    [st_t] runs of the body produce, and every slot of the trace below
    [st_t] holds what the forward pass of its iteration computed. *)
Lemma source_inv_step st0 st st' :
  em_iterate bin_spike_count bin_history_spike_count n_iter_newton_ralphson
    (st_t st) st0 = Ok st ->
  (forall s, s < st_t st ->
     exists v, nth_error (st_log_P st) s = Some (Some v)
               /\ written_by_iteration bin_spike_count bin_history_spike_count
                    n_iter_newton_ralphson st0 s v) ->
  iteration st = Ok st' ->
  em_iterate bin_spike_count bin_history_spike_count n_iter_newton_ralphson
    (st_t st') st0 = Ok st'
  /\ (forall s, s < st_t st' ->
        exists v, nth_error (st_log_P st') s = Some (Some v)
                  /\ written_by_iteration bin_spike_count
                       bin_history_spike_count n_iter_newton_ralphson st0 s v).
Proof.
  intros Hst Hsrc Hi.
  pose proof (em_iteration_t _ _ Hi) as Ht.
  split.
  - rewrite Ht. cbn [em_iterate]. rewrite Hst. exact Hi.
  - pose proof Hi as Hi'. apply em_iteration_inv in Hi'.
    destruct Hi' as (alpha & C & lp & es & a & b & m & Hf & Hw & _ & _ & E).
    assert (HlogP : st_log_P st' = lp) by (rewrite E; reflexivity).
    destruct (write_at_nth_error _ _ _ _ Hw) as (Hnew & Hold).
    intros s Hs. rewrite HlogP.
    destruct (Nat.eq_dec s (st_t st)) as [->|Hne].
    + exists (log_likelihood C). split; [exact Hnew|].
      exists st, alpha, C, st'. repeat split; assumption.
    + rewrite (Hold s Hne). apply Hsrc. lia.
Qed.

Lemma source_inv_loop st0 fuel : forall st st',
  em_iterate bin_spike_count bin_history_spike_count n_iter_newton_ralphson
    (st_t st) st0 = Ok st ->
  (forall s, s < st_t st ->
     exists v, nth_error (st_log_P st) s = Some (Some v)
               /\ written_by_iteration bin_spike_count bin_history_spike_count
                    n_iter_newton_ralphson st0 s v) ->
  loop fuel st = Ok st' ->
  forall s, s < st_t st' ->
    exists v, nth_error (st_log_P st') s = Some (Some v)
              /\ written_by_iteration bin_spike_count bin_history_spike_count
                   n_iter_newton_ralphson st0 s v.
Proof.
  induction fuel as [|fuel IH]; intros st st' Hst Hsrc Hl; simpl in Hl.
  - injection Hl as <-. exact Hsrc.
  - destruct (st_diff_log_P st >? fl0)%fl.
    + destruct (iteration st) as [s1|e] eqn:Hi; simpl in Hl; [|discriminate].
      destruct (source_inv_step st0 st s1 Hst Hsrc Hi) as (Hst1 & Hsrc1).
      exact (IH s1 st' Hst1 Hsrc1 Hl).
    + injection Hl as <-. exact Hsrc.
Qed.

(** How [_run_hmmem] returns. *)
Lemma run_hmmem_inv init_A init_alphaa init_betaa init_mu N r :
  _run_hmmem bin_spike_count bin_history_spike_count
    init_A init_alphaa init_betaa init_mu N n_iter_newton_ralphson = Ok r ->
  length bin_spike_count = length bin_history_spike_count
  /\ exists st dec,
      loop (N - 1)
        (init_state bin_spike_count bin_history_spike_count
           init_A init_alphaa init_betaa init_mu N) = Ok st
      /\ viterbi (hd vzero (st_gamma st)) (st_A st) (st_B st) = Ok dec
      /\ r = {| out_S := vt_S dec;
                out_prob_S := st_gamma st;
                out_alphaa := st_alphaa st;
                out_betaa := st_betaa st;
                out_mu := st_mu st;
                out_A := st_A st;
                out_B := st_B st;
                out_p0 := vmap np_exp (hd vzero (st_gamma st));
                out_log_L := vt_log_L dec;
                out_log_P := st_log_P st;
                out_n_iter := st_t st |}.
Proof.
  unfold _run_hmmem.
  destruct (Nat.eqb_spec (length bin_spike_count)
              (length bin_history_spike_count)) as [E|E]; simpl;
    [|discriminate].
  destruct (loop _ _) as [st|e] eqn:Hl; simpl; [|discriminate].
  destruct (viterbi _ _ _) as [dec|e] eqn:Hv; simpl; [|discriminate].
  intros [= <-]. split; [assumption|]. exists st, dec. repeat split; assumption.
Qed.

End DriverFacts.

Section RunFacts.
Local Open Scope nat_scope.
Context {elem : Elementary}.

(** The trace and the iteration count of a run that returns. *)
Lemma run_trace counts hist init_A init_alphaa init_betaa init_mu N nr r :
  _run_hmmem counts hist init_A init_alphaa init_betaa init_mu N nr = Ok r ->
  exists st L,
    trace_inv N st L
    /\ out_log_P r = st_log_P st /\ out_n_iter r = st_t st
    /\ st_t st <= N - 1
    /\ (st_t st < N - 1 -> (st_diff_log_P st >? fl0)%fl = false).
Proof.
  intros H. apply run_hmmem_inv in H.
  destruct H as (_ & st & dec & Hl & _ & ->).
  destruct (trace_inv_loop counts hist nr N (N - 1) _ st []
              (trace_inv_init counts hist init_A init_alphaa init_betaa init_mu N))
    as ((L & HL) & Hle & Hstop); [simpl; lia | exact Hl |].
  exists st, L. simpl in *.
  split; [exact HL|]. split; [reflexivity|]. split; [reflexivity|].
  split; assumption.
Qed.

(** C1 (amended).  In a run that returns, [T = out_n_iter] iterations were
    completed and [L] holds their log-likelihoods.  The loop performs at
    most [n_iter_EM - 1] iterations.  The test on the log-likelihood is
    made from the third iteration on: every iteration [s >= 2] that was
    followed by another one had [L[s] - L[s-1] > 0], and a loop that
    exits before [n_iter_EM - 1] iterations has completed at least 3 and
    exits because [L[T-1] - L[T-2] > 0] is false. *)
Theorem em_loop_exit counts hist init_A init_alphaa init_betaa init_mu N nr r :
  _run_hmmem counts hist init_A init_alphaa init_betaa init_mu N nr = Ok r ->
  exists L,
    out_log_P r = map Some L ++ repeat None (N - out_n_iter r)
    /\ length L = out_n_iter r
    /\ out_n_iter r <= N - 1
    /\ (forall s, 2 <= s -> s + 1 < out_n_iter r ->
          (nth s L NaN - nth (s - 1) L NaN >? fl0)%fl = true)
    /\ (out_n_iter r < N - 1 ->
          3 <= out_n_iter r
          /\ (nth (out_n_iter r - 1) L NaN - nth (out_n_iter r - 2) L NaN
              >? fl0)%fl = false).
Proof.
  intros H. destruct (run_trace _ _ _ _ _ _ _ _ _ H)
    as (st & L & [Hlen HlogP Hdiff Hcont] & -> & -> & Hle & Hstop).
  exists L.
  split; [exact HlogP|]. split; [exact Hlen|]. split; [exact Hle|].
  split; [exact Hcont|].
  intros Hlt. specialize (Hstop Hlt). rewrite Hdiff in Hstop.
  destruct (Nat.leb_spec (st_t st) 2); [discriminate Hstop|].
  split; [lia | exact Hstop].
Qed.

(** C9 (amended).  The returned trace has [n_iter_EM] slots.  Slot [s],
    for each [s] below the number [T = out_n_iter] of completed
    iterations, holds the log-likelihood that the forward pass of
    iteration [s] of this run computed, on the model that the first [s]
    iterations left, and that iteration completed; the remaining slots,
    at least one of them when [n_iter_EM >= 1], were never written. *)
Theorem log_P_trace counts hist init_A init_alphaa init_betaa init_mu N nr r :
  _run_hmmem counts hist init_A init_alphaa init_betaa init_mu N nr = Ok r ->
  length (out_log_P r) = N
  /\ out_n_iter r <= N - 1
  /\ (forall s, s < out_n_iter r ->
        exists v, nth_error (out_log_P r) s = Some (Some v)
                  /\ written_by_iteration counts hist nr
                       (init_state counts hist
                          init_A init_alphaa init_betaa init_mu N) s v)
  /\ (forall s, out_n_iter r <= s -> s < N ->
        nth_error (out_log_P r) s = Some None).
Proof.
  intros H. destruct (run_trace _ _ _ _ _ _ _ _ _ H)
    as (st & L & [Hlen HlogP _ _] & HP & Ht & Hle & _).
  apply run_hmmem_inv in H. destruct H as (_ & st1 & dec & Hl & _ & ->).
  cbn [out_log_P out_n_iter] in *.
  split; [|split; [|split]].
  - rewrite HP, HlogP, length_app, length_map, repeat_length. lia.
  - rewrite Ht. exact Hle.
  - set (st0 := init_state counts hist init_A init_alphaa init_betaa init_mu N)
      in *.
    apply (source_inv_loop counts hist nr st0 (N - 1) st0 st1); [| |exact Hl].
    + reflexivity.
    + intros s Hs. simpl in Hs. lia.
  - intros s Hs HN. rewrite HP, HlogP. rewrite Ht in Hs.
    rewrite nth_error_app2 by (rewrite length_map; lia).
    rewrite length_map, Hlen.
    rewrite (nth_error_nth' _ None) by (rewrite repeat_length; lia).
    now rewrite nth_repeat.
Qed.

(** C8.  The returned [p0] is [np.exp] applied to column 0 of the
    returned [prob_S], not that column itself. *)
Theorem returned_p0_is_exp_of_gamma
    counts hist init_A init_alphaa init_betaa init_mu N nr r :
  _run_hmmem counts hist init_A init_alphaa init_betaa init_mu N nr = Ok r ->
  out_p0 r = V2 (np_exp (v_0 (hd vzero (out_prob_S r))))
                (np_exp (v_1 (hd vzero (out_prob_S r)))).
Proof.
  intros H. apply run_hmmem_inv in H.
  destruct H as (_ & st & dec & _ & _ & ->). reflexivity.
Qed.

Lemma emission_length mu alphaa betaa (counts hist : list Z) :
  length (emission mu alphaa betaa counts hist)
  = Nat.min (length counts) (length hist).
Proof. unfold emission. apply zip_with_length. Qed.

(** C10.  With [n_iter_EM <= 1] and at least one bin the loop body never
    runs: [prob_S] is all zero, [A], [alphaa], [betaa], [mu] are the
    initial values, no slot of the trace is written, and the Viterbi
    decoder runs on the emission table of the initial parameters. *)
Theorem no_iteration_when_cap_at_most_one
    counts hist init_A init_alphaa init_betaa init_mu N nr :
  N <= 1 ->
  length counts = length hist ->
  1 <= length counts ->
  exists dec,
    viterbi vzero init_A (emission init_mu init_alphaa init_betaa counts hist)
    = Ok dec
    /\ _run_hmmem counts hist init_A init_alphaa init_betaa init_mu N nr
       = Ok {| out_S := vt_S dec;
               out_prob_S := repeat vzero (length counts);
               out_alphaa := init_alphaa;
               out_betaa := init_betaa;
               out_mu := init_mu;
               out_A := init_A;
               out_B := emission init_mu init_alphaa init_betaa counts hist;
               out_p0 := V2 (np_exp fl0) (np_exp fl0);
               out_log_L := vt_log_L dec;
               out_log_P := repeat None N;
               out_n_iter := 0 |}.
Proof.
  intros HN Hlen Hn.
  assert (HB : exists b bs,
             emission init_mu init_alphaa init_betaa counts hist = b :: bs).
  { destruct (emission init_mu init_alphaa init_betaa counts hist)
      as [|b bs] eqn:E; [|now exists b, bs].
    apply (f_equal (@length _)) in E. rewrite emission_length in E.
    simpl in E. lia. }
  destruct HB as (b & bs & HB).
  assert (Hhd : hd vzero (repeat vzero (length counts)) = vzero).
  { destruct (length counts); reflexivity. }
  assert (Hv : exists dec,
             viterbi vzero init_A
               (emission init_mu init_alphaa init_betaa counts hist) = Ok dec).
  { unfold viterbi. rewrite HB. simpl. eexists. reflexivity. }
  destruct Hv as (dec & Hv). exists dec. split; [exact Hv|].
  unfold _run_hmmem.
  rewrite Hlen, Nat.eqb_refl. simpl negb. cbv iota.
  replace (N - 1) with 0 by lia. simpl em_loop. unfold bind.
  unfold init_state. cbn [st_gamma st_A st_B st_alphaa st_betaa st_mu
                          st_log_P st_t].
  rewrite <- Hlen, Hhd, Hv. reflexivity.
Qed.

End RunFacts.

Section RunExamples.
Import Standin.
Local Open Scope nat_scope.

Lemma em_loop_exit_witness :
  exists r,
    dec_run 6 1 = Ok r
    /\ out_n_iter r = 3
    /\ exists L,
        out_log_P r = map Some L ++ repeat None (6 - out_n_iter r)
        /\ length L = out_n_iter r
        /\ out_n_iter r <= 6 - 1
        /\ (forall s, 2 <= s -> s + 1 < out_n_iter r ->
              (nth s L NaN - nth (s - 1) L NaN >? fl0)%fl = true)
        /\ (out_n_iter r < 6 - 1 ->
              3 <= out_n_iter r
              /\ (nth (out_n_iter r - 1) L NaN - nth (out_n_iter r - 2) L NaN
                  >? fl0)%fl = false).
Proof.
  eexists. split; [vm_compute; reflexivity|]. split; [reflexivity|].
  apply (@em_loop_exit approx dec_counts dec_hist init_A
           (Fin 1) (Fin 0) (Fin 1) 6 1).
  vm_compute. reflexivity.
Defined.

(** C1, counterexample.  With [n_iter_EM = 3] the loop exits after 2
    iterations although [diff_log_P > 0] still holds: the budget of 3
    iterations is not used up and no log-likelihood was compared. *)
Lemma em_loop_exit_counterexample :
  exists r st,
    ex_run 3 1 = Ok r /\ out_n_iter r = 2
    /\ ex_loop 3 1 = Ok st /\ (st_diff_log_P st >? fl0)%fl = true.
Proof.
  eexists. eexists.
  split; [vm_compute; reflexivity|]. split; [reflexivity|].
  split; [vm_compute; reflexivity|]. reflexivity.
Qed.

Lemma log_P_trace_witness :
  exists r,
    ex_run 3 1 = Ok r
    /\ length (out_log_P r) = 3
    /\ out_n_iter r <= 3 - 1
    /\ (forall s, s < out_n_iter r ->
          exists v, nth_error (out_log_P r) s = Some (Some v)
                    /\ @written_by_iteration approx ex_counts ex_hist 1
                         (ex_state 3) s v)
    /\ (forall s, out_n_iter r <= s -> s < 3 ->
          nth_error (out_log_P r) s = Some None).
Proof.
  eexists. split; [vm_compute; reflexivity|].
  apply (@log_P_trace approx ex_counts ex_hist init_A
           (Fin 1) (Fin 0) (Fin (-1 # 2)) 3 1).
  vm_compute. reflexivity.
Defined.

(** C9, counterexample.  With [n_iter_EM = 3] two iterations are
    completed, the returned trace has three entries, and the last one was
    never written. *)
Lemma log_P_trace_counterexample :
  exists r,
    ex_run 3 1 = Ok r
    /\ out_n_iter r = 2
    /\ length (out_log_P r) = 3
    /\ nth_error (out_log_P r) 2 = Some None.
Proof.
  eexists. split; [vm_compute; reflexivity|].
  repeat split; reflexivity.
Qed.

Lemma returned_p0_is_exp_of_gamma_witness :
  exists r,
    ex_run 2 1 = Ok r
    /\ out_p0 r = V2 (exp_fl (v_0 (hd vzero (out_prob_S r))))
                     (exp_fl (v_1 (hd vzero (out_prob_S r)))).
Proof.
  eexists. split; [vm_compute; reflexivity|].
  apply (@returned_p0_is_exp_of_gamma approx ex_counts ex_hist init_A
           (Fin 1) (Fin 0) (Fin (-1 # 2)) 2 1).
  vm_compute. reflexivity.
Defined.

Lemma no_iteration_when_cap_at_most_one_witness :
  exists dec,
    @viterbi approx vzero init_A
      (@emission approx (Fin (-1 # 2)) (Fin 1) (Fin 0) ex_counts ex_hist)
    = Ok dec
    /\ ex_run 1 1
       = Ok {| out_S := vt_S dec;
               out_prob_S := repeat vzero (length ex_counts);
               out_alphaa := Fin 1;
               out_betaa := Fin 0;
               out_mu := Fin (-1 # 2);
               out_A := init_A;
               out_B := @emission approx (Fin (-1 # 2)) (Fin 1) (Fin 0)
                          ex_counts ex_hist;
               out_p0 := V2 (exp_fl fl0) (exp_fl fl0);
               out_log_L := vt_log_L dec;
               out_log_P := repeat None 1;
               out_n_iter := 0 |}.
Proof.
  apply (@no_iteration_when_cap_at_most_one approx ex_counts ex_hist init_A
           (Fin 1) (Fin 0) (Fin (-1 # 2)) 1 1);
    [lia | reflexivity | simpl; lia].
Defined.

End RunExamples.

(** ** [newton_ralphson] *)

Section NewtonFacts.
Local Open Scope nat_scope.
Context {elem : Elementary}.

(** The [for] loop performs exactly [n_iter] updates; from the first
    update on, the parameter is the loop variable. *)
Lemma newton_for_iter g gprime n update param :
  newton_for (S n) g gprime update param
  = Nat.iter (S n) (newton_update g gprime) update.
Proof.
  revert update param. induction n as [|n IH]; intros update param.
  - reflexivity.
  - change (newton_for (S (S n)) g gprime update param)
      with (newton_for (S n) g gprime (newton_update g gprime update)
              (newton_update g gprime update)).
    rewrite IH. symmetry. apply (Nat.iter_succ_r (S n)).
Qed.

Lemma newton_for_zero g gprime update param :
  newton_for 0 g gprime update param = param.
Proof. reflexivity. Qed.

(** Integers as numbers: sums and products of integers are exact. *)
Lemma Qred_inject_Z z : Qred (inject_Z z) = inject_Z z.
Proof.
  unfold Qred, inject_Z.
  pose proof (Z.ggcd_gcd z 1) as Hg.
  pose proof (Z.ggcd_correct_divisors z 1) as Hd.
  destruct (Z.ggcd z 1) as (g & n' & d'). simpl in Hg, Hd.
  rewrite Z.gcd_1_r in Hg. subst g. destruct Hd as (Hn & Hd').
  rewrite Z.mul_1_l in Hn, Hd'. subst. reflexivity.
Qed.

Lemma of_Z_add a c : (of_Z a + of_Z c)%fl = of_Z (a + c).
Proof.
  unfold of_Z, fl_add. f_equal. rewrite <- (Qred_inject_Z (a + c)).
  apply Qred_complete. now rewrite inject_Z_plus.
Qed.

Lemma of_Z_mul a c : (of_Z a * of_Z c)%fl = of_Z (a * c).
Proof.
  unfold of_Z, fl_mul. f_equal. rewrite <- (Qred_inject_Z (a * c)).
  apply Qred_complete. now rewrite inject_Z_mult.
Qed.

Lemma sum_of_Z_from l : forall a,
  fold_left fl_add (map of_Z l) (of_Z a) = of_Z (a + History.zsum l).
Proof.
  induction l as [|x l IH]; intros a; cbn [map fold_left History.zsum fold_right].
  - now rewrite Z.add_0_r.
  - rewrite of_Z_add, IH. f_equal.
    change (fold_right Z.add 0%Z l) with (History.zsum l). lia.
Qed.

Lemma fl_sum_of_Z l : fl_sum (map of_Z l) = of_Z (History.zsum l).
Proof. unfold fl_sum. apply (sum_of_Z_from l 0). Qed.

(** A weight of 1 changes no term of a sum. *)
Lemma add_one_mul acc x : (acc + fl1 * x)%fl = (acc + x)%fl.
Proof.
  destruct x as [q| | |]; try reflexivity.
  destruct acc as [a| | |]; try reflexivity.
  unfold fl1, fl_mul, fl_add. f_equal. apply Qred_complete.
  rewrite (Qred_correct (1 * q)). ring.
Qed.

Lemma unit_weighted_sum (lam : list fl) : forall (cs : list Z) acc,
  length lam <= length cs ->
  fold_left fl_add (History.zip_with fl_mul (unit_weights cs) lam) acc
  = fold_left fl_add lam acc.
Proof.
  induction lam as [|x lam IH]; intros cs acc Hlen.
  - destruct cs; reflexivity.
  - destruct cs as [|c cs]; [simpl in Hlen; lia|].
    cbn [unit_weights map History.zip_with fold_left].
    rewrite add_one_mul. apply IH. simpl in Hlen. lia.
Qed.

Lemma map_zip_with {A B C D} (f : C -> D) (g : A -> B -> C) xs : forall ys,
  map f (History.zip_with g xs ys)
  = History.zip_with (fun x y => f (g x y)) xs ys.
Proof.
  induction xs as [|x xs IH]; intros [|y ys]; try reflexivity.
  cbn [History.zip_with map]. now rewrite IH.
Qed.

Lemma zip_with_map_2 {A B B' C} (f : A -> B' -> C) (g : B -> B') xs :
  forall ys,
  History.zip_with f xs (map g ys)
  = History.zip_with (fun x y => f x (g y)) xs ys.
Proof.
  induction xs as [|x xs IH]; intros [|y ys]; try reflexivity.
  cbn [History.zip_with map]. now rewrite IH.
Qed.

Lemma zip_with_map_1 {A A' B C} (f : A' -> B -> C) (g : A -> A') xs :
  forall ys,
  History.zip_with f (map g xs) ys
  = History.zip_with (fun x y => f (g x) y) xs ys.
Proof.
  induction xs as [|x xs IH]; intros [|y ys]; try reflexivity.
  cbn [History.zip_with map]. now rewrite IH.
Qed.

Lemma zip_with_diag {A C} (f : A -> A -> C) xs :
  History.zip_with f xs xs = map (fun x => f x x) xs.
Proof.
  induction xs as [|x xs IH]; [reflexivity|].
  cbn [History.zip_with map]. now rewrite IH.
Qed.

Lemma zip_with_ext {A B C} (f g : A -> B -> C) xs ys :
  (forall x y, f x y = g x y) ->
  History.zip_with f xs ys = History.zip_with g xs ys.
Proof.
  intros H. revert ys. induction xs as [|x xs IH]; intros [|y ys];
    try reflexivity.
  cbn [History.zip_with]. now rewrite H, IH.
Qed.

Lemma predictor_intensity m a b Zs hist :
  map np_exp (predictor m a b Zs hist) = intensity m a b Zs hist.
Proof. unfold predictor, intensity. apply map_zip_with. Qed.

Lemma intensity_length m a b (Zs : list fl) (hist : list Z) :
  length (intensity m a b Zs hist) = Nat.min (length Zs) (length hist).
Proof. unfold intensity. apply zip_with_length. Qed.

(** The functions of the three loops of the code are the weighted
    equations of the specification, with weights 1, [Z[k]] and
    [history[k]]. *)
Section Weights.
Variables (counts : list Z) (Zs : list fl) (hist : list Z).
Hypothesis HZ : length Zs = length counts.
Hypothesis Hh : length hist = length counts.

Lemma g_mu_weighted a b theta :
  g_mu counts Zs hist a b theta
  = weighted_count_gap (unit_weights counts) (intensity theta a b Zs hist)
      counts.
Proof.
  unfold g_mu, weighted_count_gap. rewrite predictor_intensity. f_equal.
  - unfold fl_sum. symmetry. apply unit_weighted_sum.
    rewrite intensity_length. lia.
  - unfold unit_weights. rewrite zip_with_map_2, zip_with_diag.
    rewrite <- fl_sum_of_Z. f_equal. apply map_ext.
    intros c. symmetry. change fl1 with (of_Z 1).
    rewrite of_Z_mul. now rewrite Z.mul_1_r.
Qed.

Lemma gprime_mu_weighted a b theta :
  gprime_mu Zs hist a b theta
  = weighted_count_slope (unit_weights counts) (intensity theta a b Zs hist).
Proof.
  unfold gprime_mu, weighted_count_slope. rewrite predictor_intensity.
  unfold unit_weights at 1. rewrite zip_with_map_1.
  unfold unit_weights. rewrite zip_with_map_2.
  change (fun (_ _ : Z) => (fl1 * fl1)%fl) with (fun (_ _ : Z) => fl1).
  rewrite zip_with_diag.
  unfold fl_sum. symmetry. apply (unit_weighted_sum _ counts).
  rewrite intensity_length. lia.
Qed.

Lemma g_alphaa_weighted m b theta :
  g_alphaa counts Zs hist m b theta
  = weighted_count_gap (state_weights Zs) (intensity m theta b Zs hist) counts.
Proof.
  unfold g_alphaa, weighted_count_gap, weighted_sum, state_weights.
  now rewrite predictor_intensity.
Qed.

Lemma gprime_alphaa_weighted m b theta :
  gprime_alphaa Zs hist m b theta
  = weighted_count_slope (state_weights Zs) (intensity m theta b Zs hist).
Proof.
  unfold gprime_alphaa, weighted_count_slope, weighted_sum, state_weights.
  now rewrite predictor_intensity.
Qed.

Lemma g_betaa_weighted m a theta :
  g_betaa counts Zs hist m a theta
  = weighted_count_gap (history_weights hist) (intensity m a theta Zs hist)
      counts.
Proof.
  unfold g_betaa, weighted_count_gap, weighted_sum, history_weights.
  rewrite predictor_intensity. f_equal.
  rewrite zip_with_map_2, <- fl_sum_of_Z, map_zip_with. f_equal.
  apply zip_with_ext. intros c h. symmetry. apply of_Z_mul.
Qed.

Lemma gprime_betaa_weighted m a theta :
  gprime_betaa Zs hist m a theta
  = weighted_count_slope (history_weights hist) (intensity m a theta Zs hist).
Proof.
  unfold gprime_betaa, weighted_count_slope, weighted_sum, history_weights.
  rewrite predictor_intensity. f_equal. f_equal.
  rewrite zip_with_map_1, zip_with_map_2, !zip_with_diag.
  rewrite map_map. apply map_ext. intros h. symmetry. apply of_Z_mul.
Qed.

End Weights.

Lemma iter_newton_ext g g' gp gp' n start :
  (forall theta, g theta = g' theta) ->
  (forall theta, gp theta = gp' theta) ->
  Nat.iter n (newton_update g gp) start
  = Nat.iter n (newton_update g' gp') start.
Proof.
  intros Hg Hgp. induction n as [|n IH]; [reflexivity|].
  rewrite !Nat.iter_succ, IH. unfold newton_update.
  now rewrite Hg, Hgp.
Qed.

(** C5 (amended).  On arrays of more than one bin, [newton_ralphson]
    with [n_iter >= 1] returns what the block-coordinate scheme of the
    specification describes: [mu] by [n_iter] Newton updates
    [theta <- theta - g(theta)/g'(theta)] on the count equation with unit
    weights, from [init_mu + 0.001] and with the previous [alphaa],
    [betaa]; then [alphaa] on the equation with weights [Z[k]], from
    [init_alphaa + 0.002] and with the new [mu]; then [betaa] on the
    equation with weights [history[k]], from [init_betaa + 0.003] and with
    the new [mu] and [alphaa]; no test stops a loop early.  With
    [n_iter = 0] no update is made and the three parameters are returned
    as [0.0]. *)
Theorem newton_ralphson_block_coordinate
    (bin_spike_count : list Z) (Zs : list fl) (bin_history_spike_count : list Z)
    (init_alphaa init_betaa init_mu : fl) (n_iter : nat) :
  2 <= length bin_spike_count ->
  length Zs = length bin_spike_count ->
  length bin_history_spike_count = length bin_spike_count ->
  newton_ralphson bin_spike_count Zs bin_history_spike_count
    init_alphaa init_betaa init_mu n_iter
  = Ok (match n_iter with
        | O => (fl0, fl0, fl0)
        | S _ =>
            block_coordinate_newton bin_spike_count Zs bin_history_spike_count
              init_alphaa init_betaa init_mu n_iter
        end).
Proof.
  intros Hn HZ Hh. unfold newton_ralphson.
  rewrite HZ, Hh, Nat.eqb_refl.
  destruct (Nat.ltb_spec 1 (length bin_spike_count)); [|lia].
  cbn [andb negb].
  destruct n_iter as [|n]; [reflexivity|].
  rewrite !newton_for_iter.
  change (Fin (1 # 100) * Fin (1 # 10))%fl with (Fin (1 # 1000)).
  change (Fin (1 # 100) * Fin (2 # 10))%fl with (Fin (1 # 500)).
  change (Fin (1 # 100) * Fin (3 # 10))%fl with (Fin (3 # 1000)).
  unfold block_coordinate_newton, solve_weighted.
  rewrite (iter_newton_ext _ _ _ _ (S n) (init_mu + Fin (1 # 1000))%fl
             (g_mu_weighted _ _ _ HZ Hh init_alphaa init_betaa)
             (gprime_mu_weighted _ _ _ HZ Hh init_alphaa init_betaa)).
  set (mu := Nat.iter (S n) _ (init_mu + Fin (1 # 1000))%fl).
  rewrite (iter_newton_ext _ _ _ _ (S n) (init_alphaa + Fin (1 # 500))%fl
             (g_alphaa_weighted bin_spike_count Zs bin_history_spike_count
                mu init_betaa)
             (gprime_alphaa_weighted Zs bin_history_spike_count mu init_betaa)).
  set (alphaa := Nat.iter (S n) _ (init_alphaa + Fin (1 # 500))%fl).
  rewrite (iter_newton_ext _ _ _ _ (S n) (init_betaa + Fin (3 # 1000))%fl
             (g_betaa_weighted bin_spike_count Zs bin_history_spike_count
                mu alphaa)
             (gprime_betaa_weighted Zs bin_history_spike_count mu alphaa)).
  reflexivity.
Qed.

End NewtonFacts.

Section NewtonExamples.
Import Standin.

Lemma newton_ralphson_block_coordinate_witness :
  @newton_ralphson approx ex_counts [Fin (1 # 4); Fin (3 # 4)] ex_hist
    (Fin 1) (Fin 0) (Fin (-1 # 2)) 2
  = Ok (@block_coordinate_newton approx ex_counts [Fin (1 # 4); Fin (3 # 4)]
          ex_hist (Fin 1) (Fin 0) (Fin (-1 # 2)) 2).
Proof.
  apply (@newton_ralphson_block_coordinate approx ex_counts
           [Fin (1 # 4); Fin (3 # 4)] ex_hist (Fin 1) (Fin 0) (Fin (-1 # 2)) 2);
    [simpl; lia | reflexivity | reflexivity].
Defined.

(** C5, counterexample.  With [n_iter = 0] the code returns [0.0] for the
    three parameters, not the starting points [previous value + offset]
    that zero updates of the described scheme leave. *)
Lemma newton_ralphson_block_coordinate_counterexample :
  @newton_ralphson approx ex_counts [Fin (1 # 4); Fin (3 # 4)] ex_hist
    (Fin 1) (Fin 0) (Fin (-1 # 2)) 0
  = Ok (fl0, fl0, fl0)
  /\ @block_coordinate_newton approx ex_counts [Fin (1 # 4); Fin (3 # 4)]
       ex_hist (Fin 1) (Fin 0) (Fin (-1 # 2)) 0
     = (Fin (501 # 500), Fin (3 # 1000), Fin (-499 # 1000)).
Proof. split; reflexivity. Qed.

End NewtonExamples.

(** ** The forward pass and its scaling test *)

Section ForwardFacts.
Local Open Scope nat_scope.
Context {elem : Elementary}.

(** The forward loop raises for the bin it is at, never for an earlier
    one. *)
Lemma forward_loop_error t k A prev Bs t' k' :
  forward_loop t k A prev Bs = Err (AlphaScalingError t' k') ->
  t' = t /\ k <= k'.
Proof.
  revert k prev. induction Bs as [|Bk Bs IH]; intros k prev; simpl;
    [discriminate|].
  destruct (_ >? _)%fl.
  - destruct (forward_loop t (S k) A _ Bs) as [[al Cs]|e] eqn:E; simpl;
      [discriminate|].
    intros [= ->]. apply IH in E. destruct E. split; [assumption | lia].
  - intros [= <- <-]. split; [reflexivity | lia].
Qed.

Lemma forward_loop_other_error t k A prev Bs e :
  forward_loop t k A prev Bs = Err e -> exists k', e = AlphaScalingError t k'.
Proof.
  revert k prev. induction Bs as [|Bk Bs IH]; intros k prev; simpl;
    [discriminate|].
  destruct (_ >? _)%fl.
  - destruct (forward_loop t (S k) A _ Bs) as [[al Cs]|e'] eqn:E; simpl;
      [discriminate|].
    intros [= ->]. now apply IH in E.
  - intros [= <-]. now exists k.
Qed.

Lemma zero_times (a : Q) : (Fin a * fl0)%fl = fl0.
Proof.
  unfold fl0, fl_mul. f_equal.
  rewrite (Qred_complete (a * 0) 0) by ring. reflexivity.
Qed.

Lemma nan_poisons_column A (Bk : vec2) :
  vsum (vmul (vec_mat (V2 NaN NaN) A) Bk) = NaN.
Proof. reflexivity. Qed.

(** C2.  Column 0 is scaled without a test.  When both entries of
    [B[:, 0]] are zero, so that [C[0] = 0]: with a single bin the forward
    pass returns, with [alpha[:, 0] = nan]; with more bins it carries the
    [nan] into bin 1 and raises there, naming bin 1.  No forward pass ever
    raises for bin 0. *)
Theorem forward_does_not_test_bin_0 (t : nat) (a b : Q) (A : mat2) :
  vsum (vmul (V2 (Fin a) (Fin b)) vzero) = fl0
  /\ forward t (V2 (Fin a) (Fin b)) A [vzero] = Ok ([V2 NaN NaN], [fl0])
  /\ (forall B1 Bs,
        forward t (V2 (Fin a) (Fin b)) A (vzero :: B1 :: Bs)
        = Err (AlphaScalingError t 1))
  /\ (forall p0 B t' k,
        forward t p0 A B = Err (AlphaScalingError t' k) -> t' = t /\ 1 <= k).
Proof.
  assert (HC : vsum (vmul (V2 (Fin a) (Fin b)) vzero) = fl0).
  { unfold vsum, vmul, vzero. cbn [v_0 v_1]. rewrite !zero_times. reflexivity. }
  assert (Ha : vdiv (vmul (V2 (Fin a) (Fin b)) vzero) fl0 = V2 NaN NaN).
  { unfold vdiv, vmul, vzero. cbn [v_0 v_1]. rewrite !zero_times. reflexivity. }
  split; [exact HC|]. split; [|split].
  - unfold forward. rewrite HC, Ha. reflexivity.
  - intros B1 Bs. unfold forward. rewrite HC, Ha.
    cbn [forward_loop]. rewrite nan_poisons_column. reflexivity.
  - intros p0 B t' k. unfold forward. destruct B as [|B0 Bs]; [discriminate|].
    destruct (forward_loop t 1 A _ Bs) as [[al Cs]|e] eqn:E; simpl;
      [discriminate|].
    intros [= ->]. now apply forward_loop_error in E.
Qed.

End ForwardFacts.

(** ** The Viterbi decoder *)

Section ViterbiFacts.
Local Open Scope nat_scope.
Context {elem : Elementary}.

Lemma viterbi_loop_length logA prev Bs :
  length (viterbi_loop logA prev Bs) = length Bs.
Proof.
  revert prev. induction Bs as [|Bt Bs IH]; intros prev; simpl;
    [reflexivity | now rewrite IH].
Qed.

(** Step [k] of the loop starts from the column computed by step [k-1]. *)
Lemma viterbi_loop_nth logA Bs : forall prev k,
  k < length Bs ->
  nth k (viterbi_loop logA prev Bs) (vzero, (0, 0))
  = viterbi_step logA
      (nth k (prev :: map fst (viterbi_loop logA prev Bs)) vzero)
      (nth k Bs vzero).
Proof.
  induction Bs as [|Bt Bs IH]; intros prev k Hk; simpl in Hk; [lia|].
  destruct k as [|k]; [reflexivity|].
  cbn [viterbi_loop]. cbn [nth map]. apply IH. lia.
Qed.

Lemma backtrack_length psis final :
  length (backtrack psis final) = S (length psis).
Proof. induction psis as [|p psis IH]; simpl; [reflexivity | now rewrite IH]. Qed.

Lemma backtrack_last psis final :
  nth (length psis) (backtrack psis final) 0 = final.
Proof. induction psis as [|p psis IH]; simpl; [reflexivity | exact IH]. Qed.

Lemma backtrack_last_at psis final n :
  n = length psis -> nth n (backtrack psis final) 0 = final.
Proof. intros ->. apply backtrack_last. Qed.

Lemma backtrack_nth psis final : forall k,
  k < length psis ->
  nth k (backtrack psis final) 0
  = psi_get (nth k psis (0, 0)) (nth (S k) (backtrack psis final) 0).
Proof.
  induction psis as [|p psis IH]; intros k Hk; simpl in Hk; [lia|].
  destruct k as [|k].
  - cbn [backtrack nth]. f_equal.
    destruct (backtrack psis final); reflexivity.
  - cbn [backtrack]. cbn [nth]. apply IH. lia.
Qed.

Lemma last_nth {T} (l : list T) d : last l d = nth (length l - 1) l d.
Proof.
  induction l as [|x l IH]; [reflexivity|].
  destruct l as [|y l]; [reflexivity|].
  change (last (x :: y :: l) d) with (last (y :: l) d). rewrite IH.
  simpl. now rewrite Nat.sub_0_r.
Qed.

(** The arrays of the decoder, entry by entry, in terms of the
    functions of the code. *)
Lemma viterbi_unfold (p0 : vec2) (A : mat2) (B : table) :
  1 <= length B ->
  exists dec,
    viterbi p0 A B = Ok dec
    /\ let n := length B in
       let lg := fun x => np_log (x + EPS)%fl in
       let logA := mmap lg A in
       let logB := fun k => vmap lg (nth k B vzero) in
       let delta := fun k => nth k (vt_delta dec) vzero in
       let psi := fun k => nth k (vt_psi dec) (0, 0) in
       let path := fun k => nth k (vt_S dec) 0 in
       length (vt_delta dec) = n /\ length (vt_psi dec) = n
       /\ length (vt_S dec) = n
       /\ delta 0 = vadd (vmap lg p0) (logB 0)
       /\ (forall k, 1 <= k -> k < n ->
             let t00 := (v_0 (delta (k - 1)%nat) + m_00 logA)%fl in
             let t01 := (v_1 (delta (k - 1)%nat) + m_10 logA)%fl in
             let t10 := (v_0 (delta (k - 1)%nat) + m_01 logA)%fl in
             let t11 := (v_1 (delta (k - 1)%nat) + m_11 logA)%fl in
             delta k = V2 (max2 t00 t01 + v_0 (logB k))%fl
                          (max2 t10 t11 + v_1 (logB k))%fl
             /\ psi k = (argmax2 t00 t01, argmax2 t10 t11))
       /\ path (n - 1) = argmax2 (v_0 (delta (n - 1))) (v_1 (delta (n - 1)))
       /\ (forall k, k + 1 < n ->
             path k = psi_get (psi (k + 1)) (path (k + 1)))
       /\ vt_log_L dec
          = (vget (delta (n - 1)%nat) (path (n - 1)%nat) / of_Z (Z.of_nat n))%fl.
Proof.
  intros Hn. unfold viterbi.
  destruct B as [|B0 Bs]; [simpl in Hn; lia|].
  cbn [map]. eexists. split; [reflexivity|].
  cbv zeta. cbn [vt_delta vt_psi vt_S vt_log_L].
  set (lg := fun x => np_log (x + EPS)%fl).
  set (logA := mmap lg A).
  set (delta0 := vadd (vmap lg p0) (vmap lg B0)).
  set (logBs := map (vmap lg) Bs).
  set (steps := viterbi_loop logA delta0 logBs).
  assert (Hsteps : length steps = length Bs).
  { unfold steps. rewrite viterbi_loop_length. unfold logBs.
    apply length_map. }
  assert (HlogB : forall k, k < length Bs ->
            nth k logBs vzero = vmap lg (nth (S k) (B0 :: Bs) vzero)).
  { intros k Hk. unfold logBs. cbn [nth].
    apply (map_nth_lt (vmap lg) Bs k vzero vzero Hk). }
  assert (Hlast : last (delta0 :: map fst steps) vzero
                  = nth (length Bs) (delta0 :: map fst steps) vzero).
  { rewrite last_nth. cbn [length]. rewrite length_map, Hsteps.
    now rewrite Nat.sub_succ, Nat.sub_0_r. }
  cbn [length]. rewrite Nat.sub_succ, Nat.sub_0_r.
  split; [now rewrite length_map, Hsteps|].
  split; [now rewrite length_map, Hsteps|].
  split; [now rewrite backtrack_length, length_map, Hsteps|].
  split; [reflexivity|].
  split.
  { intros k Hk1 Hk. destruct k as [|k]; [lia|].
    rewrite Nat.sub_succ, Nat.sub_0_r. cbn [nth].
    assert (Hk' : k < length logBs).
    { unfold logBs. rewrite length_map. lia. }
    pose proof (viterbi_loop_nth logA logBs delta0 k Hk') as Hstep.
    fold steps in Hstep. rewrite HlogB in Hstep by lia.
    split.
    - rewrite (map_nth_lt fst steps k (vzero, (0, 0)) vzero) by lia.
      rewrite Hstep. reflexivity.
    - rewrite (map_nth_lt snd steps k (vzero, (0, 0)) (0, 0)) by lia.
      rewrite Hstep. reflexivity. }
  split.
  { rewrite Hlast. apply backtrack_last_at.
    now rewrite length_map, Hsteps. }
  split.
  { intros k Hk. replace (k + 1) with (S k) by lia. cbn [nth].
    apply backtrack_nth. rewrite length_map, Hsteps. lia. }
  rewrite Hlast. f_equal. f_equal.
  symmetry. apply backtrack_last_at. now rewrite length_map, Hsteps.
Qed.

Lemma gtb_irrefl x : (x >? x)%fl = false.
Proof.
  destruct x as [q| | |]; try reflexivity.
  unfold fl_gtb. now rewrite (proj1 (Qeq_alt q q) (Qeq_refl q)).
Qed.

Lemma gtb_asym x y : (y >? x)%fl = true -> (x >? y)%fl = false.
Proof.
  destruct x as [p| | |], y as [q| | |]; try reflexivity; try discriminate.
  unfold fl_gtb. rewrite <- (Qcompare_antisym q p).
  destruct (q ?= p)%Q; try discriminate. reflexivity.
Qed.

(** [np.argmax] over two candidates is the lowest index of a maximum,
    and [np.max] is the candidate it names. *)
Lemma argmax2_lowest a b : lowest_argmax a b (argmax2 a b).
Proof.
  unfold lowest_argmax, argmax2, is_state.
  destruct (fl_isnan a) eqn:Ea.
  { repeat split; try (now left); try discriminate; reflexivity. }
  destruct (fl_isnan b) eqn:Eb.
  { repeat split; try (now right); try discriminate; reflexivity. }
  destruct (b >? a)%fl eqn:E.
  - split; [now right|]. split; [|split; [discriminate | discriminate]].
    intros _ _. cbv zeta. split; [now apply gtb_asym|].
    split; [apply gtb_irrefl | reflexivity].
  - split; [now left|]. split; [|split; [discriminate | discriminate]].
    intros _ _. cbv zeta. split; [apply gtb_irrefl|].
    split; [exact E | discriminate].
Qed.

Lemma max2_argmax2 a b :
  max2 a b = match argmax2 a b with O => a | S _ => b end.
Proof.
  unfold max2, argmax2.
  destruct (fl_isnan a); [reflexivity|].
  destruct (fl_isnan b); [reflexivity|].
  destruct (b >? a)%fl; reflexivity.
Qed.

(** An argmax over two equal numbers is index 0. *)
Lemma lowest_argmax_tie c0 c1 i :
  lowest_argmax c0 c1 i -> fl_isnan c0 = false -> c0 = c1 -> i = 0.
Proof.
  intros (Hs & Hmax & _ & _) Hnan <-.
  destruct Hs as [->| ->]; [reflexivity|].
  destruct (Hmax Hnan Hnan) as (_ & _ & H).
  specialize (H eq_refl). rewrite gtb_irrefl in H. discriminate.
Qed.

(** C6.  The decoder works on logarithms: [delta[s, 0]] is
    [log(p0[s] + EPS) + logB[s, 0]]; for [k = 1 .. n-1] and each state
    [s], [psi[s, k]] is the predecessor [i] that maximizes
    [delta[i, k-1] + logA[i, s]], the lowest one on a tie, and
    [delta[s, k]] is that maximum plus [logB[s, k]]; the path ends in the
    argmax of [delta[:, n-1]], the lowest state on a tie, and goes back
    through [psi], [S[k] = psi[S[k+1], k+1]]; the reported log-likelihood
    is [delta[S[n-1], n-1] / n]. *)
Theorem viterbi_log_domain (p0 : vec2) (A : mat2) (B : table) :
  1 <= length B ->
  exists dec,
    viterbi p0 A B = Ok dec
    /\ let n := length B in
       let lg := fun x => np_log (x + EPS)%fl in
       let ent := fun (v : vec2) (s : nat) =>
                    match s with O => v_0 v | S _ => v_1 v end in
       let logA := fun (i s : nat) =>
                     lg match i, s with
                        | O, O => m_00 A
                        | O, S _ => m_01 A
                        | S _, O => m_10 A
                        | S _, S _ => m_11 A
                        end in
       let logB := fun (s k : nat) => lg (ent (nth k B vzero) s) in
       let delta := fun (s k : nat) => ent (nth k (vt_delta dec) vzero) s in
       let psi := fun (s k : nat) =>
                    match s with
                    | O => fst (nth k (vt_psi dec) (0, 0))
                    | S _ => snd (nth k (vt_psi dec) (0, 0))
                    end in
       let path := fun k => nth k (vt_S dec) 0 in
       length (vt_delta dec) = n /\ length (vt_psi dec) = n
       /\ length (vt_S dec) = n
       /\ (forall s, s < 2 -> delta s 0 = (lg (ent p0 s) + logB s 0)%fl)
       /\ (forall k s, 1 <= k -> k < n -> s < 2 ->
             let cand := fun i => (delta i (k - 1)%nat + logA i s)%fl in
             lowest_argmax (cand 0) (cand 1) (psi s k)
             /\ delta s k = (cand (psi s k) + logB s k)%fl
             /\ (fl_isnan (cand 0) = false -> cand 0 = cand 1 ->
                   psi s k = 0))
       /\ lowest_argmax (delta 0 (n - 1)) (delta 1 (n - 1)) (path (n - 1))
       /\ (fl_isnan (delta 0 (n - 1)) = false ->
             delta 0 (n - 1) = delta 1 (n - 1) -> path (n - 1) = 0)
       /\ (forall k, k + 1 < n -> path k = psi (path (k + 1)) (k + 1))
       /\ vt_log_L dec
          = (delta (path (n - 1)%nat) (n - 1)%nat / of_Z (Z.of_nat n))%fl.
Proof.
  intros Hn. destruct (viterbi_unfold p0 A B Hn) as (dec & Hdec & H).
  exists dec. split; [exact Hdec|].
  cbv zeta in H |- *.
  destruct H as (Hld & Hlp & HlS & H0 & Hstep & Hfin & Hback & HL).
  split; [exact Hld|]. split; [exact Hlp|]. split; [exact HlS|].
  split.
  { intros s Hs. rewrite H0.
    destruct s as [|[|s]]; [reflexivity | reflexivity | lia]. }
  split.
  { intros k s Hk1 Hk Hs. destruct (Hstep k Hk1 Hk) as (Hd & Hp).
    rewrite Hd, Hp. cbn [fst snd v_0 v_1 mmap m_00 m_01 m_10 m_11 vmap].
    destruct s as [|[|s]]; [| |lia].
    - set (c0 := (v_0 (nth (k - 1) (vt_delta dec) vzero)
                  + np_log (m_00 A + EPS))%fl).
      set (c1 := (v_1 (nth (k - 1) (vt_delta dec) vzero)
                  + np_log (m_10 A + EPS))%fl).
      rewrite max2_argmax2.
      pose proof (argmax2_lowest c0 c1) as Ham.
      destruct (argmax2 c0 c1) as [|j];
        (split; [exact Ham|]; split; [reflexivity|]; intros Hnan Heq;
         exact (lowest_argmax_tie _ _ _ Ham Hnan Heq)).
    - set (c0 := (v_0 (nth (k - 1) (vt_delta dec) vzero)
                  + np_log (m_01 A + EPS))%fl).
      set (c1 := (v_1 (nth (k - 1) (vt_delta dec) vzero)
                  + np_log (m_11 A + EPS))%fl).
      rewrite max2_argmax2.
      pose proof (argmax2_lowest c0 c1) as Ham.
      destruct (argmax2 c0 c1) as [|j];
        (split; [exact Ham|]; split; [reflexivity|]; intros Hnan Heq;
         exact (lowest_argmax_tie _ _ _ Ham Hnan Heq)). }
  assert (Ham : lowest_argmax
                  (v_0 (nth (length B - 1) (vt_delta dec) vzero))
                  (v_1 (nth (length B - 1) (vt_delta dec) vzero))
                  (nth (length B - 1) (vt_S dec) 0)).
  { rewrite Hfin. apply argmax2_lowest. }
  split; [exact Ham|].
  split.
  { intros Hnan Heq. exact (lowest_argmax_tie _ _ _ Ham Hnan Heq). }
  split.
  { intros k Hk. rewrite (Hback k Hk). unfold psi_get.
    now destruct (nth (k + 1) (vt_S dec) 0). }
  rewrite HL. unfold vget.
  now destruct (nth (length B - 1) (vt_S dec) 0).
Qed.

End ViterbiFacts.

Section ViterbiExamples.
Import Standin.
Local Open Scope nat_scope.

Lemma viterbi_log_domain_witness :
  exists dec,
    @viterbi approx (V2 (Fin (1 # 4)) (Fin (3 # 4))) init_A
      [V2 (Fin (1 # 2)) (Fin (1 # 8)); V2 (Fin (1 # 8)) (Fin (1 # 2))] = Ok dec
    /\ vt_S dec = [1; 1].
Proof.
  destruct (@viterbi_log_domain approx (V2 (Fin (1 # 4)) (Fin (3 # 4))) init_A
              [V2 (Fin (1 # 2)) (Fin (1 # 8)); V2 (Fin (1 # 8)) (Fin (1 # 2))]
              ltac:(simpl; lia)) as (dec & Hdec & _).
  exists dec. split; [exact Hdec|].
  vm_compute in Hdec. injection Hdec as <-. reflexivity.
Defined.

End ViterbiExamples.

(** ** Shapes of the E-step arrays *)

Section ShapeFacts.
Local Open Scope nat_scope.
Context {elem : Elementary}.

Lemma forward_loop_length t A Bs : forall k prev al Cs,
  forward_loop t k A prev Bs = Ok (al, Cs) ->
  length al = length Bs /\ length Cs = length Bs.
Proof.
  induction Bs as [|Bk Bs IH]; intros k prev al Cs; simpl.
  - intros [= <- <-]. now split.
  - destruct (_ >? _)%fl; [|discriminate].
    destruct (forward_loop t (S k) A _ Bs) as [[al' Cs']|e] eqn:E; simpl;
      [|discriminate].
    intros [= <- <-]. apply IH in E. simpl. destruct E. split; congruence.
Qed.

Lemma forward_length t p0 A B alpha C :
  forward t p0 A B = Ok (alpha, C) ->
  1 <= length B /\ length alpha = length B /\ length C = length B.
Proof.
  unfold forward. destruct B as [|B0 Bs]; [discriminate|].
  destruct (forward_loop t 1 A _ Bs) as [[al Cs]|e] eqn:E; simpl;
    [|discriminate].
  intros [= <- <-]. apply forward_loop_length in E. simpl. destruct E.
  repeat split; [lia | congruence | congruence].
Qed.

Lemma backward_length A B : forall C,
  length (backward A B C) = Nat.min (length B) (length C).
Proof.
  induction B as [|B0 B IH]; intros [|C0 C]; try reflexivity.
  cbn [backward]. destruct B as [|B1 B].
  - reflexivity.
  - cbn [length]. rewrite IH. reflexivity.
Qed.

Lemma pairwise_length t A alpha : forall k beta B zs,
  pairwise t k A alpha beta B = Ok zs ->
  length zs = Nat.min (length alpha) (Nat.min (length beta) (length B)).
Proof.
  induction alpha as [|ak alpha IH]; intros k beta B zs.
  - simpl. intros [= <-]. reflexivity.
  - destruct beta as [|b1 beta]; [simpl; intros [= <-]; reflexivity|].
    destruct B as [|B1 B]; [simpl; intros [= <-]; reflexivity|].
    cbn [pairwise]. cbv zeta. destruct (_ >? _)%fl; [|discriminate].
    destruct (pairwise t (S k) A alpha beta B) as [zs'|e] eqn:E; simpl;
      [|discriminate].
    intros [= <-]. apply IH in E. simpl. now rewrite E.
Qed.

Lemma length_tl {T} (l : list T) : length (tl l) = length l - 1.
Proof. destruct l; simpl; lia. Qed.

(** An E-step writes the first [nbins - 1] blocks of [zeta] and columns
    of [gamma], each column being the row sums of its block. *)
Lemma e_step_rest_shape t A B alpha C es :
  length alpha = length B -> length C = length B ->
  e_step_rest t A B alpha C = Ok es ->
  length (es_zeta es) = length B - 1
  /\ es_gamma es = map row_sums (es_zeta es).
Proof.
  intros Ha HC. unfold e_step_rest.
  destruct (pairwise _ _ _ _ _ _) as [zs|e] eqn:E; simpl; [|discriminate].
  intros [= <-]. cbn [es_zeta es_gamma]. split; [|reflexivity].
  apply pairwise_length in E.
  rewrite !length_tl, backward_length, Ha, HC in E. lia.
Qed.

Lemma overwrite_length {T} (new old : list T) :
  length new <= length old -> length (overwrite new old) = length old.
Proof.
  intros H. unfold overwrite. rewrite length_app, length_skipn. lia.
Qed.

Lemma overwrite_nth_old {T} (new old : list T) k d :
  length new <= k -> nth k (overwrite new old) d = nth k old d.
Proof.
  intros H. unfold overwrite. rewrite app_nth2 by lia.
  rewrite nth_skipn. f_equal. lia.
Qed.

Lemma overwrite_all_but_last {T} (new old : list T) d :
  S (length new) = length old ->
  overwrite new old = new ++ [nth (length new) old d].
Proof.
  intros H. unfold overwrite. f_equal.
  assert (Hl : length (skipn (length new) old) = 1)
    by (rewrite length_skipn; lia).
  destruct (skipn (length new) old) as [|x [|y l]] eqn:E; simpl in Hl;
    try lia.
  f_equal. rewrite <- (Nat.add_0_r (length new)) at 1.
  rewrite <- nth_skipn, E. reflexivity.
Qed.

End ShapeFacts.

(** ** The last column of [gamma] *)

Section LastColumnFacts.
Local Open Scope nat_scope.
Context {elem : Elementary}.
Variables (bin_spike_count bin_history_spike_count : list Z).
Variable n_iter_newton_ralphson : nat.
Hypothesis same_length :
  length bin_spike_count = length bin_history_spike_count.

Local Notation nbins := (length bin_spike_count).
Local Notation shape_inv := (shape_inv (length bin_spike_count)).

Lemma shape_inv_init init_A init_alphaa init_betaa init_mu N :
  shape_inv (init_state bin_spike_count bin_history_spike_count
               init_A init_alphaa init_betaa init_mu N).
Proof.
  unfold shape_inv, init_state. cbn [st_B st_gamma st_zeta].
  rewrite emission_length, !repeat_length, <- same_length.
  rewrite Nat.min_id. repeat split.
  - destruct nbins; [reflexivity|]. apply nth_repeat_lt. lia.
  - destruct nbins; [reflexivity|]. apply nth_repeat_lt. lia.
Qed.

Lemma shape_inv_step st st' :
  shape_inv st ->
  em_iteration bin_spike_count bin_history_spike_count
    n_iter_newton_ralphson st = Ok st' ->
  shape_inv st'.
Proof.
  intros (HB & Hg & Hz & Hgl & Hzl) Hi.
  apply em_iteration_inv in Hi.
  destruct Hi as (alpha & C & lp & es & a & b & m & Hf & _ & He & _ & ->).
  apply forward_length in Hf. destruct Hf as (H1 & Hal & HC).
  destruct (e_step_rest_shape _ _ _ _ _ _ Hal HC He) as (Hzs & Hgs).
  assert (Hgs' : length (es_gamma es) = nbins - 1).
  { rewrite Hgs, length_map, Hzs, HB. reflexivity. }
  rewrite HB in Hzs.
  unfold shape_inv. cbn [st_B st_gamma st_zeta].
  rewrite emission_length, <- same_length.
  rewrite Nat.min_id, !overwrite_length by lia.
  rewrite !overwrite_nth_old by lia. repeat split; assumption.
Qed.

Lemma shape_inv_run init_A init_alphaa init_betaa init_mu N r :
  _run_hmmem bin_spike_count bin_history_spike_count
    init_A init_alphaa init_betaa init_mu N n_iter_newton_ralphson = Ok r ->
  length (out_prob_S r) = nbins
  /\ nth (nbins - 1) (out_prob_S r) vzero = vzero.
Proof.
  intros H. apply run_hmmem_inv in H.
  destruct H as (_ & st & dec & Hl & _ & ->). cbn [out_prob_S].
  destruct (em_loop_inv bin_spike_count bin_history_spike_count
              n_iter_newton_ralphson shape_inv
              (fun s s' Hs _ Hi => shape_inv_step s s' Hs Hi)
              _ _ _ (shape_inv_init init_A init_alphaa init_betaa init_mu N) Hl)
    as ((_ & Hg & _ & Hgl & _) & _).
  split; assumption.
Qed.

End LastColumnFacts.

Section LastColumnClaim.
Local Open Scope nat_scope.
Context {elem : Elementary}.

Lemma vzero_not_sums_to_one : ~ sums_to_one vzero.
Proof.
  intros (a & b & Ha & Hb & Hab).
  pose proof (is_val_unique _ _ _ Ha (is_val_Fin 0)) as Ea.
  pose proof (is_val_unique _ _ _ Hb (is_val_Fin 0)) as Eb.
  rewrite Ea, Eb in Hab. discriminate Hab.
Qed.

(** C3.  No E-step and no M-step writes the last column of [gamma]: in
    every run that returns, column [nbins - 1] of the returned [prob_S]
    is [(0, 0)], which does not sum to one. *)
Theorem prob_S_last_column_zero
    counts hist init_A init_alphaa init_betaa init_mu N nr r :
  _run_hmmem counts hist init_A init_alphaa init_betaa init_mu N nr = Ok r ->
  length (out_prob_S r) = length counts
  /\ nth (length counts - 1) (out_prob_S r) vzero = vzero
  /\ ~ sums_to_one (nth (length counts - 1) (out_prob_S r) vzero).
Proof.
  intros H.
  assert (Hlen : length counts = length hist)
    by (apply run_hmmem_inv in H; tauto).
  destruct (shape_inv_run counts hist nr Hlen _ _ _ _ _ _ H) as (H1 & H2).
  split; [exact H1|]. split; [exact H2|].
  rewrite H2. exact vzero_not_sums_to_one.
Qed.

End LastColumnClaim.

Section LastColumnExamples.
Import Standin.
Local Open Scope nat_scope.

Lemma prob_S_last_column_zero_witness :
  exists r,
    ex_run 3 1 = Ok r
    /\ length (out_prob_S r) = length ex_counts
    /\ nth (length ex_counts - 1) (out_prob_S r) vzero = vzero
    /\ ~ sums_to_one (nth (length ex_counts - 1) (out_prob_S r) vzero).
Proof.
  eexists. split; [vm_compute; reflexivity|].
  apply (@prob_S_last_column_zero approx ex_counts ex_hist init_A
           (Fin 1) (Fin 0) (Fin (-1 # 2)) 3 1).
  vm_compute. reflexivity.
Defined.

End LastColumnExamples.

(** ** The M-step update of the transition matrix *)

Section MStepFacts.
Local Open Scope Q_scope.

(** The sums over the bins: entry by entry for [zeta], and for [gamma]
    the row totals of the same blocks. *)
Lemma occupancy_sums (zs : list mat2) :
  Forall block_normalized zs ->
  exists a b c d,
    is_val (m_00 (blocks_sum (zs ++ [mzero]))) a
    /\ is_val (m_01 (blocks_sum (zs ++ [mzero]))) b
    /\ is_val (m_10 (blocks_sum (zs ++ [mzero]))) c
    /\ is_val (m_11 (blocks_sum (zs ++ [mzero]))) d
    /\ is_val (v_0 (table_sum (map row_sums zs ++ [vzero]))) (a + b)
    /\ is_val (v_1 (table_sum (map row_sums zs ++ [vzero]))) (c + d)
    /\ 0 <= a /\ 0 <= b /\ 0 <= c /\ 0 <= d.
Proof.
  induction 1 as [|z zs Hz _ IH].
  - exists 0, 0, 0, 0. cbn.
    repeat split; try apply Qle_refl;
      (eexists; split; [reflexivity | reflexivity]).
  - destruct IH as (a & b & c & d & Ha & Hb & Hc & Hd & Hab & Hcd
                    & ? & ? & ? & ?).
    destruct Hz as (za & zb & zc & zd & Hza & Hzb & Hzc & Hzd
                    & ? & ? & ? & ? & _).
    exists (za + a), (zb + b), (zc + c), (zd + d).
    cbn [app map blocks_sum table_sum fold_right].
    fold (blocks_sum (zs ++ [mzero])).
    fold (table_sum (map row_sums zs ++ [vzero])).
    unfold madd, vadd, row_sums. cbn [m_00 m_01 m_10 m_11 v_0 v_1].
    split; [now apply val_add|]. split; [now apply val_add|].
    split; [now apply val_add|]. split; [now apply val_add|].
    split.
    { eapply is_val_eq; [apply val_add; [apply val_add|]; eassumption|].
      ring. }
    split.
    { eapply is_val_eq; [apply val_add; [apply val_add|]; eassumption|].
      ring. }
    split; [lra|]. split; [lra|]. split; lra.
Qed.

Lemma ratio_in_unit x s a t :
  is_val x a -> is_val s t -> 0 <= a -> a <= t -> 0 < t ->
  in_unit (x / s)%fl.
Proof.
  intros Hx Hs Ha Hat Ht. exists (a / t). split.
  - apply val_div; try assumption. intros E. rewrite E in Ht.
    now apply Qlt_irrefl in Ht.
  - split.
    + apply Qle_shift_div_l; [assumption|]. lra.
    + apply Qle_shift_div_r; [assumption|]. lra.
Qed.

Lemma ratios_sum_to_one x y s a b t :
  is_val x a -> is_val y b -> is_val s t -> t == a + b -> 0 < t ->
  sums_to_one (V2 (x / s)%fl (y / s)%fl).
Proof.
  intros Hx Hy Hs Hab Ht.
  assert (Hne : ~ t == 0) by (intros E; rewrite E in Ht; now apply Qlt_irrefl in Ht).
  exists (a / t), (b / t). cbn [v_0 v_1].
  split; [now apply val_div|]. split; [now apply val_div|].
  rewrite Hab in *. field. exact Hne.
Qed.

(** C4 (amended).  When the blocks of [zeta] written by the E-step are
    normalized, [gamma] holds their row sums, the last block and column
    are the zeros they were created with, and each state has a positive
    total occupancy [sum_k gamma[i, k]], the matrix [A] of the M-step is
    row-stochastic: both rows sum to 1 and the four entries lie in
    [[0, 1]]. *)
Theorem update_A_row_stochastic (zs : list mat2) :
  Forall block_normalized zs ->
  positive (v_0 (table_sum (map row_sums zs ++ [vzero]))) ->
  positive (v_1 (table_sum (map row_sums zs ++ [vzero]))) ->
  row_stochastic (update_A (zs ++ [mzero]) (map row_sums zs ++ [vzero])).
Proof.
  intros Hz H0 H1.
  destruct (occupancy_sums zs Hz)
    as (a & b & c & d & Ha & Hb & Hc & Hd & Hab & Hcd & ? & ? & ? & ?).
  destruct (positive_is_val _ H0) as (s0 & Hs0 & Hs0pos).
  destruct (positive_is_val _ H1) as (s1 & Hs1 & Hs1pos).
  pose proof (is_val_unique _ _ _ Hs0 Hab) as E0.
  pose proof (is_val_unique _ _ _ Hs1 Hcd) as E1.
  unfold row_stochastic, update_A. cbn [m_00 m_01 m_10 m_11].
  split; [apply (ratios_sum_to_one _ _ _ a b s0); assumption|].
  split; [apply (ratios_sum_to_one _ _ _ c d s1); assumption|].
  split; [apply (ratio_in_unit _ _ a s0); try assumption; lra|].
  split; [apply (ratio_in_unit _ _ b s0); try assumption; lra|].
  split; [apply (ratio_in_unit _ _ c s1); try assumption; lra|].
  apply (ratio_in_unit _ _ d s1); try assumption; lra.
Qed.

Lemma nan_row_not_stochastic a b : ~ row_stochastic (M2 a b NaN NaN).
Proof.
  intros (_ & (x & y & (p & E & _) & _) & _). discriminate E.
Qed.

End MStepFacts.

Section MStepExamples.
Import Standin.

Lemma update_A_row_stochastic_witness :
  row_stochastic
    (update_A ([M2 (Fin (1 # 2)) (Fin (1 # 4)) (Fin (1 # 8)) (Fin (1 # 8))]
               ++ [mzero])
              (map row_sums
                 [M2 (Fin (1 # 2)) (Fin (1 # 4)) (Fin (1 # 8)) (Fin (1 # 8))]
               ++ [vzero])).
Proof.
  apply update_A_row_stochastic.
  - constructor; [|constructor].
    exists (1 # 2), (1 # 4), (1 # 8), (1 # 8).
    repeat split; try apply is_val_Fin; try discriminate; reflexivity.
  - eexists. split; [vm_compute; reflexivity | reflexivity].
  - eexists. split; [vm_compute; reflexivity | reflexivity].
Defined.

(** C4, counterexample.  An E-step in which state 1 has likelihood zero
    in both bins returns one normalized block, [[1, 0], [0, 0]], with
    [gamma] its row sums.  State 1 then has total occupancy 0 and the
    M-step divides [0 / 0]: row 1 of [A] is [nan], not a row that sums
    to 1. *)
Lemma update_A_row_stochastic_counterexample :
  exists es,
    @e_step approx 0 (V2 (Fin (1 # 2)) (Fin (1 # 2))) init_A
      [V2 (Fin 1) (Fin 0); V2 (Fin 1) (Fin 0)] = Ok es
    /\ Forall block_normalized (es_zeta es)
    /\ es_gamma es = map row_sums (es_zeta es)
    /\ update_A (es_zeta es ++ [mzero]) (es_gamma es ++ [vzero])
       = M2 (Fin 1) (Fin 0) NaN NaN
    /\ ~ row_stochastic
           (update_A (es_zeta es ++ [mzero]) (es_gamma es ++ [vzero])).
Proof.
  eexists. split; [vm_compute; reflexivity|].
  cbn [es_zeta es_gamma].
  split.
  { constructor; [|constructor].
    exists 1, 0, 0, 0.
    repeat split; try apply is_val_Fin; try discriminate; reflexivity. }
  split; [reflexivity|].
  assert (E : update_A ([M2 (Fin 1) (Fin 0) (Fin 0) (Fin 0)] ++ [mzero])
                ([V2 (Fin 1) (Fin 0)] ++ [vzero])
              = M2 (Fin 1) (Fin 0) NaN NaN) by reflexivity.
  split; [exact E|]. rewrite E. apply nan_row_not_stochastic.
Qed.

End MStepExamples.

(** ** The E-step on probabilities *)

Section VectorFacts.
Local Open Scope Q_scope.

Lemma vnonneg_vval v : vnonneg v -> exists a b, vval v a b /\ 0 <= a /\ 0 <= b.
Proof.
  intros (H0 & H1).
  destruct (nonneg_is_val _ H0) as (a & Ha & ?).
  destruct (nonneg_is_val _ H1) as (b & Hb & ?).
  exists a, b. repeat split; assumption.
Qed.

Lemma vval_vnonneg v a b : vval v a b -> 0 <= a -> 0 <= b -> vnonneg v.
Proof.
  intros (Ha & Hb) ? ?. split; eapply is_val_nonneg; eassumption.
Qed.

Lemma vpositive_vval v :
  vpositive v -> exists a b, vval v a b /\ 0 < a /\ 0 < b.
Proof.
  intros (H0 & H1).
  destruct (positive_is_val _ H0) as (a & Ha & ?).
  destruct (positive_is_val _ H1) as (b & Hb & ?).
  exists a, b. repeat split; assumption.
Qed.

Lemma mnonneg_mval m :
  mnonneg m ->
  exists a b c d, mval m a b c d /\ 0 <= a /\ 0 <= b /\ 0 <= c /\ 0 <= d.
Proof.
  intros (H0 & H1 & H2 & H3).
  destruct (nonneg_is_val _ H0) as (a & Ha & ?).
  destruct (nonneg_is_val _ H1) as (b & Hb & ?).
  destruct (nonneg_is_val _ H2) as (c & Hc & ?).
  destruct (nonneg_is_val _ H3) as (d & Hd & ?).
  exists a, b, c, d. unfold mval. repeat split; assumption.
Qed.

Lemma distribution_vnonneg v : distribution v -> vnonneg v.
Proof. intros (a & b & Hv & ? & ? & _). now apply (vval_vnonneg v a b). Qed.

Lemma distribution_sums_to_one v : distribution v -> sums_to_one v.
Proof.
  intros (a & b & (Ha & Hb) & _ & _ & E). exists a, b. repeat split; assumption.
Qed.

Lemma vval_vmul v w a b c d :
  vval v a b -> vval w c d -> vval (vmul v w) (a * c) (b * d).
Proof. intros (? & ?) (? & ?). split; now apply val_mul. Qed.

Lemma vval_vec_mat v A x y a b c d :
  vval v x y -> mval A a b c d ->
  vval (vec_mat v A) (x * a + y * c) (x * b + y * d).
Proof.
  intros (? & ?) (? & ? & ? & ?).
  split; cbn [vec_mat v_0 v_1]; apply val_add; now apply val_mul.
Qed.

Lemma vval_mat_vec A w a b c d x y :
  mval A a b c d -> vval w x y ->
  vval (mat_vec A w) (a * x + b * y) (c * x + d * y).
Proof.
  intros (? & ? & ? & ?) (? & ?).
  split; cbn [mat_vec v_0 v_1]; apply val_add; now apply val_mul.
Qed.

Lemma val_vsum v a b : vval v a b -> is_val (vsum v) (a + b).
Proof. intros (? & ?). now apply val_add. Qed.

Lemma vval_vdiv v a b c s :
  vval v a b -> is_val c s -> ~ s == 0 -> vval (vdiv v c) (a / s) (b / s).
Proof. intros (? & ?) ? ?. split; now apply val_div. Qed.

Lemma mval_outer_mul v w A x y p q a b c d :
  vval v x y -> vval w p q -> mval A a b c d ->
  mval (mmul (outer v w) A)
    (x * p * a) (x * q * b) (y * p * c) (y * q * d).
Proof.
  intros (? & ?) (? & ?) (? & ? & ? & ?).
  unfold mval. cbn [mmul outer m_00 m_01 m_10 m_11].
  repeat split; apply val_mul; try assumption; now apply val_mul.
Qed.

Lemma val_msum m a b c d : mval m a b c d -> is_val (msum m) (a + b + c + d).
Proof.
  intros (? & ? & ? & ?). unfold msum.
  apply val_add; [apply val_add; [apply val_add|]|]; assumption.
Qed.

Lemma mval_mdiv m a b c d x s :
  mval m a b c d -> is_val x s -> ~ s == 0 ->
  mval (mdiv m x) (a / s) (b / s) (c / s) (d / s).
Proof.
  intros (? & ? & ? & ?) ? ?. unfold mval. cbn [mdiv m_00 m_01 m_10 m_11].
  repeat split; now apply val_div.
Qed.

Lemma div_zero_by_zero x c : is_val x 0 -> is_val c 0 -> (x / c)%fl = NaN.
Proof.
  intros (p & -> & Hp) (q & -> & Hq). cbn [fl_div].
  apply Qeq_alt in Hp, Hq. now rewrite Hq, Hp.
Qed.

Lemma pos_ne0 s : 0 < s -> ~ s == 0.
Proof. intros H E. rewrite E in H. now apply Qlt_irrefl in H. Qed.

Lemma quotient_nonneg a s : 0 <= a -> 0 < s -> 0 <= a / s.
Proof. intros Ha Hs. apply Qle_shift_div_l; [assumption | lra]. Qed.

Lemma quotient_pos a s : 0 < a -> 0 < s -> 0 < a / s.
Proof. intros Ha Hs. apply Qlt_shift_div_l; [assumption | lra]. Qed.

(** Scaling a non-negative column by its positive sum gives a
    distribution. *)
Lemma scaled_distribution v c a b :
  vval v a b -> is_val c (a + b) -> 0 <= a -> 0 <= b -> 0 < a + b ->
  distribution (vdiv v c).
Proof.
  intros Hv Hc Ha Hb Hs.
  exists (a / (a + b)), (b / (a + b)).
  split; [apply vval_vdiv; try assumption; now apply pos_ne0|].
  split; [now apply quotient_nonneg|]. split; [now apply quotient_nonneg|].
  field. now apply pos_ne0.
Qed.

End VectorFacts.

Section EStepFacts.
Local Open Scope Q_scope.
Context {elem : Elementary}.

Lemma forward_step_vals prev A Bk :
  vnonneg prev -> mnonneg A -> vnonneg Bk ->
  exists x y, vval (vmul (vec_mat prev A) Bk) x y /\ 0 <= x /\ 0 <= y.
Proof.
  intros Hp HA HB.
  destruct (vnonneg_vval _ Hp) as (p & q & Hpq & ? & ?).
  destruct (mnonneg_mval _ HA) as (a & b & c & d & Habcd & ? & ? & ? & ?).
  destruct (vnonneg_vval _ HB) as (u & v & Huv & ? & ?).
  exists ((p * a + q * c) * u), ((p * b + q * d) * v).
  split; [apply vval_vmul; [now apply vval_vec_mat | assumption]|].
  split; apply Qmult_le_0_compat; try assumption;
    (apply (Qplus_le_compat 0 _ 0 _); now apply Qmult_le_0_compat).
Qed.

(** Every column the forward loop returns was scaled by a positive
    finite [C[k]]: it is a distribution. *)
Lemma forward_loop_distributions t A :
  mnonneg A ->
  forall Bs k prev al Cs,
    vnonneg prev -> Forall vnonneg Bs ->
    forward_loop t k A prev Bs = Ok (al, Cs) ->
    Forall distribution al /\ Forall positive Cs.
Proof.
  intros HA. induction Bs as [|Bk Bs IH]; intros k prev al Cs Hp HB.
  - simpl. intros [= <- <-]. split; constructor.
  - inversion HB as [|? ? HBk HBs]; subst.
    destruct (forward_step_vals prev A Bk Hp HA HBk) as (x & y & Hxy & ? & ?).
    pose proof (val_vsum _ _ _ Hxy) as HC.
    cbn [forward_loop]. cbv zeta.
    destruct (_ >? _)%fl eqn:Hgt; [|discriminate].
    apply (gtb_val _ _ (x + y) 0 HC (is_val_Fin 0)) in Hgt.
    assert (Hd : distribution
                   (vdiv (vmul (vec_mat prev A) Bk)
                         (vsum (vmul (vec_mat prev A) Bk))))
      by (now apply (scaled_distribution _ _ x y)).
    destruct (forward_loop t (S k) A _ Bs) as [[al' Cs']|e] eqn:E; simpl;
      [|discriminate].
    intros [= <- <-].
    destruct (IH _ _ _ _ (distribution_vnonneg _ Hd) HBs E) as (Hal & HCs).
    split; constructor; try assumption.
    now apply (is_val_positive _ (x + y)).
Qed.

(** With at least two bins, a forward pass that returns has scaled
    column 0 by a positive number too: a zero [C[0]] would have put [nan]
    in [alpha[:, 0]] and failed the test at bin 1. *)
Lemma forward_distributions t p0 A B alpha C :
  vnonneg p0 -> mnonneg A -> Forall vnonneg B -> (2 <= length B)%nat ->
  forward t p0 A B = Ok (alpha, C) ->
  Forall distribution alpha /\ Forall positive C.
Proof.
  intros Hp HA HB Hn. unfold forward.
  destruct B as [|B0 [|B1 Bs]]; try (simpl in Hn; lia).
  inversion HB as [|? ? HB0 HBs]; subst.
  destruct (vnonneg_vval _ Hp) as (p & q & Hpq & ? & ?).
  destruct (vnonneg_vval _ HB0) as (u & v & Huv & ? & ?).
  pose proof (vval_vmul _ _ _ _ _ _ Hpq Huv) as Hpre.
  pose proof (val_vsum _ _ _ Hpre) as HC.
  assert (0 <= p * u) by now apply Qmult_le_0_compat.
  assert (0 <= q * v) by now apply Qmult_le_0_compat.
  destruct (Qlt_le_dec 0 (p * u + q * v)) as [Hpos|Hzero].
  - assert (Hd : distribution (vdiv (vmul p0 B0) (vsum (vmul p0 B0))))
      by (now apply (scaled_distribution _ _ (p * u) (q * v))).
    destruct (forward_loop t 1 A _ (B1 :: Bs)) as [[al Cs]|e] eqn:E; simpl;
      [|discriminate].
    intros [= <- <-].
    destruct (forward_loop_distributions t A HA _ _ _ _ _
                (distribution_vnonneg _ Hd) HBs E) as (Hal & HCs).
    split; constructor; try assumption.
    now apply (is_val_positive _ (p * u + q * v)).
  - assert (E0 : p * u == 0) by lra.
    assert (E1 : q * v == 0) by lra.
    assert (Hnan : vdiv (vmul p0 B0) (vsum (vmul p0 B0)) = V2 NaN NaN).
    { destruct Hpre as (Hpre0 & Hpre1). unfold vdiv. f_equal.
      - apply div_zero_by_zero; [now apply (is_val_eq _ (p * u))|].
        apply (is_val_eq _ _ _ HC). lra.
      - apply div_zero_by_zero; [now apply (is_val_eq _ (q * v))|].
        apply (is_val_eq _ _ _ HC). lra. }
    rewrite Hnan. cbn [forward_loop]. rewrite nan_poisons_column.
    simpl. discriminate.
Qed.


(** A block that passed the test [np.sum(temp) > 0] is normalized. *)
Lemma pairwise_normalized t A :
  mnonneg A ->
  forall alpha k beta B zs,
    Forall vnonneg alpha -> Forall vnonneg beta -> Forall vnonneg B ->
    pairwise t k A alpha beta B = Ok zs ->
    Forall block_normalized zs.
Proof.
  intros HA. induction alpha as [|ak alpha IH]; intros k beta B zs Hal Hbe HB.
  - simpl. intros [= <-]. constructor.
  - destruct beta as [|b1 beta]; [simpl; intros [= <-]; constructor|].
    destruct B as [|B1 B]; [simpl; intros [= <-]; constructor|].
    inversion Hal as [|? ? Hak Hal']; subst.
    inversion Hbe as [|? ? Hb1 Hbe']; subst.
    inversion HB as [|? ? HB1 HB']; subst.
    destruct (vnonneg_vval _ Hak) as (x & y & Hxy & ? & ?).
    destruct (vnonneg_vval _ Hb1) as (p & q & Hpq & ? & ?).
    destruct (vnonneg_vval _ HB1) as (u & v & Huv & ? & ?).
    destruct (mnonneg_mval _ HA) as (a & b & c & d & Habcd & ? & ? & ? & ?).
    pose proof (mval_outer_mul _ _ _ _ _ _ _ _ _ _ _ Hxy
                  (vval_vmul _ _ _ _ _ _ Hpq Huv) Habcd) as Htemp.
    pose proof (val_msum _ _ _ _ _ Htemp) as Hsum.
    cbn [pairwise]. cbv zeta.
    destruct (_ >? _)%fl eqn:Hgt; [|discriminate].
    apply (gtb_val _ _ _ 0 Hsum (is_val_Fin 0)) in Hgt.
    destruct (pairwise t (S k) A alpha beta B) as [zs'|e] eqn:E; simpl;
      [|discriminate].
    intros [= <-]. constructor; [|exact (IH _ _ _ _ Hal' Hbe' HB' E)].
    assert (0 <= p * u) by now apply Qmult_le_0_compat.
    assert (0 <= q * v) by now apply Qmult_le_0_compat.
    assert (0 <= x * (p * u) * a)
      by (apply Qmult_le_0_compat; [now apply Qmult_le_0_compat | assumption]).
    assert (0 <= x * (q * v) * b)
      by (apply Qmult_le_0_compat; [now apply Qmult_le_0_compat | assumption]).
    assert (0 <= y * (p * u) * c)
      by (apply Qmult_le_0_compat; [now apply Qmult_le_0_compat | assumption]).
    assert (0 <= y * (q * v) * d)
      by (apply Qmult_le_0_compat; [now apply Qmult_le_0_compat | assumption]).
    pose proof (mval_mdiv _ _ _ _ _ _ _ Htemp Hsum (pos_ne0 _ Hgt))
      as (Hz0 & Hz1 & Hz2 & Hz3).
    eexists _, _, _, _.
    split; [exact Hz0|]. split; [exact Hz1|].
    split; [exact Hz2|]. split; [exact Hz3|].
    split; [now apply quotient_nonneg|]. split; [now apply quotient_nonneg|].
    split; [now apply quotient_nonneg|]. split; [now apply quotient_nonneg|].
    field. now apply pos_ne0.
Qed.

Lemma row_sums_distribution z : block_normalized z -> distribution (row_sums z).
Proof.
  intros (a & b & c & d & Ha & Hb & Hc & Hd & ? & ? & ? & ? & E).
  exists (a + b), (c + d). split; [split; now apply val_add|].
  split; [lra|]. split; [lra|]. rewrite <- E. ring.
Qed.


End EStepFacts.

Section EStepClaims.
Local Open Scope Q_scope.
Context {elem : Elementary}.


End EStepClaims.

Section EStepExamples.
Import Standin.


End EStepExamples.

(** ** The E-step on positive likelihoods *)

Section PositiveFacts.
Local Open Scope Q_scope.
Context {elem : Elementary}.

(** A convex combination of two positive numbers is positive. *)
Lemma convex_pos a b u v :
  0 <= a -> 0 <= b -> a + b == 1 -> 0 < u -> 0 < v -> 0 < a * u + b * v.
Proof.
  intros Ha Hb E Hu Hv.
  destruct (Qlt_le_dec 0 a) as [Hpos|Hz].
  - assert (0 < a * u) by (apply Qmult_lt_0_compat; assumption).
    assert (0 <= b * v) by (apply Qmult_le_0_compat; lra).
    lra.
  - assert (Ea : a == 0) by lra. assert (Eb : b == 1) by lra.
    rewrite Ea, Eb. lra.
Qed.

Lemma row_stochastic_mval A :
  row_stochastic A ->
  exists a b c d,
    mval A a b c d /\ 0 <= a /\ 0 <= b /\ 0 <= c /\ 0 <= d
    /\ a + b == 1 /\ c + d == 1.
Proof.
  intros ((a & b & Ha & Hb & Eab) & (c & d & Hc & Hd & Ecd)
          & (a' & Ha' & ? & _) & (b' & Hb' & ? & _)
          & (c' & Hc' & ? & _) & (d' & Hd' & ? & _)).
  cbn [v_0 v_1] in *.
  pose proof (is_val_unique _ _ _ Ha' Ha) as Ea.
  pose proof (is_val_unique _ _ _ Hb' Hb) as Eb.
  pose proof (is_val_unique _ _ _ Hc' Hc) as Ec.
  pose proof (is_val_unique _ _ _ Hd' Hd) as Ed.
  exists a, b, c, d. unfold mval.
  repeat split; try assumption; lra.
Qed.

Lemma row_stochastic_mnonneg A : row_stochastic A -> mnonneg A.
Proof.
  intros H. destruct (row_stochastic_mval A H)
    as (a & b & c & d & (Ha & Hb & Hc & Hd) & ? & ? & ? & ? & _).
  repeat split; eapply is_val_nonneg; eassumption.
Qed.

Lemma vpositive_vnonneg v : vpositive v -> vnonneg v.
Proof.
  intros H. destruct (vpositive_vval v H) as (a & b & Hv & ? & ?).
  apply (vval_vnonneg v a b Hv); lra.
Qed.

Lemma Forall_vpositive_vnonneg l : Forall vpositive l -> Forall vnonneg l.
Proof. intros H. eapply Forall_impl; [|exact H]. apply vpositive_vnonneg. Qed.

(** The forward loop never fails on positive likelihoods. *)
Lemma forward_loop_total t A :
  row_stochastic A ->
  forall Bs k prev,
    distribution prev -> Forall vpositive Bs ->
    exists al Cs, forward_loop t k A prev Bs = Ok (al, Cs).
Proof.
  intros HA.
  destruct (row_stochastic_mval A HA)
    as (a & b & c & d & Habcd & ? & ? & ? & ? & Eab & Ecd).
  induction Bs as [|Bk Bs IH]; intros k prev Hp HB.
  - simpl. now exists [], [].
  - inversion HB as [|? ? HBk HBs]; subst.
    destruct Hp as (p & q & Hpq & ? & ? & Epq).
    destruct (vpositive_vval _ HBk) as (u & v & Huv & ? & ?).
    pose proof (vval_vmul _ _ _ _ _ _
                  (vval_vec_mat _ _ _ _ _ _ _ _ Hpq Habcd) Huv) as Hpre.
    pose proof (val_vsum _ _ _ Hpre) as HC.
    assert (Hpos : 0 < (p * a + q * c) * u + (p * b + q * d) * v).
    { assert (0 < a * u + b * v) by now apply convex_pos.
      assert (0 < c * u + d * v) by now apply convex_pos.
      assert (0 < p * (a * u + b * v) + q * (c * u + d * v))
        by now apply convex_pos.
      lra. }
    assert (Hx : 0 <= (p * a + q * c) * u).
    { apply Qmult_le_0_compat; [|lra].
      apply (Qplus_le_compat 0 _ 0 _); now apply Qmult_le_0_compat. }
    assert (Hy : 0 <= (p * b + q * d) * v).
    { apply Qmult_le_0_compat; [|lra].
      apply (Qplus_le_compat 0 _ 0 _); now apply Qmult_le_0_compat. }
    assert (Hg : (vsum (vmul (vec_mat prev A) Bk) >? fl0)%fl = true)
      by (now apply (proj2 (gtb_val _ _ _ 0 HC (is_val_Fin 0)))).
    cbn [forward_loop]. cbv zeta. rewrite Hg.
    destruct (IH (S k) _ (scaled_distribution _ _ _ _ Hpre HC Hx Hy Hpos) HBs)
      as (al & Cs & E).
    rewrite E. simpl. eauto.
Qed.

(** The forward pass never fails on positive likelihoods, and its first
    column is positive. *)
Lemma forward_total t p0 A B0 Bs :
  vpositive p0 -> row_stochastic A -> Forall vpositive (B0 :: Bs) ->
  exists a0 al C,
    forward t p0 A (B0 :: Bs) = Ok (a0 :: al, C) /\ vpositive a0.
Proof.
  intros Hp HA HB. inversion HB as [|? ? HB0 HBs]; subst.
  destruct (vpositive_vval _ Hp) as (p & q & Hpq & ? & ?).
  destruct (vpositive_vval _ HB0) as (u & v & Huv & ? & ?).
  pose proof (vval_vmul _ _ _ _ _ _ Hpq Huv) as Hpre.
  pose proof (val_vsum _ _ _ Hpre) as HC.
  assert (0 < p * u) by now apply Qmult_lt_0_compat.
  assert (0 < q * v) by now apply Qmult_lt_0_compat.
  assert (Hpos : 0 < p * u + q * v) by lra.
  assert (Hd : distribution (vdiv (vmul p0 B0) (vsum (vmul p0 B0))))
    by (apply (scaled_distribution _ _ (p * u) (q * v)); try assumption; lra).
  destruct (forward_loop_total t A HA Bs 1%nat _ Hd HBs) as (al & Cs & E).
  unfold forward. rewrite E. simpl. eexists _, _, _. split; [reflexivity|].
  destruct (vval_vdiv _ _ _ _ _ Hpre HC (pos_ne0 _ Hpos)) as (H0' & H1').
  split; eapply is_val_positive; try eassumption; now apply quotient_pos.
Qed.

(** The backward messages are positive. *)
Lemma backward_positive A :
  row_stochastic A ->
  forall B C, Forall vpositive B -> Forall positive C ->
    length C = length B ->
    Forall vpositive (backward A B C).
Proof.
  intros HA.
  destruct (row_stochastic_mval A HA)
    as (a & b & c & d & Habcd & ? & ? & ? & ? & Eab & Ecd).
  induction B as [|B0 B IH]; intros C HB HC Hlen; [constructor|].
  destruct C as [|C0 C]; [constructor|].
  inversion HB as [|? ? HB0 HBs]; subst.
  inversion HC as [|? ? HC0 HCs]; subst.
  simpl in Hlen. injection Hlen as Hlen.
  destruct (positive_is_val _ HC0) as (s & Hs & Hspos).
  cbn [backward]. destruct B as [|B1 B].
  - constructor; [|constructor].
    destruct (vval_vdiv (V2 fl1 fl1) 1 1 C0 s
                (conj (is_val_Fin 1) (is_val_Fin 1)) Hs (pos_ne0 _ Hspos))
      as (H0' & H1').
    split; eapply is_val_positive; try eassumption;
      (apply quotient_pos; [lra | assumption]).
  - specialize (IH C HBs HCs Hlen).
    constructor; [|exact IH].
    assert (Hhd : vpositive (hd vzero (backward A (B1 :: B) C))).
    { destruct (backward A (B1 :: B) C) as [|x xs] eqn:E.
      - apply (f_equal (@length _)) in E.
        rewrite backward_length, Hlen, Nat.min_id in E. discriminate E.
      - now inversion IH. }
    inversion HBs as [|? ? HB1 _]; subst.
    destruct (vpositive_vval _ Hhd) as (p & q & Hpq & ? & ?).
    destruct (vpositive_vval _ HB1) as (u & v & Huv & ? & ?).
    pose proof (vval_mat_vec _ _ _ _ _ _ _ _ Habcd
                  (vval_vmul _ _ _ _ _ _ Hpq Huv)) as Hmv.
    assert (0 < p * u) by now apply Qmult_lt_0_compat.
    assert (0 < q * v) by now apply Qmult_lt_0_compat.
    destruct (vval_vdiv _ _ _ _ _ Hmv Hs (pos_ne0 _ Hspos)) as (H0' & H1').
    split; eapply is_val_positive; try eassumption;
      (apply quotient_pos; [now apply convex_pos | assumption]).
Qed.

End PositiveFacts.

Section PairwiseFacts.
Local Open Scope Q_scope.
Context {elem : Elementary}.

(** The pairwise loop never fails on positive messages; when the first
    forward column is positive, so are the row sums of the first block. *)
Lemma pairwise_total t A :
  row_stochastic A ->
  forall alpha k beta B,
    Forall distribution alpha -> Forall vpositive beta -> Forall vpositive B ->
    exists zs, pairwise t k A alpha beta B = Ok zs
               /\ (forall ak al b1 be B1 Bs,
                     alpha = ak :: al -> beta = b1 :: be -> B = B1 :: Bs ->
                     vpositive ak ->
                     exists z zs', zs = z :: zs' /\ vpositive (row_sums z)).
Proof.
  intros HA.
  destruct (row_stochastic_mval A HA)
    as (a & b & c & d & Habcd & ? & ? & ? & ? & Eab & Ecd).
  induction alpha as [|ak alpha IH]; intros k beta B Hal Hbe HB.
  - exists []. split; [reflexivity|]. intros; discriminate.
  - destruct beta as [|b1 beta];
      [exists []; split; [reflexivity | intros; discriminate]|].
    destruct B as [|B1 B];
      [exists []; split; [reflexivity | intros; discriminate]|].
    inversion Hal as [|? ? Hak Hal']; subst.
    inversion Hbe as [|? ? Hb1 Hbe']; subst.
    inversion HB as [|? ? HB1 HB']; subst.
    destruct Hak as (x & y & Hxy & ? & ? & Exy).
    destruct (vpositive_vval _ Hb1) as (p & q & Hpq & ? & ?).
    destruct (vpositive_vval _ HB1) as (u & v & Huv & ? & ?).
    pose proof (mval_outer_mul _ _ _ _ _ _ _ _ _ _ _ Hxy
                  (vval_vmul _ _ _ _ _ _ Hpq Huv) Habcd) as Htemp.
    pose proof (val_msum _ _ _ _ _ Htemp) as Hsum.
    assert (Hpu : 0 < p * u) by now apply Qmult_lt_0_compat.
    assert (Hqv : 0 < q * v) by now apply Qmult_lt_0_compat.
    assert (Hr0 : 0 < a * (p * u) + b * (q * v)) by now apply convex_pos.
    assert (Hr1 : 0 < c * (p * u) + d * (q * v)) by now apply convex_pos.
    assert (Hs : 0 < x * (p * u) * a + x * (q * v) * b
                     + y * (p * u) * c + y * (q * v) * d).
    { assert (0 < x * (a * (p * u) + b * (q * v))
                  + y * (c * (p * u) + d * (q * v)))
        by now apply convex_pos.
      lra. }
    assert (Hg : (msum (mmul (outer ak (vmul b1 B1)) A) >? fl0)%fl = true)
      by (now apply (proj2 (gtb_val _ _ _ 0 Hsum (is_val_Fin 0)))).
    destruct (IH (S k) beta B Hal' Hbe' HB') as (zs & E & _).
    cbn [pairwise]. cbv zeta. rewrite Hg, E. simpl.
    eexists. split; [reflexivity|].
    intros ak' al' b1' be' B1' Bs' [= <- <-] [= <- <-] [= <- <-] Hpos.
    eexists _, _. split; [reflexivity|].
    destruct (vpositive_vval _ Hpos) as (x' & y' & Hxy' & Hx' & Hy').
    destruct Hxy as (Hx0 & Hy0), Hxy' as (Hx1 & Hy1).
    pose proof (is_val_unique _ _ _ Hx1 Hx0) as Ex.
    pose proof (is_val_unique _ _ _ Hy1 Hy0) as Ey.
    pose proof (mval_mdiv _ _ _ _ _ _ _ Htemp Hsum (pos_ne0 _ Hs))
      as (Hz0 & Hz1 & Hz2 & Hz3).
    set (s := x * (p * u) * a + x * (q * v) * b
              + y * (p * u) * c + y * (q * v) * d) in *.
    split; cbn [row_sums v_0 v_1].
    + eapply is_val_positive; [apply val_add; eassumption|].
      assert (E0 : x * (p * u) * a / s + x * (q * v) * b / s
                   == x * (a * (p * u) + b * (q * v)) / s)
        by (field; now apply pos_ne0).
      rewrite E0. apply quotient_pos; [|assumption].
      apply Qmult_lt_0_compat; [lra | assumption].
    + eapply is_val_positive; [apply val_add; eassumption|].
      assert (E1 : y * (p * u) * c / s + y * (q * v) * d / s
                   == y * (c * (p * u) + d * (q * v)) / s)
        by (field; now apply pos_ne0).
      rewrite E1. apply quotient_pos; [|assumption].
      apply Qmult_lt_0_compat; [lra | assumption].
Qed.

Lemma table_sum_nonneg gs : Forall vnonneg gs -> vnonneg (table_sum gs).
Proof.
  induction 1 as [|g gs Hg _ IH].
  - split; exists 0; split; try reflexivity; apply Qle_refl.
  - destruct (vnonneg_vval _ Hg) as (a & b & (Ha & Hb) & ? & ?).
    destruct (vnonneg_vval _ IH) as (c & d & (Hc & Hd) & ? & ?).
    cbn [table_sum fold_right]. fold (table_sum gs).
    apply (vval_vnonneg _ (a + c) (b + d)); [|lra|lra].
    split; cbn [vadd v_0 v_1]; now apply val_add.
Qed.

(** A state that is possible in the first bin has a positive total
    occupancy. *)
Lemma table_sum_positive g gs :
  vpositive g -> Forall vnonneg gs -> vpositive (table_sum (g :: gs)).
Proof.
  intros Hg Hgs.
  destruct (vpositive_vval _ Hg) as (a & b & (Ha & Hb) & ? & ?).
  destruct (vnonneg_vval _ (table_sum_nonneg gs Hgs))
    as (c & d & (Hc & Hd) & ? & ?).
  cbn [table_sum fold_right]. fold (table_sum gs).
  split; cbn [vadd v_0 v_1].
  - apply (is_val_positive _ (a + c)); [now apply val_add | lra].
  - apply (is_val_positive _ (b + d)); [now apply val_add | lra].
Qed.

End PairwiseFacts.

Section ModelInvariant.
Local Open Scope Q_scope.
Context {elem : Elementary}.

(** The E-step on a well-formed model: it returns, the blocks it writes
    are normalized, and both states are possible in bin 0. *)
Lemma e_step_on_model t p0 A B :
  vpositive p0 -> row_stochastic A -> Forall vpositive B ->
  (2 <= length B)%nat ->
  exists es,
    e_step t p0 A B = Ok es
    /\ Forall block_normalized (es_zeta es)
    /\ es_gamma es = map row_sums (es_zeta es)
    /\ length (es_zeta es) = (length B - 1)%nat
    /\ vpositive (hd vzero (es_gamma es)).
Proof.
  intros Hp HA HB Hn.
  destruct B as [|B0 [|B1 Bs]]; try (simpl in Hn; lia).
  destruct (forward_total t p0 A B0 (B1 :: Bs) Hp HA HB)
    as (a0 & al & C & Hf & Ha0).
  destruct (forward_distributions t p0 A _ _ _ (vpositive_vnonneg _ Hp)
              (row_stochastic_mnonneg _ HA) (Forall_vpositive_vnonneg _ HB)
              Hn Hf) as (Hal & HC).
  destruct (forward_length _ _ _ _ _ _ Hf) as (_ & Hla & HlC).
  pose proof (backward_positive A HA _ _ HB HC HlC) as Hbe.
  assert (Hlb : length (backward A (B0 :: B1 :: Bs) C)
                = length (B0 :: B1 :: Bs))
    by (rewrite backward_length, HlC; apply Nat.min_id).
  destruct (backward A (B0 :: B1 :: Bs) C) as [|b0 [|b1 be]] eqn:Eb;
    try (simpl in Hlb; lia).
  inversion Hbe as [|? ? _ Hbe']; subst.
  inversion HB as [|? ? _ HB']; subst.
  destruct (pairwise_total t A HA (a0 :: al) 0%nat (b1 :: be) (B1 :: Bs)
              Hal Hbe' HB') as (zs & Hpw & Hfirst).
  destruct (Hfirst a0 al b1 be B1 Bs eq_refl eq_refl eq_refl Ha0)
    as (z & zs' & -> & Hz).
  assert (Hnorm : Forall block_normalized (z :: zs')).
  { apply (pairwise_normalized t A (row_stochastic_mnonneg _ HA)
             (a0 :: al) 0%nat (b1 :: be) (B1 :: Bs)); [| | | exact Hpw].
    - eapply Forall_impl; [|exact Hal]. intros v. apply distribution_vnonneg.
    - now apply Forall_vpositive_vnonneg.
    - now apply Forall_vpositive_vnonneg. }
  assert (Hlz : length (z :: zs') = (length (B0 :: B1 :: Bs) - 1)%nat).
  { apply pairwise_length in Hpw. rewrite Hpw.
    simpl in Hla, Hlb |- *. lia. }
  unfold e_step. rewrite Hf. cbn [bind]. unfold e_step_rest.
  rewrite Eb. cbn [tl]. rewrite Hpw. cbn [bind].
  eexists. cbn [es_zeta es_gamma].
  split; [reflexivity|]. split; [exact Hnorm|]. split; [reflexivity|].
  split; [exact Hlz | exact Hz].
Qed.

(** In exact arithmetic the E-step cannot fail on a well-formed model:
    with a positive initial distribution, a row-stochastic [A], positive
    likelihoods and at least two bins, neither scaling test fires, and
    both states have a positive posterior probability in bin 0. *)
Theorem e_step_total t p0 A B :
  vpositive p0 -> row_stochastic A -> Forall vpositive B ->
  (2 <= length B)%nat ->
  exists es, e_step t p0 A B = Ok es /\ vpositive (hd vzero (es_gamma es)).
Proof.
  intros Hp HA HB Hn.
  destruct (e_step_on_model t p0 A B Hp HA HB Hn)
    as (es & Hes & _ & _ & _ & Hpos).
  exists es. split; [exact Hes | exact Hpos].
Qed.

(** In exact arithmetic, the M-step keeps [A] and [p0] well-formed.  Let
    an EM iteration start from a positive [p0], a row-stochastic [A] and
    an emission table whose entries are all positive, on at least two
    bins, with [gamma] and [zeta] in the shape in which the code creates
    and keeps them ([nbins] columns, the last one zero).  If the
    iteration completes, the new [A] is row-stochastic, the new [p0],
    which is [gamma[:, 0]], is a positive probability distribution, and
    [gamma] and [zeta] are in that shape again.  Nothing is said of the
    new emission table: it need not be positive. *)
Theorem em_iteration_keeps_A_and_p0 counts hist nr st st' :
  length counts = length hist ->
  shape_inv (length counts) st -> (2 <= length counts)%nat ->
  vpositive (st_p0 st) -> row_stochastic (st_A st) ->
  Forall vpositive (st_B st) ->
  em_iteration counts hist nr st = Ok st' ->
  row_stochastic (st_A st')
  /\ vpositive (st_p0 st') /\ distribution (st_p0 st')
  /\ shape_inv (length counts) st'.
Proof.
  intros Hsame Hshape Hn Hp HA HB Hi.
  assert (Hshape' : shape_inv (length counts) st')
    by exact (shape_inv_step counts hist nr Hsame st st' Hshape Hi).
  cut (row_stochastic (st_A st')
       /\ vpositive (st_p0 st') /\ distribution (st_p0 st')).
  { intros (H1 & H2 & H3).
    split; [exact H1|]. split; [exact H2|]. split; [exact H3 | exact Hshape']. }
  clear Hshape'. destruct Hshape as (HlB & Hlg & Hlz & Hgl & Hzl).
  apply em_iteration_inv in Hi.
  destruct Hi as (alpha & C & lp & es & a' & b' & m' & Hf & _ & He & _ & ->).
  cbn [st_A st_p0].
  assert (Hes : e_step (st_t st) (st_p0 st) (st_A st) (st_B st) = Ok es)
    by (unfold e_step; rewrite Hf; exact He).
  rewrite <- HlB in Hn.
  destruct (e_step_on_model (st_t st) _ _ _ Hp HA HB Hn)
    as (es' & Hes' & Hz & Egam & Hlzs & Hg0).
  rewrite Hes in Hes'. injection Hes' as <-.
  assert (Hg : Forall distribution (es_gamma es)).
  { rewrite Egam. apply Forall_map. eapply Forall_impl; [|exact Hz].
    intros z. apply row_sums_distribution. }
  assert (Hlen : length (es_gamma es) = (length (st_B st) - 1)%nat)
    by (now rewrite Egam, length_map).
  rewrite (overwrite_all_but_last (es_gamma es) (st_gamma st) vzero)
    by (rewrite Hlen, Hlg; lia).
  rewrite (overwrite_all_but_last (es_zeta es) (st_zeta st) mzero)
    by (rewrite Hlzs, Hlz; lia).
  rewrite Hlen, Hlzs, HlB, Hgl, Hzl.
  destruct (es_gamma es) as [|g0 gs] eqn:Eg;
    [simpl in Hlen; lia|].
  cbn [hd app]. cbn [hd] in Hg0.
  inversion Hg as [|? ? Hg0d Hgs]; subst.
  split; [|split; assumption].
  (* the occupancy of both states is positive *)
  assert (Hocc : vpositive (table_sum (g0 :: gs ++ [vzero]))).
  { apply table_sum_positive; [assumption|].
    apply Forall_app. split.
    - eapply Forall_impl; [|exact Hgs]. apply distribution_vnonneg.
    - constructor; [|constructor].
      split; exists 0; split; try reflexivity; apply Qle_refl. }
  change (g0 :: gs ++ [vzero]) with ((g0 :: gs) ++ [vzero]) in *.
  rewrite Egam in *.
  destruct (occupancy_sums _ Hz)
    as (a & b & c & d & Ha & Hb & Hc & Hd & Hab & Hcd & ? & ? & ? & ?).
  destruct Hocc as (Hocc0 & Hocc1).
  destruct (positive_is_val _ Hocc0) as (s0 & Hs0 & Hs0pos).
  destruct (positive_is_val _ Hocc1) as (s1 & Hs1 & Hs1pos).
  pose proof (is_val_unique _ _ _ Hs0 Hab) as E0.
  pose proof (is_val_unique _ _ _ Hs1 Hcd) as E1.
  unfold row_stochastic, update_A. cbn [m_00 m_01 m_10 m_11].
  split; [apply (ratios_sum_to_one _ _ _ a b s0); assumption|].
  split; [apply (ratios_sum_to_one _ _ _ c d s1); assumption|].
  split; [apply (ratio_in_unit _ _ a s0); try assumption; lra|].
  split; [apply (ratio_in_unit _ _ b s0); try assumption; lra|].
  split; [apply (ratio_in_unit _ _ c s1); try assumption; lra|].
  apply (ratio_in_unit _ _ d s1); try assumption; lra.
Qed.

End ModelInvariant.

Section ModelInvariantExamples.
Import Standin.
Local Open Scope Q_scope.

Lemma init_A_row_stochastic : row_stochastic init_A.
Proof.
  unfold row_stochastic, init_A. cbn [m_00 m_01 m_10 m_11].
  split; [exists (1 # 10), (9 # 10); cbn [v_0 v_1];
          repeat split; try apply is_val_Fin; reflexivity|].
  split; [exists (1 # 20), (19 # 20); cbn [v_0 v_1];
          repeat split; try apply is_val_Fin; reflexivity|].
  repeat split; eexists; (split; [apply is_val_Fin | split; discriminate]).
Qed.

Lemma half_half_positive : vpositive (V2 (Fin (1 # 2)) (Fin (1 # 2))).
Proof. split; eexists; (split; [reflexivity | reflexivity]). Qed.

Lemma e_step_total_witness :
  exists es,
    @e_step approx 0 (V2 (Fin (1 # 2)) (Fin (1 # 2))) init_A
      [V2 (Fin (1 # 2)) (Fin (1 # 8)); V2 (Fin (1 # 8)) (Fin (1 # 2))] = Ok es
    /\ vpositive (hd vzero (es_gamma es)).
Proof.
  apply (@e_step_total approx).
  - exact half_half_positive.
  - exact init_A_row_stochastic.
  - repeat (first [apply Forall_cons | apply Forall_nil]);
      split; eexists; (split; [reflexivity | reflexivity]).
  - simpl. lia.
Defined.

Lemma em_iteration_keeps_A_and_p0_witness :
  exists st',
    @em_iteration approx ex_counts ex_hist 1 (ex_state 3) = Ok st'
    /\ row_stochastic (st_A st')
    /\ vpositive (st_p0 st') /\ distribution (st_p0 st')
    /\ shape_inv (length ex_counts) st'.
Proof.
  eexists. split; [vm_compute; reflexivity|].
  apply (@em_iteration_keeps_A_and_p0 approx ex_counts ex_hist 1 (ex_state 3)).
  - reflexivity.
  - repeat split; reflexivity.
  - simpl. lia.
  - exact half_half_positive.
  - exact init_A_row_stochastic.
  - vm_compute.
    repeat (first [apply Forall_cons | apply Forall_nil]);
      split; eexists; (split; [reflexivity | reflexivity]).
  - vm_compute. reflexivity.
Defined.

End ModelInvariantExamples.

(** ** Inputs that [_run_hmmem] rejects *)

Section RejectFacts.
Local Open Scope nat_scope.
Context {elem : Elementary}.

(** [_run_hmmem] raises [AssertionError] when the count and history
    arrays differ in length, [IndexError] when there is no bin at all,
    and, as soon as the loop is entered ([n_iter_EM >= 2]), the
    [AssertionError] of [newton_ralphson] when there is a single bin. *)
Theorem run_hmmem_rejects
    (counts hist : list Z) init_A init_alphaa init_betaa init_mu N nr :
  (length counts <> length hist ->
     _run_hmmem counts hist init_A init_alphaa init_betaa init_mu N nr
     = Err AssertionError)
  /\ (counts = [] -> hist = [] ->
        _run_hmmem counts hist init_A init_alphaa init_betaa init_mu N nr
        = Err IndexError)
  /\ (length counts = 1 -> length hist = 1 -> 2 <= N ->
        _run_hmmem counts hist init_A init_alphaa init_betaa init_mu N nr
        = Err AssertionError).
Proof.
  split; [|split].
  - intros H. unfold _run_hmmem.
    destruct (Nat.eqb_spec (length counts) (length hist)); [contradiction|].
    reflexivity.
  - intros -> ->. unfold _run_hmmem. cbn [length Nat.eqb negb].
    destruct (N - 1) as [|fuel]; reflexivity.
  - intros Hc Hh HN.
    destruct counts as [|c [|? ?]]; try discriminate Hc.
    destruct hist as [|h [|? ?]]; try discriminate Hh.
    destruct N as [|[|N']]; try lia.
    unfold _run_hmmem. cbn [length Nat.eqb negb].
    replace (S (S N') - 1) with (S N') by lia.
    reflexivity.
Qed.

End RejectFacts.

(** ** A history that is identically zero *)

Section ZeroHistoryFacts.
Local Open Scope nat_scope.
Context {elem : Elementary}.

Lemma zero_mul_zero_or_nan x : zero_or_nan (fl0 * x)%fl.
Proof.
  destruct x as [q| | |]; [left | right | right | right]; reflexivity.
Qed.

Lemma zero_or_nan_add x y :
  zero_or_nan x -> zero_or_nan y -> zero_or_nan (x + y)%fl.
Proof.
  intros [-> | ->] [-> | ->]; [left | right | right | right]; reflexivity.
Qed.

Lemma fold_add_zero_or_nan xs : forall acc,
  zero_or_nan acc -> Forall zero_or_nan xs ->
  zero_or_nan (fold_left fl_add xs acc).
Proof.
  induction xs as [|x xs IH]; intros acc Hacc Hxs; [exact Hacc|].
  inversion Hxs; subst. simpl. apply IH; [now apply zero_or_nan_add | assumption].
Qed.

Lemma zero_weights_sum n (xs : list fl) :
  zero_or_nan (weighted_sum (map of_Z (repeat 0%Z n)) xs).
Proof.
  unfold weighted_sum, fl_sum. apply fold_add_zero_or_nan; [now left|].
  revert xs. induction n as [|n IH]; intros xs; [constructor|].
  destruct xs as [|x xs]; [constructor|].
  simpl. constructor; [apply zero_mul_zero_or_nan | apply IH].
Qed.

Lemma zip_mul_zero_r (counts : list Z) n :
  History.zsum (History.zip_with Z.mul counts (repeat 0%Z n)) = 0%Z.
Proof.
  revert n. induction counts as [|c counts IH]; intros [|n]; try reflexivity.
  simpl. rewrite Z.mul_0_r. apply IH.
Qed.

Lemma zip_mul_zero_zero n :
  History.zip_with Z.mul (repeat 0%Z n) (repeat 0%Z n) = repeat 0%Z n.
Proof. induction n as [|n IH]; [reflexivity|]. simpl. now rewrite IH. Qed.

Lemma zero_or_nan_quotient x y :
  zero_or_nan x -> zero_or_nan y -> ((x - fl0) / y)%fl = NaN.
Proof. intros [-> | ->] [-> | ->]; reflexivity. Qed.

Lemma betaa_update_nan (counts : list Z) (Zs : list fl) n mu alphaa theta :
  newton_update (g_betaa counts Zs (repeat 0%Z n) mu alphaa)
                (gprime_betaa Zs (repeat 0%Z n) mu alphaa) theta = NaN.
Proof.
  unfold newton_update, g_betaa, gprime_betaa.
  rewrite zip_mul_zero_r, zip_mul_zero_zero.
  change (of_Z 0) with fl0.
  rewrite zero_or_nan_quotient by apply zero_weights_sum.
  apply nan_add_r.
Qed.

Lemma iter_constant {T} (f : T -> T) (c : T) n u :
  (forall x, f x = c) -> Nat.iter (S n) f u = c.
Proof. intros H. simpl. apply H. Qed.

(** When every history count is zero (no spike at all before the last
    bin, or a history window of 0 bins), the Newton loop for [betaa]
    divides [0 / 0] in its first update: [newton_ralphson] returns
    [betaa = nan], whatever the other inputs. *)
Theorem zero_history_gives_nan_betaa
    (counts : list Z) (Zs : list fl) init_alphaa init_betaa init_mu n_iter :
  2 <= length counts -> length Zs = length counts -> 1 <= n_iter ->
  exists alphaa mu,
    newton_ralphson counts Zs (repeat 0%Z (length counts))
      init_alphaa init_betaa init_mu n_iter
    = Ok (alphaa, NaN, mu).
Proof.
  intros Hn HZ Hit. unfold newton_ralphson.
  rewrite HZ, repeat_length, Nat.eqb_refl.
  destruct (Nat.ltb_spec 1 (length counts)); [|lia].
  cbn [andb negb].
  destruct n_iter as [|n]; [lia|].
  eexists _, _. f_equal. f_equal. f_equal.
  rewrite newton_for_iter. apply iter_constant. intros theta.
  apply betaa_update_nan.
Qed.

End ZeroHistoryFacts.

Section ZeroHistoryExamples.
Import Standin.

Lemma zero_history_gives_nan_betaa_witness :
  exists alphaa mu,
    @newton_ralphson approx [0; 3]%Z [Fin (1 # 4); Fin (3 # 4)]
      (repeat 0%Z (length [0; 3]%Z)) (Fin 1) (Fin 0) (Fin (-1 # 2)) 1
    = Ok (alphaa, NaN, mu).
Proof.
  apply (@zero_history_gives_nan_betaa approx);
    [simpl; lia | reflexivity | lia].
Defined.

End ZeroHistoryExamples.

(** ** What a run returns *)

Section OutputFacts.
Local Open Scope nat_scope.
Context {elem : Elementary}.

Lemma argmax2_state a b : argmax2 a b = 0 \/ argmax2 a b = 1.
Proof.
  unfold argmax2. destruct (fl_isnan a); [now left|].
  destruct (fl_isnan b); [now right|].
  destruct (b >? a)%fl; [now right | now left].
Qed.

Lemma viterbi_loop_psi logA Bs : forall prev,
  Forall (fun p => is_state (fst p) /\ is_state (snd p))
    (map snd (viterbi_loop logA prev Bs)).
Proof.
  induction Bs as [|Bt Bs IH]; intros prev; [constructor|].
  cbn [viterbi_loop map]. constructor; [|apply IH].
  split; apply argmax2_state.
Qed.

Lemma backtrack_states psis final :
  is_state final ->
  Forall (fun p => is_state (fst p) /\ is_state (snd p)) psis ->
  Forall is_state (backtrack psis final).
Proof.
  intros Hf. induction 1 as [|p psis (Hp0 & Hp1) _ IH].
  - constructor; [exact Hf | constructor].
  - cbn [backtrack]. constructor; [|exact IH].
    unfold psi_get. destruct (hd 0 (backtrack psis final)); assumption.
Qed.

Lemma viterbi_path p0 A B dec :
  viterbi p0 A B = Ok dec ->
  length (vt_S dec) = length B /\ Forall is_state (vt_S dec).
Proof.
  unfold viterbi. destruct B as [|B0 Bs]; [discriminate|].
  cbn [map]. intros [= <-]. cbn [vt_S]. split.
  - rewrite backtrack_length, length_map, viterbi_loop_length, length_map.
    reflexivity.
  - apply backtrack_states; [apply argmax2_state | apply viterbi_loop_psi].
Qed.

(** The state at the end of the loop of a run that returns. *)
Lemma run_final_state counts hist init_A init_alphaa init_betaa init_mu N nr r
    (P : em_state -> Prop) :
  (forall s s', P s -> em_iteration counts hist nr s = Ok s' -> P s') ->
  P (init_state counts hist init_A init_alphaa init_betaa init_mu N) ->
  _run_hmmem counts hist init_A init_alphaa init_betaa init_mu N nr = Ok r ->
  exists st dec,
    P st /\ viterbi (hd vzero (st_gamma st)) (st_A st) (st_B st) = Ok dec
    /\ out_S r = vt_S dec /\ out_B r = st_B st
    /\ out_mu r = st_mu st /\ out_alphaa r = st_alphaa st
    /\ out_betaa r = st_betaa st /\ out_A r = st_A st.
Proof.
  intros Hstep Hinit H. apply run_hmmem_inv in H.
  destruct H as (_ & st & dec & Hl & Hv & ->).
  destruct (em_loop_inv counts hist nr P
              (fun s s' Hs _ Hi => Hstep s s' Hs Hi) _ _ _ Hinit Hl)
    as (HP & _).
  exists st, dec. repeat split; assumption.
Qed.

(** The decoded path has one entry per bin, each of them state 0 or
    state 1; the returned emission table has one column per bin and is
    the table of the returned parameters [mu], [alphaa], [betaa]. *)
Theorem run_output_shape
    counts hist init_A init_alphaa init_betaa init_mu N nr r :
  _run_hmmem counts hist init_A init_alphaa init_betaa init_mu N nr = Ok r ->
  length (out_S r) = length counts
  /\ Forall is_state (out_S r)
  /\ length (out_B r) = length counts
  /\ out_B r = emission (out_mu r) (out_alphaa r) (out_betaa r) counts hist.
Proof.
  intros H.
  assert (Hlen : length counts = length hist)
    by (apply run_hmmem_inv in H; tauto).
  destruct (run_final_state _ _ _ _ _ _ _ _ _
              (fun s => st_B s
                        = emission (st_mu s) (st_alphaa s) (st_betaa s)
                            counts hist)
              ltac:(intros s s' _ Hi; apply em_iteration_inv in Hi;
                    destruct Hi as (? & ? & ? & ? & ? & ? & ? & _ & _ & _ & _ & ->);
                    reflexivity)
              eq_refl H)
    as (st & dec & HB & Hv & -> & -> & -> & -> & -> & _).
  apply viterbi_path in Hv. destruct Hv as (Hl & Hs).
  assert (HlB : length (st_B st) = length counts)
    by (rewrite HB, emission_length, <- Hlen; apply Nat.min_id).
  rewrite Hl, HlB. repeat split; assumption.
Qed.

End OutputFacts.

Section OutputExamples.
Import Standin.
Local Open Scope nat_scope.

Lemma run_output_shape_witness :
  exists r,
    ex_run 3 1 = Ok r
    /\ length (out_S r) = length ex_counts
    /\ Forall is_state (out_S r)
    /\ length (out_B r) = length ex_counts
    /\ out_B r = @emission approx (out_mu r) (out_alphaa r) (out_betaa r)
                   ex_counts ex_hist.
Proof.
  eexists. split; [vm_compute; reflexivity|].
  apply (@run_output_shape approx ex_counts ex_hist init_A
           (Fin 1) (Fin 0) (Fin (-1 # 2)) 3 1).
  vm_compute. reflexivity.
Defined.

End OutputExamples.

(** ** What an E-step can raise *)

Section ErrorFacts.
Local Open Scope nat_scope.
Context {elem : Elementary}.

Lemma forward_loop_error_range t A Bs : forall k prev e,
  forward_loop t k A prev Bs = Err e ->
  exists k', e = AlphaScalingError t k' /\ k <= k' < k + length Bs.
Proof.
  induction Bs as [|Bk Bs IH]; intros k prev e; simpl; [discriminate|].
  destruct (_ >? _)%fl.
  - destruct (forward_loop t (S k) A _ Bs) as [[al Cs]|e'] eqn:E; simpl;
      [discriminate|].
    intros [= ->]. apply IH in E. destruct E as (k' & -> & Hk).
    exists k'. split; [reflexivity | lia].
  - intros [= <-]. exists k. split; [reflexivity | lia].
Qed.

Lemma pairwise_error_range t A alpha : forall k beta B e,
  pairwise t k A alpha beta B = Err e ->
  exists k', e = ZetaScalingError t k'
             /\ k <= k' < k + Nat.min (length alpha)
                                (Nat.min (length beta) (length B)).
Proof.
  induction alpha as [|ak alpha IH]; intros k beta B e; [discriminate|].
  destruct beta as [|b1 beta]; [discriminate|].
  destruct B as [|B1 B]; [discriminate|].
  cbn [pairwise]. cbv zeta. destruct (_ >? _)%fl.
  - destruct (pairwise t (S k) A alpha beta B) as [zs|e'] eqn:E; simpl;
      [discriminate|].
    intros [= ->]. apply IH in E. destruct E as (k' & -> & Hk).
    exists k'. split; [reflexivity|]. simpl. lia.
  - intros [= <-]. exists k. split; [reflexivity|]. simpl. lia.
Qed.

(** An E-step at EM iteration [t] raises nothing but: [IndexError] on an
    empty table; the alpha error, with iteration [t] and a bin
    [1 <= k < nbins]; the zeta error, with iteration [t] and a bin
    [k < nbins - 1]. *)
Theorem e_step_errors t p0 A B e :
  e_step t p0 A B = Err e ->
  (B = [] /\ e = IndexError)
  \/ (exists k, e = AlphaScalingError t k /\ 1 <= k < length B)
  \/ (exists k, e = ZetaScalingError t k /\ k + 1 < length B).
Proof.
  unfold e_step.
  destruct (forward t p0 A B) as [[alpha C]|e'] eqn:Hf; simpl.
  - intros He. right. right.
    destruct (forward_length _ _ _ _ _ _ Hf) as (_ & Hla & HlC).
    unfold e_step_rest in He.
    destruct (pairwise _ _ _ _ _ _) as [zs|e''] eqn:Hp; simpl in He;
      [discriminate|].
    injection He as ->. apply pairwise_error_range in Hp.
    destruct Hp as (k & -> & Hk). exists k. split; [reflexivity|].
    rewrite !length_tl, backward_length, Hla, HlC in Hk. lia.
  - intros [= ->]. unfold forward in Hf.
    destruct B as [|B0 Bs]; [left; split; congruence|].
    right. left.
    destruct (forward_loop t 1 A _ Bs) as [[al Cs]|e''] eqn:E; simpl in Hf;
      [discriminate|].
    injection Hf as ->. apply forward_loop_error_range in E.
    destruct E as (k & -> & Hk). exists k. split; [reflexivity|]. simpl. lia.
Qed.

End ErrorFacts.

Section ErrorExamples.
Import Standin.
Local Open Scope nat_scope.

Lemma e_step_errors_witness :
  (([vzero; vzero] : table) = [] /\ AlphaScalingError 4 1 = IndexError)
  \/ (exists k, AlphaScalingError 4 1 = AlphaScalingError 4 k
                /\ 1 <= k < length ([vzero; vzero] : table))
  \/ (exists k, AlphaScalingError 4 1 = ZetaScalingError 4 k
                /\ k + 1 < length ([vzero; vzero] : table)).
Proof.
  apply (@e_step_errors approx 4 (V2 (Fin (1 # 2)) (Fin (1 # 2))) init_A
           [vzero; vzero] (AlphaScalingError 4 1)).
  reflexivity.
Defined.

End ErrorExamples.

(** ** Parameter dictionaries *)

Section ParamsFacts.
Import Params.
Local Open Scope nat_scope.
Variable V : Type.
Implicit Types d other defaults params : list (string * V).

Lemma has_key_In d k : has_key d k = true <-> In k (keys d).
Proof.
  unfold has_key. rewrite existsb_exists. split.
  - intros (x & Hx & E). apply String.eqb_eq in E. now subst.
  - intros H. exists k. split; [assumption | apply String.eqb_refl].
Qed.

Lemma dict_set_keys d k v :
  has_key d k = true -> keys (dict_set d k v) = keys d.
Proof.
  induction d as [|[k' v'] d IH]; intros H; [discriminate|].
  cbn [dict_set]. unfold has_key in H. cbn [keys map existsb fst] in H.
  destruct (String.eqb k k') eqn:E; [reflexivity|].
  cbn [keys map fst]. f_equal. apply IH. exact H.
Qed.

Lemma update_keys other : forall d,
  (forall k, In k (keys other) -> has_key d k = true) ->
  keys (update d other) = keys d.
Proof.
  induction other as [|[k v] other IH]; intros d H; [reflexivity|].
  unfold update. cbn [fold_left fst snd]. fold (update (dict_set d k v) other).
  assert (Hk : has_key d k = true) by (apply H; now left).
  rewrite IH.
  - now apply dict_set_keys.
  - intros k' Hk'. apply has_key_In. rewrite dict_set_keys by assumption.
    apply has_key_In. apply H. now right.
Qed.

Lemma lookup_dict_set d k v k' :
  lookup (dict_set d k v) k'
  = if String.eqb k' k then Some v else lookup d k'.
Proof.
  induction d as [|[k0 v0] d IH]; cbn [dict_set lookup].
  - reflexivity.
  - destruct (String.eqb k k0) eqn:E.
    + apply String.eqb_eq in E. subst k0. cbn [lookup].
      destruct (String.eqb k' k); reflexivity.
    + cbn [lookup]. rewrite IH.
      destruct (String.eqb k' k0) eqn:E0; [|reflexivity].
      apply String.eqb_eq in E0. subst k0.
      destruct (String.eqb k' k) eqn:E1; [|reflexivity].
      apply String.eqb_eq in E1. subst k'.
      rewrite String.eqb_refl in E. discriminate.
Qed.

Lemma lookup_absent d k : ~ In k (keys d) -> lookup d k = None.
Proof.
  induction d as [|[k' v'] d IH]; intros H; [reflexivity|].
  cbn [lookup]. destruct (String.eqb k k') eqn:E.
  - apply String.eqb_eq in E. subst. exfalso. apply H. now left.
  - apply IH. intros H'. apply H. now right.
Qed.

Lemma lookup_update other : forall d k,
  NoDup (keys other) ->
  lookup (update d other) k
  = match lookup other k with
    | Some v => Some v
    | None => lookup d k
    end.
Proof.
  induction other as [|[k0 v0] other IH]; intros d k Hnd; [reflexivity|].
  cbn [keys map fst] in Hnd. inversion Hnd as [|? ? Hnotin Hnd']; subst.
  unfold update. cbn [fold_left fst snd].
  fold (update (dict_set d k0 v0) other).
  rewrite IH by assumption. rewrite lookup_dict_set. cbn [lookup].
  destruct (String.eqb k k0) eqn:E; [|reflexivity].
  apply String.eqb_eq in E. subst k0.
  now rewrite (lookup_absent other k Hnotin).
Qed.

Lemma filter_nil_forall {T} (f : T -> bool) l :
  filter f l = [] -> forall x, In x l -> f x = false.
Proof.
  induction l as [|y l IH]; intros H x Hx; [contradiction|].
  cbn [filter] in H. destruct (f y) eqn:E; [discriminate|].
  destruct Hx as [<- | Hx]; [assumption | now apply IH].
Qed.

Lemma same_key_set_of_keys (a b : list (string * V)) :
  keys a = keys b -> same_key_set a b = true.
Proof.
  intros E. unfold same_key_set. rewrite E.
  assert (H : forall d : list (string * V),
            keys d = keys b -> forallb (has_key d) (keys b) = true).
  { intros d Ed. apply forallb_forall. intros k Hk.
    apply has_key_In. now rewrite Ed. }
  rewrite (H b eq_refl), (H a E). reflexivity.
Qed.

(** [OnOffModel.__init__] raises on a key that is not a default key, and
    only then; the dictionary it builds otherwise has exactly the default
    keys, in the default order, so it passes the assertion of [run_hmmem];
    each value is the given one where given and the default otherwise. *)
Theorem init_params_spec defaults params :
  NoDup (keys params) ->
  (init_params defaults params = None
   <-> exists k, In k (keys params) /\ has_key defaults k = false)
  /\ (forall p, init_params defaults params = Some p ->
        keys p = keys defaults
        /\ params_check defaults p = true
        /\ forall k, lookup p k
                     = match lookup params k with
                       | Some v => Some v
                       | None => lookup defaults k
                       end).
Proof.
  intros Hnd. unfold init_params.
  destruct (filter _ (keys params)) as [|k0 ks] eqn:F.
  - pose proof (filter_nil_forall _ _ F) as Hall.
    split.
    + split; [discriminate|]. intros (k & Hk & Hno).
      apply Hall in Hk. rewrite Hno in Hk. discriminate.
    + intros p [= <-].
      assert (Hkeys : keys (update defaults params) = keys defaults).
      { apply update_keys. intros k Hk. apply Hall in Hk.
        now apply negb_false_iff in Hk. }
      split; [exact Hkeys|]. split.
      * unfold params_check. now apply same_key_set_of_keys.
      * intros k. now apply lookup_update.
  - split; [|discriminate].
    split; [|reflexivity]. intros _. exists k0.
    assert (Hin : In k0 (filter (fun k => negb (has_key defaults k))
                           (keys params)))
      by (rewrite F; now left).
    apply filter_In in Hin. destruct Hin as (Hin & Hneg).
    split; [assumption | now apply negb_true_iff in Hneg].
Qed.

End ParamsFacts.

Section ParamsExamples.
Import Params.
Local Open Scope string_scope.

Lemma init_params_spec_witness :
  @init_params nat (map (fun k => (k, 0%nat)) HMMEM_KEYS)
    [("n_iter_EM", 50%nat); ("init_mu", 1%nat)]
  = Some [("binsize", 0%nat); ("history_window_nbins", 0%nat);
          ("n_iter_EM", 50%nat); ("n_iter_newton_ralphson", 0%nat);
          ("init_A", 0%nat); ("init_mu", 1%nat); ("init_alphaa", 0%nat);
          ("init_betaa", 0%nat)]
  /\ @params_check nat (map (fun k => (k, 0%nat)) HMMEM_KEYS)
       [("binsize", 0%nat); ("history_window_nbins", 0%nat);
        ("n_iter_EM", 50%nat); ("n_iter_newton_ralphson", 0%nat);
        ("init_A", 0%nat); ("init_mu", 1%nat); ("init_alphaa", 0%nat);
        ("init_betaa", 0%nat)] = true.
Proof.
  split; [reflexivity|].
  apply (init_params_spec nat (map (fun k => (k, 0%nat)) HMMEM_KEYS)
           [("n_iter_EM", 50%nat); ("init_mu", 1%nat)]).
  - repeat constructor; simpl; intuition discriminate.
  - reflexivity.
Defined.

End ParamsExamples.

(** ** Bounds on the history sequence *)

Section HistoryBounds.
Import History.
Local Open Scope Z_scope.

Lemma zsum_nonneg l : Forall (fun x => 0 <= x) l -> 0 <= zsum l.
Proof.
  induction 1 as [|x l Hx _ IH]; [apply Z.le_refl|].
  change (zsum (x :: l)) with (x + zsum l). lia.
Qed.

Lemma zsum_firstn_le l : forall n,
  Forall (fun x => 0 <= x) l ->
  0 <= zsum (firstn n l) /\ zsum (firstn n l) <= zsum l.
Proof.
  induction l as [|x l IH]; intros n H.
  - rewrite firstn_nil. split; apply Z.le_refl.
  - inversion H as [|? ? Hx Hl]; subst.
    destruct n as [|n].
    + cbn [firstn]. pose proof (zsum_nonneg _ H). split; [apply Z.le_refl|].
      exact H0.
    + cbn [firstn]. change (zsum (x :: firstn n l)) with (x + zsum (firstn n l)).
      change (zsum (x :: l)) with (x + zsum l).
      destruct (IH n Hl). lia.
Qed.

Lemma skipn_nonneg l : forall n,
  Forall (fun x => 0 <= x) l ->
  Forall (fun x => 0 <= x) (skipn n l) /\ zsum (skipn n l) <= zsum l.
Proof.
  induction l as [|x l IH]; intros n H.
  - rewrite skipn_nil. split; [constructor | apply Z.le_refl].
  - inversion H as [|? ? Hx Hl]; subst.
    destruct n as [|n]; [split; [assumption | apply Z.le_refl]|].
    cbn [skipn]. destruct (IH n Hl) as (Hf & Hle). split; [assumption|].
    change (zsum (x :: l)) with (x + zsum l). lia.
Qed.

Lemma zsum_slice_bounds lo hi l :
  Forall (fun x => 0 <= x) l ->
  0 <= zsum (slice lo hi l) /\ zsum (slice lo hi l) <= zsum l.
Proof.
  intros H. unfold slice.
  destruct (skipn_nonneg l lo H) as (Hs & Hle).
  destruct (zsum_firstn_le (skipn lo l) (hi - lo) Hs). lia.
Qed.

(** The first bin has no history; with a window of 0 bins no bin has
    any; and for non-negative counts every history entry lies between 0
    and the total number of spikes. *)
Theorem history_bounds (W : nat) (bin_spike_count : list Z) :
  nth 0 (bin_history_spike_count W bin_spike_count) 0 = 0
  /\ bin_history_spike_count 0 bin_spike_count
     = repeat 0 (length bin_spike_count)
  /\ (Forall (fun c => 0 <= c) bin_spike_count ->
      Forall (fun h => 0 <= h <= zsum bin_spike_count)
        (bin_history_spike_count W bin_spike_count)).
Proof.
  split; [|split].
  - destruct bin_spike_count as [|c cs] eqn:E; [reflexivity|].
    rewrite history_nth by (simpl; lia). reflexivity.
  - apply (nth_ext _ _ 0 0).
    + now rewrite history_length, repeat_length.
    + intros k Hk. rewrite history_length in Hk.
      rewrite history_nth by assumption. rewrite nth_repeat.
      rewrite Nat.min_0_r, Nat.sub_0_r. unfold slice.
      now rewrite Nat.sub_diag.
  - intros H. apply Forall_forall. intros h Hh.
    apply (In_nth _ _ 0) in Hh. destruct Hh as (k & Hk & <-).
    rewrite history_length in Hk. rewrite history_nth by assumption.
    now apply zsum_slice_bounds.
Qed.

Lemma history_bounds_witness :
  Forall (fun h => 0 <= h <= zsum [3; 0; 2])
    (bin_history_spike_count 1 [3; 0; 2]).
Proof.
  apply (history_bounds 1 [3; 0; 2]). repeat constructor; discriminate.
Defined.

End HistoryBounds.

(** ** Recovering the original times *)

Section FloatOrderFacts.
Import SpecFloat FloatOrder.

Lemma compare_rank x y :
  is_nan x = false -> is_nan y = false ->
  (SFcompare x y = Some Lt <-> rank_lt (rank x) (rank y))
  /\ (SFcompare x y = Some Eq <-> rank x = rank y)
  /\ SFcompare x y <> None.
Proof.
  destruct x as [sx|sx| |sx mx ex], y as [sy|sy| |sy my ey];
    try discriminate; intros _ _;
    try destruct sx; try destruct sy; cbn [SFcompare rank rank_lt];
    try (split; [|split]; [split; [intros [=] | intros; lia]
                          | split; [intros [=] | intros [=]; lia]
                          | discriminate]; fail);
    try (split; [|split]; [split; [intros; lia | reflexivity]
                          | split; [intros [=] | intros [=]; lia]
                          | discriminate]; fail);
    try (split; [|split]; [split; [intros [=] | intros; lia]
                          | split; [reflexivity | reflexivity]
                          | discriminate]; fail).
  all: rewrite Pos.compare_cont_spec; cbn [Pos.switch_Eq];
    destruct (Z.compare_spec ex ey), (Pos.compare_spec mx my); cbn [CompOpp];
    (split; [|split];
     [split; [intros [=]; try lia | intros; try lia; try reflexivity]
     | split; [intros [=]; try (f_equal; f_equal; lia); try lia
              | intros [=]; try lia; try reflexivity]
     | discriminate]).
Qed.

Lemma ltb_rank (x y : PrimFloat.float) :
  PrimFloat.ltb x y = true <->
  is_nan (FloatOps.Prim2SF x) = false /\ is_nan (FloatOps.Prim2SF y) = false
  /\ rank_lt (rank (FloatOps.Prim2SF x)) (rank (FloatOps.Prim2SF y)).
Proof.
  rewrite FloatAxioms.ltb_spec. unfold SFltb.
  destruct (is_nan (FloatOps.Prim2SF x)) eqn:Ex.
  { destruct (FloatOps.Prim2SF x); try discriminate. simpl.
    split; [discriminate | intros (H & _); discriminate]. }
  destruct (is_nan (FloatOps.Prim2SF y)) eqn:Ey.
  { destruct (FloatOps.Prim2SF y); try discriminate.
    destruct (FloatOps.Prim2SF x); simpl;
      (split; [discriminate | intros (_ & H & _); discriminate]). }
  destruct (compare_rank _ _ Ex Ey) as (Hlt & _ & _).
  destruct (SFcompare _ _) as [[| |]|].
  - split; [discriminate|]. intros (_ & _ & H). apply Hlt in H. discriminate.
  - split; [|reflexivity]. intros _. repeat split. now apply Hlt.
  - split; [discriminate|]. intros (_ & _ & H). apply Hlt in H. discriminate.
  - split; [discriminate|]. intros (_ & _ & H). apply Hlt in H. discriminate.
Qed.

Lemma leb_rank (x y : PrimFloat.float) :
  PrimFloat.leb x y = true <->
  is_nan (FloatOps.Prim2SF x) = false /\ is_nan (FloatOps.Prim2SF y) = false
  /\ (rank_lt (rank (FloatOps.Prim2SF x)) (rank (FloatOps.Prim2SF y))
      \/ rank (FloatOps.Prim2SF x) = rank (FloatOps.Prim2SF y)).
Proof.
  rewrite FloatAxioms.leb_spec. unfold SFleb.
  destruct (is_nan (FloatOps.Prim2SF x)) eqn:Ex.
  { destruct (FloatOps.Prim2SF x); try discriminate. simpl.
    split; [discriminate | intros (H & _); discriminate]. }
  destruct (is_nan (FloatOps.Prim2SF y)) eqn:Ey.
  { destruct (FloatOps.Prim2SF y); try discriminate.
    destruct (FloatOps.Prim2SF x); simpl;
      (split; [discriminate | intros (_ & H & _); discriminate]). }
  destruct (compare_rank _ _ Ex Ey) as (Hlt & Heq & Hnone).
  destruct (SFcompare _ _) as [[| |]|].
  - split; [|reflexivity]. intros _. repeat split. right. now apply Heq.
  - split; [|reflexivity]. intros _. repeat split. left. now apply Hlt.
  - split; [discriminate|]. intros (_ & _ & [H|H]).
    + apply Hlt in H. discriminate.
    + apply Heq in H. discriminate.
  - now contradiction Hnone.
Qed.

(** The comparisons of binary64 numbers are those of an order. *)
Lemma float_ltb_irrefl x : PrimFloat.ltb x x = false.
Proof.
  destruct (PrimFloat.ltb x x) eqn:E; [|reflexivity].
  apply ltb_rank in E. destruct E as (_ & _ & E).
  destruct (rank (FloatOps.Prim2SF x)) as [[a b] c]. simpl in E. lia.
Qed.

Lemma float_ltb_trans x y z :
  PrimFloat.ltb x y = true -> PrimFloat.ltb y z = true ->
  PrimFloat.ltb x z = true.
Proof.
  rewrite !ltb_rank. intros (Hx & _ & H1) (_ & Hz & H2).
  repeat split; try assumption.
  destruct (rank (FloatOps.Prim2SF x)) as [[a1 a2] a3],
           (rank (FloatOps.Prim2SF y)) as [[b1 b2] b3],
           (rank (FloatOps.Prim2SF z)) as [[c1 c2] c3].
  simpl in *. lia.
Qed.

Lemma float_ltb_leb_trans x y z :
  PrimFloat.ltb x y = true -> PrimFloat.leb y z = true ->
  PrimFloat.ltb x z = true.
Proof.
  rewrite !ltb_rank, leb_rank. intros (Hx & _ & H1) (_ & Hz & H2).
  repeat split; try assumption.
  destruct (rank (FloatOps.Prim2SF x)) as [[a1 a2] a3],
           (rank (FloatOps.Prim2SF y)) as [[b1 b2] b3],
           (rank (FloatOps.Prim2SF z)) as [[c1 c2] c3].
  simpl in *. destruct H2 as [H2|[= -> -> ->]]; lia.
Qed.

Lemma float_leb_ltb_trans x y z :
  PrimFloat.leb x y = true -> PrimFloat.ltb y z = true ->
  PrimFloat.ltb x z = true.
Proof.
  rewrite !ltb_rank, leb_rank. intros (Hx & _ & H1) (_ & Hz & H2).
  repeat split; try assumption.
  destruct (rank (FloatOps.Prim2SF x)) as [[a1 a2] a3],
           (rank (FloatOps.Prim2SF y)) as [[b1 b2] b3],
           (rank (FloatOps.Prim2SF z)) as [[c1 c2] c3].
  simpl in *. destruct H1 as [H1|[= <- <- <-]]; lia.
Qed.

End FloatOrderFacts.

Section DetectionFacts.
Import History Detection.
Import PrimFloat.
Variable X : Type.
Implicit Types o r : period X.

Lemma zip_with_nested {A B} (f g : A -> B -> B) (xs : list A) : forall ys,
  zip_with f xs (zip_with g xs ys) = zip_with (fun x y => f x (g x y)) xs ys.
Proof.
  induction xs as [|x xs IH]; intros [|y ys]; try reflexivity.
  cbn [zip_with]. now rewrite IH.
Qed.

Lemma zip_with_same_length_id {A B} (xs : list A) : forall ys : list B,
  length xs = length ys -> zip_with (fun _ y => y) xs ys = ys.
Proof.
  induction xs as [|x xs IH]; intros [|y ys] H; try discriminate;
    [reflexivity|].
  cbn [zip_with]. f_equal. apply IH. now injection H.
Qed.

Lemma relabel_rows bouts : forall cs (orig df : list (period X)),
  length orig = length df ->
  relabel bouts cs orig df = zip_with (@relabel_row X bouts cs) orig df.
Proof.
  induction bouts as [|b rest IH]; intros cs orig df Hlen.
  - cbn [relabel relabel_row]. symmetry. now apply zip_with_same_length_id.
  - cbn [relabel relabel_row]. cbv zeta.
    rewrite IH by (rewrite zip_with_length, <- Hlen; now rewrite Nat.min_id).
    apply zip_with_nested.
Qed.

(** A period that does not start after [cs] is in none of the stretches
    that begin at [cs] or later. *)
Lemma no_bout_after bouts : forall cs o r,
  stretches_nondecreasing bouts cs = true ->
  (as_float cs <? start_time o)%float = false ->
  find_bout bouts cs o = None /\ relabel_row bouts cs o r = r.
Proof.
  induction bouts as [|b rest IH]; intros cs o r Hd Hs; [now split|].
  cbn [stretches_nondecreasing] in Hd. cbv zeta in Hd.
  apply andb_true_iff in Hd. destruct Hd as (Hle & Hrest).
  cbn [find_bout relabel_row]. cbv zeta.
  assert (Hout : bout_on_off cs (as_float cs + b_duration b)%float o = false)
    by (unfold bout_on_off; rewrite Hs; reflexivity).
  rewrite Hout.
  apply IH; [exact Hrest|]. cbn [as_float].
  destruct (as_float cs + b_duration b <? start_time o)%float eqn:E;
    [|reflexivity].
  rewrite (float_leb_ltb_trans _ _ _ Hle E) in Hs. discriminate.
Qed.

(** A period lies in at most one stretch: the loop moves it at most
    once. *)
Lemma relabel_row_find bouts : forall cs o r,
  stretches_nondecreasing bouts cs = true ->
  (start_time o <=? end_time o)%float = true ->
  relabel_row bouts cs o r
  = match find_bout bouts cs o with
    | Some (c, b) => move (neg c + b_start_time b)%float (b_state b) r
    | None => r
    end.
Proof.
  induction bouts as [|b rest IH]; intros cs o r Hd Ho; [reflexivity|].
  cbn [stretches_nondecreasing] in Hd. cbv zeta in Hd.
  apply andb_true_iff in Hd. destruct Hd as (Hle & Hrest).
  cbn [find_bout relabel_row]. cbv zeta.
  destruct (bout_on_off cs _ o) eqn:E.
  - apply andb_true_iff in E. destruct E as (_ & E).
    apply no_bout_after; [exact Hrest|]. cbn [as_float].
    destruct (as_float cs + b_duration b <? start_time o)%float eqn:E';
      [|reflexivity].
    pose proof (float_ltb_trans _ _ _ (float_ltb_leb_trans _ _ _ E' Ho) E) as F.
    rewrite float_ltb_irrefl in F. discriminate.
  - now apply IH.
Qed.

Lemma find_bout_inside bouts : forall cs o c b,
  find_bout bouts cs o = Some (c, b) ->
  In b bouts
  /\ (as_float c <? start_time o)%float = true
  /\ (end_time o <? as_float c + b_duration b)%float = true.
Proof.
  induction bouts as [|b0 rest IH]; intros cs o c b; [discriminate|].
  cbn [find_bout]. cbv zeta.
  destruct (bout_on_off cs _ o) eqn:E.
  - intros [= <- <-]. apply andb_true_iff in E. split; [now left | exact E].
  - intros H. apply IH in H. destruct H as (Hin & H). split; [now right | exact H].
Qed.

Lemma zip_with_map_r {A B} (f : A -> B -> B) (g : A -> B) (xs : list A) :
  zip_with f xs (map g xs) = map (fun x => f x (g x)) xs.
Proof. induction xs as [|x xs IH]; [reflexivity|]. simpl. now rewrite IH. Qed.

(** In binary64 arithmetic: when the ends of the stretches, as the loop
    accumulates them, never decrease, and no period ends before it
    starts, a period lies strictly inside at most one stretch, and
    [_run_detection] returns, in the order of the input, exactly the
    periods that lie strictly inside a stretch whose bout is not itself
    labelled ["interbout"], each moved once, by the offset
    [-stretch start + bout start_time] that the loop computes, and
    labelled with the state of the bout; the other columns are kept. *)
Theorem recover_times_spec (bouts : list bout) (on_off_df : list (period X)) :
  stretches_nondecreasing bouts Int0 = true ->
  Forall (fun o => (start_time o <=? end_time o)%float = true) on_off_df ->
  recover_times bouts on_off_df = flat_map (place bouts) on_off_df
  /\ (forall r, In r (recover_times bouts on_off_df) ->
        exists o b c,
          In o on_off_df /\ In b bouts
          /\ (as_float c <? start_time o)%float = true
          /\ (end_time o <? as_float c + b_duration b)%float = true
          /\ b_state b <> "interbout"%string
          /\ r = {| start_time :=
                      (start_time o + (neg c + b_start_time b))%float;
                    end_time := (end_time o + (neg c + b_start_time b))%float;
                    bout_state := b_state b;
                    other := other o |}).
Proof.
  intros Hd Ho.
  assert (E : recover_times bouts on_off_df = flat_map (place bouts) on_off_df).
  { unfold recover_times.
    rewrite relabel_rows by (now rewrite length_map).
    rewrite zip_with_map_r.
    induction Ho as [|o rows Ho0 _ IH]; [reflexivity|].
    cbn [map filter flat_map]. rewrite <- IH.
    rewrite relabel_row_find by assumption.
    unfold place. destruct (find_bout bouts Int0 o) as [[c b]|].
    - cbn [move bout_state].
      destruct (String.eqb (b_state b) "interbout"); reflexivity.
    - cbn [set_state bout_state]. reflexivity. }
  split; [exact E|].
  intros r Hr. rewrite E in Hr. apply in_flat_map in Hr.
  destruct Hr as (o & Hin & Hr). unfold place in Hr.
  destruct (find_bout bouts Int0 o) as [[c b]|] eqn:F; [|contradiction].
  destruct (String.eqb_spec (b_state b) "interbout") as [Hs|Hs];
    [contradiction|].
  destruct Hr as [<- | []].
  apply find_bout_inside in F. destruct F as (Hb & Hlo & Hhi).
  exists o, b, c. repeat split; assumption.
Qed.

End DetectionFacts.

Section DetectionExamples.
Import Detection DetectionInputs.
Import PrimFloat.
Local Open Scope string_scope.

(** The first period comes back as [(100.03125, 100.0625)] and the last
    as [(200.15, 200.4)], each rounded to binary64; the period that ends
    on the rounded end of the second stretch is dropped with the one
    across the junction. *)
Lemma recover_times_spec_witness :
  recover_times ex_bouts ex_periods
  = [ {| start_time := 0x1.902p+6; end_time := 0x1.904p+6;
         bout_state := "NREM"; other := tt |};
      {| start_time := 0x1.904cccccccccdp+7; end_time := 0x1.90ccccccccccdp+7;
         bout_state := "Wake"; other := tt |} ]
  /\ recover_times ex_bouts ex_periods = flat_map (place ex_bouts) ex_periods.
Proof.
  split; [vm_compute; reflexivity|].
  apply (recover_times_spec unit ex_bouts ex_periods).
  - reflexivity.
  - repeat constructor.
Defined.

End DetectionExamples.
